(** * The real-estate scraping scripts, embedded in Rocq

    A shallow embedding of the parts of the repository that its
    specification talks about:

    - [csv_15.py]: the class [JinaAIRealEstateScraper] with the regex
      fallback parser ([extract_properties_simple],
      [extract_title_from_section], [extract_address_from_section]), the
      content fetch ([respect_rate_limit], [extract_clean_content]) and the
      pipeline [process_url];
    - [script_principal.py]: the orchestrator and its three child processes;
    - [inserir_dados_mysql.py] and [eliminar_duplicatas.py]: the two
      dataframe scripts.

    Python strings are sequences of Unicode code points, so a string is a
    list of code points here; dictionaries are finite maps with string keys;
    the object [self], the clock, the network and the log are threaded
    through a small state monad. *)

From Stdlib Require Import ZArith NArith QArith Ascii String Lia.
From stdpp Require Import gmap strings list.

Open Scope N_scope.

(** ** Python strings *)

Module Str.

(** A code point and a [str]. *)
Definition char := N.
Definition str := list char.

(** Literals of this file are written as UTF-8 byte strings and decoded;
    [pending] counts the continuation bytes still expected. *)
Fixpoint utf8_decode (pending acc : N) (bs : list N) : str :=
  match bs with
  | [] => []
  | b :: bs' =>
      if pending =? 0 then
        if b <? 128 then b :: utf8_decode 0 0 bs'
        else if b <? 224 then utf8_decode 1 (N.land b 31) bs'
        else if b <? 240 then utf8_decode 2 (N.land b 15) bs'
        else utf8_decode 3 (N.land b 7) bs'
      else
        let acc' := acc * 64 + N.land b 63 in
        if pending =? 1 then acc' :: utf8_decode 0 0 bs'
        else utf8_decode (pending - 1) acc' bs'
  end.

Fixpoint bytes_of (s : string) : list N :=
  match s with
  | EmptyString => []
  | String a s' => N_of_ascii a :: bytes_of s'
  end.

Definition lit (s : string) : str := utf8_decode 0 0 (bytes_of s).

(** [str.isspace] on one code point, which is also the class [\s] of a
    Unicode pattern: the white-space table of CPython. *)
Definition is_space (c : char) : bool :=
  ((9 <=? c) && (c <=? 13)) || ((28 <=? c) && (c <=? 32))
  || (c =? 133) || (c =? 160) || (c =? 5760)
  || ((8192 <=? c) && (c <=? 8202))
  || (c =? 8232) || (c =? 8233) || (c =? 8239) || (c =? 8287) || (c =? 12288).

(** The first code points of the runs of decimal digits (general category
    Nd, Unicode 14); every run has the digits 0..9 in order, and the
    mathematical digits at 0x1D7CE are five runs in a row. *)
Definition decimal_runs : list (N * N) :=
  map (fun b => (b, 10))
    [48; 1632; 1776; 1984; 2406; 2534; 2662; 2790; 2918; 3046; 3174; 3302;
     3430; 3558; 3664; 3792; 3872; 4160; 4240; 6112; 6160; 6470; 6608; 6784;
     6800; 6992; 7088; 7232; 7248; 42528; 43216; 43264; 43472; 43504; 43600;
     44016; 65296; 66720; 68912; 69734; 69872; 69942; 70096; 70384; 70736;
     70864; 71248; 71360; 71472; 71904; 72016; 72784; 73040; 73120; 92768;
     92864; 93008]
  ++ [(120782, 50)]
  ++ map (fun b => (b, 10)) [123200; 123632; 125264; 130032].

(** The value of a decimal digit, [None] for any other code point. *)
Definition decimal_value (c : char) : option N :=
  match List.find (fun r => (fst r <=? c) && (c <? fst r + snd r)) decimal_runs with
  | Some r => Some ((c - fst r) mod 10)
  | None => None
  end.

(** [str.isdecimal] on one code point, the class [\d] of a Unicode pattern. *)
Definition is_decimal (c : char) : bool :=
  match decimal_value c with Some _ => true | None => false end.

(** Lower case of one code point as [str.lower] gives it.  The table is
    exact for every code point whose lower case contains a Latin-1 code
    point; elsewhere it is the identity.  The program only ever compares the
    result with Latin-1 words, for which the two agree. *)
Definition lower_char (c : char) : str :=
  if (65 <=? c) && (c <=? 90) then [c + 32]
  else if (192 <=? c) && (c <=? 222) && negb (c =? 215) then [c + 32]
  else if c =? 304 then [105; 775]
  else if c =? 376 then [255]
  else if c =? 7838 then [223]
  else if c =? 8490 then [107]
  else if c =? 8491 then [229]
  else [c].

(** [s.lower()] *)
Definition lower (s : str) : str := flat_map lower_char s.

(** [s.lstrip()], [s.strip()] *)
Fixpoint lstrip (s : str) : str :=
  match s with
  | c :: s' => if is_space c then lstrip s' else s
  | [] => []
  end.

Definition strip (s : str) : str := rev (lstrip (rev (lstrip s))).

(** [c in s] for a one-character [c] *)
Definition contains (c : char) (s : str) : bool := existsb (N.eqb c) s.

(** [s.split(c)] for a one-character separator: never the empty list. *)
Fixpoint split (c : char) (s : str) : list str :=
  match s with
  | [] => [[]]
  | x :: s' =>
      if x =? c then [] :: split c s'
      else match split c s' with
           | p :: ps => (x :: p) :: ps
           | [] => [[x]]
           end
  end.

(** [c.join(parts)] for a one-character [c] *)
Fixpoint join (c : char) (parts : list str) : str :=
  match parts with
  | [] => []
  | [p] => p
  | p :: ps => p ++ c :: join c ps
  end.

(** [s.startswith(w)] and [w in s] for a word [w] *)
Fixpoint startswith (w s : str) : bool :=
  match w, s with
  | [], _ => true
  | a :: w', b :: s' => (a =? b) && startswith w' s'
  | _ :: _, [] => false
  end.

Fixpoint isin (w s : str) : bool :=
  startswith w s || match s with [] => false | _ :: s' => isin w s' end.

(** [parts[-1]] and [parts[:-1]] *)
Definition last_part (parts : list str) : str := List.last parts [].
Definition but_last (parts : list str) : list str := removelast parts.

End Str.

Import Str.

(** ** The fragment of [re] the scraper uses *)

Module Re.

(** The patterns of the program repeat single-character classes only, so
    the syntax has classes, sequence, alternation, the greedy [?] and the
    greedy [*] of a class, and one capturing group.  *)
Inductive regex : Type :=
| Eps
| Chr (p : char -> bool)
| Seq (r1 r2 : regex)
| Alt (r1 r2 : regex)
| Opt (r : regex)
| Star (p : char -> bool)
| Group (r : regex).

Definition Plus (p : char -> bool) : regex := Seq (Chr p) (Star p).

(** The state of a match attempt: what is left of the subject and the text
    of group 1, if it has taken part. *)
Section Matcher.
Context {R : Type}.

  (** Greedy repetition: the longest run first, giving characters back one
      at a time while the continuation fails. *)
Fixpoint star (p : char -> bool) (s : str) (k : str -> option R) : option R :=
    match s with
    | x :: s' =>
        if p x then
          match star p s' k with
          | Some r => Some r
          | None => k s
          end
        else k s
    | [] => k []
    end.

  (** The backtracking matcher, in continuation-passing style: alternatives
      are tried left to right and an optional part is tried before its
      absence, as [re] does. *)
Fixpoint rmatch (r : regex) (s : str) (g : option str)
      (k : str -> option str -> option R) : option R :=
    match r with
    | Eps => k s g
    | Chr p =>
        match s with
        | x :: s' => if p x then k s' g else None
        | [] => None
        end
    | Seq r1 r2 => rmatch r1 s g (fun s' g' => rmatch r2 s' g' k)
    | Alt r1 r2 =>
        match rmatch r1 s g k with
        | Some res => Some res
        | None => rmatch r2 s g k
        end
    | Opt r1 =>
        match rmatch r1 s g k with
        | Some res => Some res
        | None => k s g
        end
    | Star p => star p s (fun s' => k s' g)
    | Group r1 =>
        rmatch r1 s g
          (fun s' _ => k s' (Some (take (length s - length s') s)))
    end.
End Matcher.

(** A match anchored at the start of [s]: its length and group 1. *)
Definition match_at (r : regex) (s : str) : option (nat * option str) :=
  rmatch r s None (fun s' g => Some ((length s - length s')%nat, g)).

(** All non-overlapping matches, left to right: the matched text and group
    1.  [skip] counts the characters of the last match still to pass.  No
    pattern of the program matches the empty string. *)
Fixpoint finditer (r : regex) (s : str) (skip : nat) : list (str * option str) :=
  match s with
  | [] => []
  | _ :: s' =>
      match skip with
      | S n => finditer r s' n
      | O =>
          match match_at r s with
          | Some (len, g) => (take len s, g) :: finditer r s' (len - 1)
          | None => finditer r s' 0
          end
      end
  end.

(** [re.findall]: the matched texts for a pattern without a group, the
    texts of the group for a pattern with one. *)
Definition findall (r : regex) (s : str) : list str :=
  map (fun m => match snd m with Some g => g | None => fst m end)
      (finditer r s 0).

(** [re.split] for a pattern without a group: the pieces between the
    matches; [cur] is the piece being read, reversed. *)
Fixpoint split_scan (r : regex) (s : str) (skip : nat) (cur : str) : list str :=
  match s with
  | [] => [rev cur]
  | x :: s' =>
      match skip with
      | S n => split_scan r s' n cur
      | O =>
          match match_at r s with
          | Some (S len, _) => rev cur :: split_scan r s' len []
          | _ => split_scan r s' 0 (x :: cur)
          end
      end
  end.

Definition split (r : regex) (s : str) : list str := split_scan r s 0 [].

(** *** Building patterns *)

(** Lower case of one code point as the matcher computes it for
    [re.IGNORECASE] (the simple mapping); exact wherever the result is a
    Latin-1 letter. *)
Definition sre_lower (c : char) : char :=
  if (65 <=? c) && (c <=? 90) then c + 32
  else if (192 <=? c) && (c <=? 222) && negb (c =? 215) then c + 32
  else if c =? 304 then 105
  else if c =? 376 then 255
  else if c =? 7838 then 223
  else if c =? 8490 then 107
  else if c =? 8491 then 229
  else c.

(** A literal letter under [re.IGNORECASE]: a subject character matches when
    its lower case is the letter's, or one of the two extra equivalents that
    [re] adds (dotless i for i, long s for s). *)
Definition ci (c : char) : char -> bool :=
  fun x =>
    let lo := sre_lower c in
    (sre_lower x =? lo)
    || ((lo =? 105) && (x =? 305))
    || ((lo =? 115) && (x =? 383)).

(** A literal word under [re.IGNORECASE] *)
Fixpoint word_ci (w : str) : regex :=
  match w with
  | [] => Eps
  | [c] => Chr (ci c)
  | c :: w' => Seq (Chr (ci c)) (word_ci w')
  end.

Definition w (s : string) : regex := word_ci (lit s).

Fixpoint alts (rs : list regex) : regex :=
  match rs with
  | [] => Eps
  | [r] => r
  | r :: rs' => Alt r (alts rs')
  end.

Fixpoint seqs (rs : list regex) : regex :=
  match rs with
  | [] => Eps
  | [r] => r
  | r :: rs' => Seq r (seqs rs')
  end.

Definition one (c : char) : char -> bool := N.eqb c.
Definition none_of (c : char) : char -> bool := fun x => negb (x =? c).
Definition any_of (ps : list (char -> bool)) : char -> bool :=
  fun x => existsb (fun p => p x) ps.

End Re.

(** ** Python values and dictionaries *)

(** The values that the property dictionaries hold.  A float is kept as the
    decimal numeral it was read from: [VFloat r] stands for [float(r)]. *)
#[warnings="-register-all"] Inductive pyval : Type :=
| VNone
| VBool (b : bool)
| VInt (z : Z)
| VFloat (repr : str)
| VStr (s : str)
| VList (l : list pyval)
| VDict (kv : list (string * pyval)).

(** A [dict] with string keys. *)
Abbreviation dict := (gmap string pyval).

(** [d.get(k)] *)
Definition get (d : dict) (k : string) : pyval := default VNone (d !! k).

(** The truth value of an [Optional[Dict]]: [None] and the empty dictionary
    are false. *)
Definition truthy (d : option dict) : bool :=
  match d with
  | Some m => negb (Nat.eqb (size m) 0)
  | None => false
  end.

(** The default of [sys.set_int_max_str_digits] (CPython 3.11). *)
Definition max_str_digits : nat := 4300.

Fixpoint digits_value (acc : Z) (s : str) : option Z :=
  match s with
  | [] => Some acc
  | c :: s' =>
      match decimal_value c with
      | Some d => digits_value (10 * acc + Z.of_N d) s'
      | None => None
      end
  end.

(** [int(s)] for the texts the program hands to it, which are runs of
    decimal digits: [None] stands for the [ValueError] that [int] raises on a
    numeral of more than [max_str_digits] digits (or on anything that is not
    a numeral). *)
Definition py_int (s : str) : option Z :=
  match s with
  | [] => None
  | _ => if (max_str_digits <? length s)%nat then None else digits_value 0 s
  end.

(** [s.replace(',', '.')] *)
Definition replace_comma (s : str) : str :=
  map (fun c => if c =? 44 then 46 else c) s.

(** ** The regex fallback parser of [JinaAIRealEstateScraper] *)

Module Scraper.
Import Re.

Definition NL : char := 10.
Definition DOLLAR : char := 36.
Definition COMMA : char := 44.
Definition HYPHEN : char := 45.
Definition DOT : char := 46.

(** [R\$\s*[\d.,]+(?:\s*mil)?] *)
Definition price_pattern : regex :=
  seqs [w "R"; Chr (one DOLLAR); Star is_space;
        Plus (any_of [is_decimal; one DOT; one COMMA]);
        Opt (seqs [Star is_space; w "mil"])].

(** [(\d+)\s*(?:quarto|dormitório|bedroom)] *)
Definition room_pattern : regex :=
  seqs [Group (Plus is_decimal); Star is_space;
        alts [w "quarto"; w "dormitório"; w "bedroom"]].

(** [(\d+)\s*(?:banheiro|bathroom|wc)] *)
Definition bath_pattern : regex :=
  seqs [Group (Plus is_decimal); Star is_space;
        alts [w "banheiro"; w "bathroom"; w "wc"]].

(** [(\d+(?:[.,]\d+)?)\s*m[²2]] *)
Definition area_pattern : regex :=
  seqs [Group (seqs [Plus is_decimal;
                     Opt (seqs [Chr (any_of [one DOT; one COMMA]); Plus is_decimal])]);
        Star is_space; w "m"; Chr (any_of [one 178; one 50])].

(** [\n\s*\n] *)
Definition section_break : regex :=
  seqs [Chr (one NL); Star is_space; Chr (one NL)].

(** [(?:Rua|Av|Avenida|Alameda|Travessa|Praça)\s+[^,]+(?:,\s*\d+)?(?:,\s*[^-]+)?(?:-\s*[^,]+)?(?:,\s*[^-]+)?] *)
Definition address_pattern : regex :=
  seqs [alts [w "Rua"; w "Av"; w "Avenida"; w "Alameda"; w "Travessa"; w "Praça"];
        Plus is_space; Plus (none_of COMMA);
        Opt (seqs [Chr (one COMMA); Star is_space; Plus is_decimal]);
        Opt (seqs [Chr (one COMMA); Star is_space; Plus (none_of HYPHEN)]);
        Opt (seqs [Chr (one HYPHEN); Star is_space; Plus (none_of COMMA)]);
        Opt (seqs [Chr (one COMMA); Star is_space; Plus (none_of HYPHEN)])].

(** *** [extract_title_from_section] *)

Definition title_words : list str :=
  [lit "apartamento"; lit "casa"; lit "imóvel"; lit "venda"; lit "aluguel"].

Definition looks_like_title (line : str) : bool :=
  (10 <? length line)%nat && (length line <? 100)%nat
  && existsb (fun word => isin word (lower line)) title_words.

Definition extract_title_from_section (section : str) : str :=
  let lines := map strip (Str.split NL section) in
  match List.find looks_like_title lines with
  | Some line => line
  | None =>
      match List.find (fun line => (5 <? length line)%nat) lines with
      | Some line => take 80 line
      | None => lit "Título não identificado"
      end
  end.

(** *** [extract_address_from_section] *)

Definition extract_address_from_section (section : str) : option dict :=
  match findall address_pattern section with
  | [] => None
  | m :: _ =>
      let full_address := strip m in
      let result : dict :=
        <["cidade" := VNone]> (<["bairro" := VNone]>
          (<["endereco" := VStr full_address]> ∅)) in
      let parts := map strip (Str.split COMMA full_address) in
      if (1 <? length parts)%nat then
        let bairro := last_part parts in
        let result := <["bairro" := VStr bairro]> result in
        let result := <["endereco" := VStr (join COMMA (but_last parts))]> result in
        if contains HYPHEN bairro then
          let city_parts := Str.split HYPHEN bairro in
          if (1 <? length city_parts)%nat then
            let result := <["cidade" := VStr (strip (last_part city_parts))]> result in
            Some (<["bairro" := VStr (strip (hd [] city_parts))]> result)
          else Some result
        else Some result
      else Some result
  end.

(** *** [extract_properties_simple] *)

(** The dictionary literal of the loop body. *)
Definition blank_property (titulo preco url : str) : dict :=
  <["link" := VStr url]> (<["caracteristicas" := VList []]>
  (<["condominio" := VNone]> (<["tipo" := VNone]> (<["vagas" := VNone]>
  (<["banheiros" := VNone]> (<["quartos" := VNone]> (<["area_m2" := VNone]>
  (<["cidade" := VNone]> (<["bairro" := VNone]> (<["endereco" := VNone]>
  (<["preco" := VStr preco]> (<["titulo" := VStr titulo]> ∅)))))))))))).

(** The address fields, copied when an address was found. *)
Definition with_address (address_info : option dict) (property_data : dict) : dict :=
  if truthy address_info then
    let info := default ∅ address_info in
    <["cidade" := get info "cidade"]> (<["bairro" := get info "bairro"]>
      (<["endereco" := get info "endereco"]> property_data))
  else property_data.

(** [property_data[key] = int(found[0])] when the pattern was found; [None]
    is the [ValueError] of [int]. *)
Definition with_int (key : string) (found : list str) (property_data : dict)
  : option dict :=
  match found with
  | [] => Some property_data
  | n :: _ =>
      match py_int n with
      | Some z => Some (<[key := VInt z]> property_data)
      | None => None
      end
  end.

Definition with_area (found : list str) (property_data : dict) : dict :=
  match found with
  | [] => property_data
  | a :: _ => <["area_m2" := VFloat (replace_comma a)]> property_data
  end.

(** The body of the loop for a section that has a price: the record of the
    section, or [None] when [int] raises. *)
Definition property_of (url section preco : str) : option dict :=
  let property_data :=
    blank_property (extract_title_from_section section) preco url in
  let property_data :=
    with_address (extract_address_from_section section) property_data in
  match with_int "quartos" (findall room_pattern section) property_data with
  | None => None
  | Some property_data =>
      match with_int "banheiros" (findall bath_pattern section) property_data with
      | None => None
      | Some property_data =>
          Some (with_area (findall area_pattern section) property_data)
      end
  end.

(** The [for] loop over the sections, with its two [continue]s and its
    [break]; [properties] is the list built so far.  [None] is an exception
    that leaves the loop. *)
Fixpoint scan_sections (url : str) (sections : list str) (properties : list dict)
  : option (list dict) :=
  match sections with
  | [] => Some properties
  | section :: rest =>
      if (length section <? 50)%nat then scan_sections url rest properties
      else
        match findall price_pattern section with
        | [] => scan_sections url rest properties
        | preco :: _ =>
            match property_of url section preco with
            | None => None
            | Some property_data =>
                let properties := properties ++ [property_data] in
                if (20 <=? length properties)%nat then Some properties
                else scan_sections url rest properties
            end
        end
  end.

(** The sections for which the body of the loop is entered, in order: the
    loop of [scan_sections] again, keeping what it looks at.  After the
    twentieth record, and after a section where [int] raises, it looks at
    nothing more. *)
Fixpoint visited (url : str) (sections : list str) (properties : list dict)
  : list str :=
  match sections with
  | [] => []
  | section :: rest =>
      section ::
      (if (length section <? 50)%nat then visited url rest properties
       else
         match findall price_pattern section with
         | [] => visited url rest properties
         | preco :: _ =>
             match property_of url section preco with
             | None => []
             | Some property_data =>
                 let properties := properties ++ [property_data] in
                 if (20 <=? length properties)%nat then []
                 else visited url rest properties
             end
         end)
  end.

(** The sections of a text. *)
Definition sections_of (clean_content : str) : list str :=
  Re.split section_break clean_content.

(** The value [extract_properties_simple] returns: the list of the loop, or
    the empty list from the [except] branch. *)
Definition simple_properties (clean_content url : str) : list dict :=
  match scan_sections url (sections_of clean_content) [] with
  | Some properties => properties
  | None => []
  end.

End Scraper.

(** ** The scraper object, the outside world and the pipeline *)

Module Pipeline.
Import Scraper.

(** What the outside answers.  A GET ends in a response or in an exception;
    [raise_for_status] turns the statuses 400..599 into an exception too. *)
Inductive http_outcome : Type :=
| Response (status : Z) (text : str)
| RequestException
| OtherException.

(** The fields of a [JinaAIRealEstateScraper].  The [requests.Session] in
    [self.session] is there as the headers that [__init__] sets and as the
    exchanges it has served, oldest first: what a session keeps from one
    request to the next (its cookie jar, its pooled connections) comes from
    the requests made through it and their outcomes. *)
Record scraper := {
  base_url : str;
  api_key : option str;
  session_headers : gmap string str;
  session_served : list (str * http_outcome);
  requests_per_minute : Z;
  min_delay : Q;
  last_request_time : Q
}.

(** An API key counts when it is neither [None] nor the empty string. *)
Definition has_key (k : option str) : bool :=
  match k with
  | Some (_ :: _) => true
  | _ => false
  end.

(** [60 / requests_per_minute], a division of floats, for the two rates of
    [__init__]: 60 / 20 is 3.0, and 60 / 200 is the double nearest to 3/10,
    5404319552844595 / 2^54. *)
Definition float_div_60 (rpm : Z) : Q :=
  if (rpm =? 200)%Z then 5404319552844595 # 18014398509481984
  else (60 / inject_Z rpm)%Q.

(** [JinaAIRealEstateScraper(api_key)] *)
Definition init (k : option str) : scraper :=
  let headers : gmap string str :=
    <["Accept-Language" := lit "pt-BR,pt;q=0.9,en;q=0.8"]>
    (<["Accept" := lit "text/plain, application/json"]>
    (<["User-Agent" := lit "Mozilla/5.0 (Windows NT 10.0; Win64; x64) AppleWebKit/537.36 (KHTML, like Gecko) Chrome/120.0.0.0 Safari/537.36"]> ∅)) in
  let headers :=
    if has_key k then <["Authorization" := lit "Bearer " ++ default [] k]> headers
    else headers in
  let rpm := if has_key k then 200%Z else 20%Z in
  {| base_url := lit "https://r.jina.ai/";
     api_key := k;
     session_headers := headers;
     session_served := [];
     requests_per_minute := rpm;
     min_delay := float_div_60 rpm;
     last_request_time := 0%Q |}.

(** The outside world, as tables of answers: the n-th reading of
    [time.time()], the n-th reading of [datetime.now()] as formatted, the
    outcome of the n-th GET, the list the n-th run of
    [extract_property_data_with_llm] returns, and [urlparse(url).netloc]. *)
Record world := {
  clock : nat -> Q;
  calendar : nat -> str;
  http : nat -> str -> http_outcome;
  ollama : nat -> str -> str -> list dict;
  netloc : str -> str
}.

Inductive level : Type := INFO | WARNING | ERROR.

(** The messages the modelled methods log, by the line that logs them. *)
Inductive message : Type :=
| RateLimitWait (sleep_time : Q)
| Extracting (url : str)
| ContentExtracted (n : nat)
| ContentTooSmall (n : nat)
| ExtractFailed (url : str)
| Unexpected
| RegexExtracted (n : nat)
| SimpleFailed
| ProcessingUrl (url : str)
| NoContent
| LlmFailed.

(** What a run does that can be seen from outside, oldest first. *)
Inductive event : Type :=
| Log (lvl : level) (msg : message)
| Sleep (seconds : Q)
| Get (jina_url : str)
| Llm (clean_content url : str).

(** The state a method runs in: the object, and for each table of the world
    how many answers were used. *)
Record state := {
  self : scraper;
  ticks : nat;
  stamps : nat;
  gets : nat;
  llm_runs : nat;
  trace : list event
}.

Section Run.
Variable W : world.

  (** The state monad of the methods. *)
Definition M (A : Type) : Type := state -> A * state.

Definition ret {A} (a : A) : M A := fun st => (a, st).
Definition bind {A B} (m : M A) (f : A -> M B) : M B :=
    fun st => let (a, st') := m st in f a st'.

Notation "x <- m ;; k" := (bind m (fun x => k))
    (at level 100, m at next level, right associativity).
Notation "m ;;; k" := (bind m (fun _ => k))
    (at level 100, right associativity).

Definition emit (e : event) : M unit :=
    fun st => (tt, {| self := self st; ticks := ticks st; stamps := stamps st;
                      gets := gets st; llm_runs := llm_runs st;
                      trace := trace st ++ [e] |}).

Definition log (lvl : level) (msg : message) : M unit := emit (Log lvl msg).

Definition get_self : M scraper := fun st => (self st, st).

  (** [time.time()] *)
Definition time_time : M Q :=
    fun st => (clock W (ticks st),
               {| self := self st; ticks := S (ticks st); stamps := stamps st;
                  gets := gets st; llm_runs := llm_runs st; trace := trace st |}).

  (** [datetime.now().strftime("%Y-%m-%d %H:%M:%S")] *)
Definition datetime_now : M str :=
    fun st => (calendar W (stamps st),
               {| self := self st; ticks := ticks st; stamps := S (stamps st);
                  gets := gets st; llm_runs := llm_runs st; trace := trace st |}).

  (** [self.last_request_time = t] *)
Definition set_last_request_time (t : Q) : M unit :=
    fun st =>
      let s := self st in
      (tt, {| self := {| base_url := base_url s; api_key := api_key s;
                         session_headers := session_headers s;
                         session_served := session_served s;
                         requests_per_minute := requests_per_minute s;
                         min_delay := min_delay s;
                         last_request_time := t |};
              ticks := ticks st; stamps := stamps st; gets := gets st;
              llm_runs := llm_runs st; trace := trace st |}).

  (** [self.session.get(jina_url, timeout=30)]: the answer of the network,
      which the session has then served. *)
Definition session_get (jina_url : str) : M http_outcome :=
    fun st =>
      let s := self st in
      let response := http W (gets st) jina_url in
      (response,
       {| self := {| base_url := base_url s; api_key := api_key s;
                     session_headers := session_headers s;
                     session_served := session_served s ++ [(jina_url, response)];
                     requests_per_minute := requests_per_minute s;
                     min_delay := min_delay s;
                     last_request_time := last_request_time s |};
          ticks := ticks st; stamps := stamps st;
          gets := S (gets st); llm_runs := llm_runs st;
          trace := trace st ++ [Get jina_url] |}).

  (** [x < y] on the readings of the clock *)
Definition Qlt_bool (x y : Q) : bool := negb (Qle_bool y x).

  (** [respect_rate_limit] *)
Definition respect_rate_limit : M unit :=
    current_time <- time_time ;;
    s <- get_self ;;
    let time_since_last := (current_time - last_request_time s)%Q in
    (if Qlt_bool time_since_last (min_delay s) then
       let sleep_time := (min_delay s - time_since_last)%Q in
       log INFO (RateLimitWait sleep_time) ;;;
       emit (Sleep sleep_time)
     else ret tt) ;;;
    t <- time_time ;;
    set_last_request_time t.

  (** [response.raise_for_status()] raises on a client or server error. *)
Definition raises_for_status (status : Z) : bool :=
    ((400 <=? status) && (status <? 600))%Z.

  (** [extract_clean_content] *)
Definition extract_clean_content (url : str) : M (option str) :=
    respect_rate_limit ;;;
    s <- get_self ;;
    let jina_url := base_url s ++ url in
    log INFO (Extracting url) ;;;
    response <- session_get jina_url ;;
    match response with
    | Response status clean_content =>
        if raises_for_status status then
          log ERROR (ExtractFailed url) ;;; ret None
        else if (100 <? length clean_content)%nat then
          log INFO (ContentExtracted (length clean_content)) ;;;
          ret (Some clean_content)
        else
          log WARNING (ContentTooSmall (length clean_content)) ;;;
          ret None
    | RequestException => log ERROR (ExtractFailed url) ;;; ret None
    | OtherException => log ERROR Unexpected ;;; ret None
    end.

  (** [extract_property_data_with_llm], taken whole as an answer of the
      world: it talks to the model server and returns a list of records. *)
Definition extract_property_data_with_llm (clean_content url : str)
    : M (list dict) :=
    fun st => (ollama W (llm_runs st) clean_content url,
               {| self := self st; ticks := ticks st; stamps := stamps st;
                  gets := gets st; llm_runs := S (llm_runs st);
                  trace := trace st ++ [Llm clean_content url] |}).

  (** [extract_properties_simple]: the list, and the line it logs. *)
Definition extract_properties_simple (clean_content url : str) : M (list dict) :=
    match scan_sections url (sections_of clean_content) [] with
    | Some properties =>
        log INFO (RegexExtracted (length properties)) ;;; ret properties
    | None => log ERROR SimpleFailed ;;; ret []
    end.

  (** Step 2 of [process_url]: the structuring of the content. *)
Definition structure (clean_content url : str) (use_llm : bool) : M (list dict) :=
    if use_llm then
      properties <- extract_property_data_with_llm clean_content url ;;
      match properties with
      | [] => log INFO LlmFailed ;;; extract_properties_simple clean_content url
      | _ => ret properties
      end
    else extract_properties_simple clean_content url.

  (** The body of the metadata loop for one record. *)
Definition stamp (url : str) (prop : dict) : M dict :=
    now <- datetime_now ;;
    ret (<["url_origem" := VStr url]> (<["data_coleta" := VStr now]>
          (<["site_origem" := VStr (netloc W url)]> prop))).

  (** Step 3 of [process_url]: the metadata loop. *)
Fixpoint add_metadata (url : str) (properties : list dict) : M (list dict) :=
    match properties with
    | [] => ret []
    | prop :: rest =>
        prop' <- stamp url prop ;;
        rest' <- add_metadata url rest ;;
        ret (prop' :: rest')
    end.

  (** [process_url] *)
Definition process_url (url : str) (use_llm : bool) : M (list dict) :=
    log INFO (ProcessingUrl url) ;;;
    clean_content <- extract_clean_content url ;;
    match clean_content with
    | None | Some [] => log ERROR NoContent ;;; ret []
    | Some clean_content =>
        properties <- structure clean_content url use_llm ;;
        add_metadata url properties
    end.

End Run.

End Pipeline.

(** ** The orchestrator, [script_principal.py] *)

Module Orchestrator.

(** How a child process ends: with a return code, or not at all when the
    interpreter cannot be started ([OSError]). *)
Inductive outcome : Type :=
| Exited (returncode : Z)
| NotStarted.

(** The lines the script prints. *)
Inductive line : Type :=
| Announce (step : nat)
| AllDone
| Failed (argv : list string) (returncode : Z).

Inductive event : Type :=
| Printed (l : line)
| Run (argv : list string).

(** What leaves the [try] block. *)
Inductive raised : Type :=
| CalledProcessError (argv : list string) (returncode : Z)
| OSError.

(** How the script ends: at its last line, or with a traceback. *)
Inductive ending : Type := Finished | Traceback.

Section Script.
  (** The answer of the n-th child process started, by its command line. *)
Variable child : nat -> list string -> outcome.

  (** Statements that may raise: the number of children started so far and
      the events so far are threaded through. *)
Definition T (A : Type) : Type := nat * list event -> (raised + A) * (nat * list event).

Definition ret {A} (a : A) : T A := fun st => (inr a, st).
Definition bind {A B} (m : T A) (f : A -> T B) : T B :=
    fun st =>
      match m st with
      | (inr a, st') => f a st'
      | (inl e, st') => (inl e, st')
      end.

Notation "m ;;; k" := (bind m (fun _ => k)) (at level 100, right associativity).

Definition print (l : line) : T unit :=
    fun st => (inr tt, (fst st, snd st ++ [Printed l])).

  (** [subprocess.run(argv, check=True)] *)
Definition subprocess_run (argv : list string) : T unit :=
    fun st =>
      let st' := (S (fst st), snd st ++ [Run argv]) in
      match child (fst st) argv with
      | Exited 0 => (inr tt, st')
      | Exited returncode => (inl (CalledProcessError argv returncode), st')
      | NotStarted => (inl OSError, st')
      end.

Definition inserir : list string := ["python"; "inserir_dados_mysql.py"]%string.
Definition eliminar : list string := ["python"; "eliminar_duplicatas.py"]%string.

  (** The body of the [try]. *)
Definition try_block : T unit :=
    print (Announce 1) ;;;
    subprocess_run inserir ;;;
    print (Announce 2) ;;;
    subprocess_run eliminar ;;;
    print (Announce 3) ;;;
    subprocess_run inserir ;;;
    print AllDone.

  (** The script: the [try] with its one [except] clause. *)
Definition script_principal : list event * ending :=
    match try_block (O, []) with
    | (inr _, (_, out)) => (out, Finished)
    | (inl (CalledProcessError argv returncode), (_, out)) =>
        (out ++ [Printed (Failed argv returncode)], Finished)
    | (inl OSError, (_, out)) => (out, Traceback)
    end.

  (** The command lines of the children started, in order. *)
Fixpoint invocations (out : list event) : list (list string) :=
    match out with
    | [] => []
    | Run argv :: out' => argv :: invocations out'
    | Printed _ :: out' => invocations out'
    end.
End Script.

(** The fixed sequence of steps. *)
Definition plan : list (list string) := [inserir; eliminar; inserir].

(** A child that passes the check of [check=True]. *)
Definition succeeded (o : outcome) : bool :=
  match o with
  | Exited 0 => true
  | _ => false
  end.

End Orchestrator.

(** ** The dataframe scripts *)

Module Frames.

Section Tables.
  (** The values of the cells, compared as [drop_duplicates] compares them. *)
Context {cell : Type} `{EqDecision cell}.

  (** A table, and a dataframe read from one: the column names and the rows,
      in order. *)
Record frame := {
    columns : list string;
    rows : list (list cell)
  }.

  (** A database: its tables by name. *)
Definition database := gmap string frame.

  (** [pd.read_sql(name, con)]: [None] when there is no such table. *)
Definition read_sql (name : string) (con : database) : option frame := con !! name.

  (** [df.to_sql(name, con, if_exists='replace', index=False)] *)
Definition to_sql (df : frame) (name : string) (con : database) : database :=
    <[name := df]> con.

Definition position (name : string) (cols : list string) : option nat :=
    fst <$> list_find (fun c => c = name) cols.

  (** The cells of a row under the columns of [subset]. *)
Definition row_key (cols subset : list string) (row : list cell)
    : list (option cell) :=
    map (fun name => i ← position name cols; row !! i) subset.

  (** The rows whose key has not been seen, first occurrence kept. *)
Fixpoint keep_first {K} `{EqDecision K} (key : list cell -> K) (seen : list K)
      (rs : list (list cell)) : list (list cell) :=
    match rs with
    | [] => []
    | r :: rs' =>
        if decide (key r ∈ seen) then keep_first key seen rs'
        else r :: keep_first key (key r :: seen) rs'
    end.

  (** [df.drop_duplicates(subset=subset, keep='first')]: [None] is the
      [KeyError] for a column of [subset] that the frame does not have. *)
Definition drop_duplicates (subset : list string) (df : frame) : option frame :=
    if forallb (fun name => bool_decide (name ∈ columns df)) subset then
      Some {| columns := columns df;
              rows := keep_first (row_key (columns df) subset) [] (rows df) |}
    else None.

  (** [df[df.duplicated(subset=subset, keep=False)]]: the rows whose key
      occurs more than once; [None] as above. *)
Definition duplicated_rows (subset : list string) (df : frame) : option frame :=
    if forallb (fun name => bool_decide (name ∈ columns df)) subset then
      let key := row_key (columns df) subset in
      Some {| columns := columns df;
              rows := filter (fun r => 1 < length (filter (fun r' => key r' = key r) (rows df)))%nat
                             (rows df) |}
    else None.

Definition key_columns : list string :=
    ["Área"; "Preço"; "Quartos"; "Banheiros"; "Vagas de Garagem"; "Endereço"]%string.

  (** What a script prints. *)
Inductive output : Type :=
  | Text (s : string)
  | Table (df : frame).

  (** [eliminar_duplicatas.py], on the SQLite database; [None] is an
      exception that ends the script before anything is written. *)
Definition eliminar_duplicatas (sqlite : database) : option (list output * database) :=
    df ← read_sql "apartamentos" sqlite;
    df_duplicates ← duplicated_rows key_columns df;
    let printed :=
      match rows df_duplicates with
      | [] => [Text "Não há duplicatas no conjunto de dados."]
      | _ => [Text "Duplicatas encontradas e removidas:"; Table df_duplicates]
      end in
    df_deduplicated ← drop_duplicates key_columns df;
    Some (printed ++ [Text "Duplicatas eliminadas e dados atualizados com sucesso!"],
          to_sql df_deduplicated "apartamentos" sqlite).

  (** The two databases of [inserir_dados_mysql.py]. *)
Record stores := {
    sqlite_db : database;
    mysql_db : database
  }.

  (** [inserir_dados_mysql.py]; [None] is an exception that ends the script
      before anything is written. *)
Definition inserir_dados_mysql (st : stores) : option (list output * stores) :=
    df_update ← read_sql "apartamentos" (sqlite_db st);
    Some ([Text "Dados a serem enviados para o MySQL:"; Table df_update;
           Text "Dados enviados com sucesso para o banco de dados MySQL!"],
          {| sqlite_db := sqlite_db st;
             mysql_db := to_sql df_update "apartamentos" (mysql_db st) |}).
End Tables.

Arguments frame : clear implicits.
Arguments database : clear implicits.
Arguments stores : clear implicits.
Arguments output : clear implicits.

End Frames.

(** ** Vocabulary of the properties *)

Module Props.
Import Scraper Pipeline.

(** A section has a price when the price pattern is found in it. *)
Definition has_price (section : str) : bool :=
  match Re.findall price_pattern section with
  | [] => false
  | _ => true
  end.

(** The sections that give a record: long enough, and with a price. *)
Definition qualifies (section : str) : bool :=
  (50 <=? length section)%nat && has_price section.

(** [record] is the dictionary the loop body builds from [section]. *)
Definition derived (url : str) (record : dict) (section : str) : Prop :=
  ∃ preco rest,
    Re.findall price_pattern section = preco :: rest ∧
    property_of url section preco = Some record.

(** What the specification says of [extract_address_from_section], word for
    word: [None] exactly when the pattern is not found; otherwise a record
    in which, when the match has a comma, the last part is the bairro and the
    other parts the endereco, and, when that part has a hyphen, its last part
    is the cidade. *)
Definition address_as_specified (section : str) : Prop :=
  (extract_address_from_section section = None ↔
   Re.findall address_pattern section = []) ∧
  ∀ m rest,
    Re.findall address_pattern section = m :: rest →
    ∃ record : dict,
      extract_address_from_section section = Some record ∧
      let full_address := strip m in
      let parts := map strip (Str.split COMMA full_address) in
      contains COMMA full_address = true →
      record !! "bairro" = Some (VStr (last_part parts)) ∧
      record !! "endereco" = Some (VStr (join COMMA (but_last parts))) ∧
      (contains HYPHEN (last_part parts) = true →
       record !! "cidade" =
         Some (VStr (strip (last_part (Str.split HYPHEN (last_part parts)))))).

(** The events of fetching a page, as against those of structuring it. *)
Definition fetch_event (e : Pipeline.event) : Prop :=
  match e with
  | Log _ (RateLimitWait _) | Log _ (Extracting _) | Log _ (ContentExtracted _)
  | Log _ (ContentTooSmall _) | Log _ (ExtractFailed _) | Log _ Unexpected
  | Sleep _ | Get _ => True
  | _ => False
  end.

Definition structuring_event (e : Pipeline.event) : Prop :=
  match e with
  | Llm _ _ | Log _ LlmFailed | Log _ (RegexExtracted _) | Log _ SimpleFailed => True
  | _ => False
  end.

(** What a fetch returns, read off the answer of the network. *)
Definition fetched (W : world) (st : state) (url : str) : option str :=
  match http W (gets st) (base_url (self st) ++ url) with
  | Response status text =>
      if raises_for_status status then None
      else if (100 <? length text)%nat then Some text
      else None
  | RequestException | OtherException => None
  end.

(** The keys [process_url] adds. *)
Definition metadata_keys : list string :=
  ["site_origem"; "data_coleta"; "url_origem"]%string.

(** A record carries the metadata of [url]. *)
Definition has_metadata (W : world) (url : str) (record : dict) : Prop :=
  record !! "site_origem" = Some (VStr (netloc W url)) ∧
  record !! "url_origem" = Some (VStr url) ∧
  ∃ n, record !! "data_coleta" = Some (VStr (calendar W n)).

End Props.

(** ** Sample inputs *)

Module Samples.
Import Scraper Pipeline.

Definition url : str := lit "https://example.com/venda".

(** One listing, of more than 50 characters. *)
Definition listing : str :=
  lit "Apartamento à venda com 3 quartos e 2 banheiros, 70,5 m², R$ 350.000".

(** A page of [n + 1] listings with blank lines between them. *)
Fixpoint page (n : nat) : str :=
  match n with
  | O => listing
  | S n' => listing ++ [NL; NL] ++ page n'
  end.

Definition street : str := lit "Rua A, Centro - SP".

(** A table of four rows, the third a duplicate of the first on the key
    columns, and an older copy of it on the MySQL side. *)
Definition apartamentos : Frames.frame Z :=
  {| Frames.columns :=
       ["Área"; "Preço"; "Quartos"; "Banheiros"; "Vagas de Garagem";
        "Endereço"; "Link"]%string;
     Frames.rows :=
       [[70; 350000; 3; 2; 1; 11; 1001]; [45; 200000; 1; 1; 0; 12; 1002];
        [70; 350000; 3; 2; 1; 11; 1003]; [90; 500000; 4; 3; 2; 13; 1004]]%Z |}.

Definition stale : Frames.frame Z :=
  {| Frames.columns := ["Área"; "Preço"]%string;
     Frames.rows := [[10; 1]]%Z |}.

Definition both_stores : Frames.stores Z :=
  {| Frames.sqlite_db := {["apartamentos"%string := apartamentos]};
     Frames.mysql_db := {["apartamentos"%string := stale]} |}.

(** A scraper without API key before its first request. *)
Definition fresh : state :=
  {| self := init None; ticks := 0; stamps := 0; gets := 0; llm_runs := 0;
     trace := [] |}.

(** A world whose clock shows the seconds since 1970, whose network serves
    the page of 22 listings, and whose model server finds nothing. *)
Definition quiet_world : world :=
  {| clock := fun n => inject_Z (1700000000 + Z.of_nat n);
     calendar := fun _ => lit "2024-01-01 12:00:00";
     http := fun _ _ => Response 200 (page 21);
     ollama := fun _ _ _ => [];
     netloc := fun _ => lit "example.com" |}.

(** The same with a server that answers 404. *)
Definition broken_world : world :=
  {| clock := clock quiet_world;
     calendar := calendar quiet_world;
     http := fun _ _ => Response 404 (page 21);
     ollama := ollama quiet_world;
     netloc := netloc quiet_world |}.

End Samples.

(** ** The three steps of the plan, on the two databases *)

Module Plan.
Import Frames.

Section Steps.
Context {cell : Type} `{EqDecision cell}.

(** [eliminar_duplicatas.py] as a step on the pair of databases: it works on
    the SQLite file only. *)
Definition eliminar_step (st : stores cell) : option (list (output cell) * stores cell) :=
  '(printed, sqlite) ← eliminar_duplicatas (sqlite_db st);
  Some (printed, {| sqlite_db := sqlite; mysql_db := mysql_db st |}).

(** The scripts in the order of [script_principal.py], each started only
    when the one before ended without an exception. *)
Definition run_plan (st : stores cell) : option (stores cell) :=
  '(_, st1) ← inserir_dados_mysql st;
  '(_, st2) ← eliminar_step st1;
  '(_, st3) ← inserir_dados_mysql st2;
  Some st3.

(** The table has every column that the deduplication compares. *)
Definition has_key_columns (df : frame cell) : bool :=
  forallb (fun name => bool_decide (name ∈ columns df)) key_columns.
End Steps.

End Plan.

(** ** The report of the orchestrator *)

Module Report.
Import Orchestrator.

(** The first child of the plan that does not pass its check, with its
    command line, if there is one. *)
Definition first_failure (child : nat -> list string -> outcome)
  : option (list string * outcome) :=
  if succeeded (child 0%nat inserir) then
    if succeeded (child 1%nat eliminar) then
      if succeeded (child 2%nat inserir) then None
      else Some (inserir, child 2%nat inserir)
    else Some (eliminar, child 1%nat eliminar)
  else Some (inserir, child 0%nat inserir).

End Report.

(** ** Reading a trace *)

Module Trace.
Import Pipeline.

(** The GETs and the runs of the language-model step among the events. *)
Definition is_get (e : event) : bool :=
  match e with
  | Get _ => true
  | _ => false
  end.

Definition is_llm (e : event) : bool :=
  match e with
  | Llm _ _ => true
  | _ => false
  end.

Definition is_sleep (e : event) : bool :=
  match e with
  | Sleep _ => true
  | _ => false
  end.

(** The line a fetch logs when it has a text to return. *)
Definition is_content_line (e : event) : bool :=
  match e with
  | Log _ (ContentExtracted _) => true
  | _ => false
  end.

(** How many of the events are such. *)
Definition count (f : event -> bool) (events : list event) : nat :=
  length (List.filter f events).

(** The lines of the regex parser in the log. *)
Definition is_regex_line (e : event) : bool :=
  match e with
  | Log _ (RegexExtracted _) | Log _ SimpleFailed => true
  | _ => false
  end.

End Trace.

(** ** More sample inputs *)

Module MoreSamples.
Import Scraper Pipeline.

(** A record as the language-model step may return it. *)
Definition llm_record : dict :=
  <["preco" := VStr (lit "R$ 1.000")]> (<["titulo" := VStr (lit "Casa")]> ∅).

(** A world whose network serves a page of three listings and whose model
    server finds one record. *)
Definition helpful_world : world :=
  {| clock := clock Samples.quiet_world;
     calendar := calendar Samples.quiet_world;
     http := fun _ _ => Response 200 (Samples.page 2);
     ollama := fun _ _ _ => [llm_record];
     netloc := netloc Samples.quiet_world |}.

End MoreSamples.

(** ** The shape of a record *)

Module Shape.

(** The keys of a record of the regex parser. *)
Definition property_keys : gset string :=
  {[ "titulo"; "preco"; "endereco"; "bairro"; "cidade"; "area_m2"; "quartos";
     "banheiros"; "vagas"; "tipo"; "condominio"; "caracteristicas";
     "link" ]}%string.

(** The keys of a record of [extract_address_from_section]. *)
Definition address_keys : gset string :=
  {[ "endereco"; "bairro"; "cidade" ]}%string.

(** [None] or a string. *)
Definition none_or_str (v : option pyval) : Prop :=
  v = Some VNone ∨ ∃ s, v = Some (VStr s).

(** [None] or an integer that is not negative. *)
Definition none_or_count (v : option pyval) : Prop :=
  v = Some VNone ∨ ∃ z, (0 <= z)%Z ∧ v = Some (VInt z).

(** [None] or a float read from a numeral without comma. *)
Definition none_or_float (v : option pyval) : Prop :=
  v = Some VNone ∨ ∃ r, contains Scraper.COMMA r = false ∧ v = Some (VFloat r).

(** What the loop body never touches after the dictionary literal. *)
Definition fixed_fields (url titulo preco : str) (d : dict) : Prop :=
  dom d = property_keys ∧
  d !! "titulo" = Some (VStr titulo) ∧
  d !! "preco" = Some (VStr preco) ∧
  d !! "vagas" = Some VNone ∧
  d !! "tipo" = Some VNone ∧
  d !! "condominio" = Some VNone ∧
  d !! "caracteristicas" = Some (VList []) ∧
  d !! "link" = Some (VStr url).

(** The fields it fills, by their types. *)
Definition typed_fields (d : dict) : Prop :=
  none_or_str (d !! "endereco") ∧
  none_or_str (d !! "bairro") ∧
  none_or_str (d !! "cidade") ∧
  none_or_count (d !! "quartos") ∧
  none_or_count (d !! "banheiros") ∧
  none_or_float (d !! "area_m2").

End Shape.

(** ** [process_multiple_urls] *)

Module Batch.
Import Pipeline.

(** The lines [process_multiple_urls] logs itself. *)
Inductive line : Type :=
| Starting (n : nat)
| Visiting (i n : nat) (url : str)
| Found (n : nat)
| Total (n : nat).

(** What a run over several URLs does, oldest first: its own lines, its
    pauses, and the events of the calls of [process_url]. *)
Inductive batch_event : Type :=
| Inner (e : event)
| Line (l : line)
| Pause (seconds : Q).

(** The state of a run: the state of the scraper, the number of random
    draws made, and the journal. *)
Record batch_state := {
  inner : state;
  draws : nat;
  journal : list batch_event
}.

Section Run.
Variable W : world.

(** The n-th value of [random.uniform(1, 3)]. *)
Variable uniform : nat -> Q.

Definition say (l : line) (b : batch_state) : batch_state :=
  {| inner := inner b; draws := draws b; journal := journal b ++ [Line l] |}.

(** [self.process_url(url, use_llm)], its events copied to the journal. *)
Definition call_process_url (url : str) (use_llm : bool) (b : batch_state)
  : list dict * batch_state :=
  let (properties, st') := process_url W url use_llm (inner b) in
  (properties,
   {| inner := st'; draws := draws b;
      journal := journal b
                 ++ map Inner (drop (length (trace (inner b))) (trace st')) |}).

(** [time.sleep(random.uniform(1, 3))] *)
Definition pause (b : batch_state) : batch_state :=
  {| inner := inner b; draws := S (draws b);
     journal := journal b ++ [Pause (uniform (draws b))] |}.

(** The loop [for i, url in enumerate(urls, 1)], from the i-th URL on; [n]
    is [len(urls)]. *)
Fixpoint visit (n i : nat) (urls : list str) (use_llm : bool)
    (all_properties : list dict) (b : batch_state) : list dict * batch_state :=
  match urls with
  | [] => (all_properties, b)
  | url :: rest =>
      let b := say (Visiting i n url) b in
      let (properties, b) := call_process_url url use_llm b in
      let all_properties := all_properties ++ properties in
      let b := say (Found (length properties)) b in
      let b := if (i <? n)%nat then pause b else b in
      visit n (S i) rest use_llm all_properties b
  end.

(** [process_multiple_urls] *)
Definition process_multiple_urls (urls : list str) (use_llm : bool)
    (b : batch_state) : list dict * batch_state :=
  let b := say (Starting (length urls)) b in
  let (all_properties, b) := visit (length urls) 1 urls use_llm [] b in
  (all_properties, say (Total (length all_properties)) b).
End Run.

(** The pauses of a journal, and the counts of its lines [Found]. *)
Fixpoint pauses (j : list batch_event) : list Q :=
  match j with
  | [] => []
  | Pause seconds :: j' => seconds :: pauses j'
  | _ :: j' => pauses j'
  end.

Fixpoint found_counts (j : list batch_event) : list nat :=
  match j with
  | [] => []
  | Line (Found n) :: j' => n :: found_counts j'
  | _ :: j' => found_counts j'
  end.

End Batch.

(** ** [clean_address_fields] *)

Module Cleaning.
Import Scraper.

Section Clean.
(** The truth value of [float(r)]. *)
Variable float_truthy : str -> bool.

(** The truth value of a Python value. *)
Definition truth (v : pyval) : bool :=
  match v with
  | VNone => false
  | VBool b => b
  | VInt z => negb (z =? 0)%Z
  | VFloat r => float_truthy r
  | VStr s => match s with [] => false | _ => true end
  | VList l => match l with [] => false | _ => true end
  | VDict kv => match kv with [] => false | _ => true end
  end.

(** [c in address] for a one-character string [c], which is the key [k] of a
    dictionary: a substring test on a string, a membership test on a list,
    a key test on a dictionary; [None] is the [TypeError] for a value that
    is not a container. *)
Definition has (c : char) (k : string) (address : pyval) : option bool :=
  match address with
  | VStr s => Some (contains c s)
  | VList l =>
      Some (existsb (fun v => match v with
                              | VStr [x] => x =? c
                              | _ => false
                              end) l)
  | VDict kv => Some (existsb (fun p => String.eqb (fst p) k) kv)
  | VNone | VBool _ | VInt _ | VFloat _ => None
  end.

(** The body of one of the two [if]s once its test on the field has passed:
    [None] is an exception ([TypeError] of [in], [AttributeError] of
    [split]), [Some None] is no assignment, [Some (Some (last, others))] the
    last part and the other parts rejoined. *)
Definition split_off (c : char) (k : string) (address : pyval)
  : option (option (str * str)) :=
  match has c k address with
  | None => None
  | Some false => Some None
  | Some true =>
      match address with
      | VStr s =>
          let parts := map strip (Str.split c s) in
          if (1 <? length parts)%nat
          then Some (Some (last_part parts, join c (but_last parts)))
          else Some None
      | _ => None
      end
  end.

(** One of the two [if]s: the field [field] is filled from the address when
    it is empty. *)
Definition fill (field : string) (c : char) (k : string) (address : pyval)
    (property_data : dict) : option dict :=
  if truth (get property_data field) then Some property_data
  else
    match split_off c k address with
    | None => None
    | Some None => Some property_data
    | Some (Some (last, others)) =>
        Some (<["endereco" := VStr others]> (<[field := VStr last]> property_data))
    end.

(** [clean_address_fields]: the dictionary after the call, [None] when the
    call raises. *)
Definition clean_address_fields (property_data : dict) : option dict :=
  match property_data !! "endereco" with
  | None => Some property_data
  | Some address =>
      if truth address then
        match fill "bairro" COMMA "," address property_data with
        | None => None
        | Some property_data => fill "cidade" HYPHEN "-" address property_data
        end
      else Some property_data
  end.
End Clean.

(** The stripped parts of an address. *)
Definition parts (c : char) (address : str) : list str :=
  map strip (Str.split c address).

End Cleaning.

(** A record as a language model may return it: the bairro and the cidade
    still in the endereco. *)
Module CleaningSamples.
Import Scraper.

Definition raw : dict :=
  {[ "endereco" := VStr (lit "Rua das Flores, 120, Centro - Curitiba");
     "bairro" := VNone;
     "preco" := VStr (lit "R$ 450.000") ]}.

Definition filled : dict :=
  {[ "endereco" := VStr (lit "Rua das Flores, 120");
     "bairro" := VStr (lit "Centro");
     "cidade" := VStr (lit "Curitiba") ]}.

Definition nonzero (r : str) : bool := true.

End CleaningSamples.

(** ** The columns of the CSV file and the URLs typed by the user *)

Module Csv.

Definition priority_cols : list string :=
  ["titulo"; "preco"; "endereco"; "bairro"; "cidade"; "area_m2"; "quartos";
   "banheiros"; "vagas"; "tipo"; "condominio"]%string.

(** [[col for col in priority_cols if col in df.columns]] *)
Definition existing_priority (columns : list string) : list string :=
  filter (fun col => col ∈ columns) priority_cols.

(** [[col for col in df.columns
      if col not in existing_priority and col != 'descricao']] *)
Definition other_cols (columns : list string) : list string :=
  filter (fun col => (col ∉ existing_priority columns) ∧ (col ≠ "descricao"%string))
         columns.

(** The columns that [save_to_csv] writes, from the columns of the frame:
    [existing_priority + other_cols]. *)
Definition csv_columns (columns : list string) : list string :=
  existing_priority columns ++ other_cols columns.

End Csv.

Module Main.
Import Scraper.

Section Validate.
(** [urlparse(url).netloc]; [None] when [urlparse] raises. *)
Variable urlparse_netloc : str -> option str.

(** [[url.strip() for url in urls_input.split(',') if url.strip()]] *)
Definition typed_urls (urls_input : str) : list str :=
  map strip
      (List.filter (fun url => match strip url with [] => false | _ => true end)
                   (Str.split COMMA urls_input)).

(** [if not url.startswith(('http://', 'https://')): url = 'https://' + url] *)
Definition with_scheme (url : str) : str :=
  if startswith (lit "http://") url || startswith (lit "https://") url
  then url
  else lit "https://" ++ url.

(** What the validation does with one URL. *)
Inductive verdict : Type :=
  | Valid (url : str)
  | Invalid (url : str).

Definition check (url : str) : verdict :=
  let url := with_scheme url in
  match urlparse_netloc url with
  | Some (_ :: _) => Valid url
  | Some [] => Invalid url
  | None => Invalid url
  end.

(** The loop over [urls]: the list [valid_urls] and the URLs printed as
    invalid, both in order. *)
Fixpoint validate (urls : list str) : list str * list str :=
  match urls with
  | [] => ([], [])
  | url :: urls' =>
      let (valid_urls, printed) := validate urls' in
      match check url with
      | Valid url => (url :: valid_urls, printed)
      | Invalid url => (valid_urls, url :: printed)
      end
  end.

Definition valid_urls (urls_input : str) : list str :=
  fst (validate (typed_urls urls_input)).

Definition invalid_urls (urls_input : str) : list str :=
  snd (validate (typed_urls urls_input)).
End Validate.

End Main.

(** ** What a pattern matches *)

Module Lang.
Import Re.

(** The texts a pattern matches, whatever follows them. *)
Fixpoint lang (r : regex) (t : str) : Prop :=
  match r with
  | Eps => t = []
  | Chr p => ∃ x, t = [x] ∧ p x = true
  | Seq r1 r2 => ∃ t1 t2, t = t1 ++ t2 ∧ lang r1 t1 ∧ lang r2 t2
  | Alt r1 r2 => lang r1 t ∨ lang r2 t
  | Opt r1 => lang r1 t ∨ t = []
  | Star p => forallb p t = true
  | Group r1 => lang r1 t
  end.

(** The patterns without a group. *)
Fixpoint groupless (r : regex) : bool :=
  match r with
  | Eps | Chr _ | Star _ => true
  | Seq r1 r2 | Alt r1 r2 => groupless r1 && groupless r2
  | Opt r1 => groupless r1
  | Group _ => false
  end.

(** The shape of a price: R$ in either case, blanks, a run of digits, points
    and commas that is not empty, and perhaps blanks and the word mil in any
    case. *)
Definition price_text (preco : str) : Prop :=
  ∃ c blanks number unit,
    preco = c :: Scraper.DOLLAR :: blanks ++ number ++ unit ∧
    (c = 82 ∨ c = 114) ∧
    forallb Str.is_space blanks = true ∧
    number ≠ [] ∧
    forallb (any_of [Str.is_decimal; one Scraper.DOT; one Scraper.COMMA]) number
      = true ∧
    (unit = [] ∨
     ∃ blanks' m i l,
       unit = blanks' ++ [m; i; l] ∧
       forallb Str.is_space blanks' = true ∧
       (m = 77 ∨ m = 109) ∧
       (i = 73 ∨ i = 105 ∨ i = 304 ∨ i = 305) ∧
       (l = 76 ∨ l = 108)).

(** No match of the pattern starts inside [section], in a text that goes on
    with [rest]. *)
Definition unbroken (r : regex) (section rest : str) : Prop :=
  ∀ before t after,
    section ++ rest = before ++ t ++ after →
    (length before < length section)%nat →
    ¬ lang r t.

(** No match of the pattern that starts where [b] starts, in a text that
    goes on with [rest], is longer than [b]. *)
Definition longest (r : regex) (b rest : str) : Prop :=
  ∀ t after, b ++ rest = t ++ after → lang r t → (length t ≤ length b)%nat.

(** [text] cut into [sections] at the matches [breaks] of the pattern, as
    [re.split] does for a pattern without a group: section, break, section,
    ..., section; each break is the longest match at its place, and no match
    starts before it in its section, nor in the last section. *)
Fixpoint cut_at (r : regex) (sections breaks : list str) (text : str) : Prop :=
  match sections with
  | [] => False
  | section :: sections' =>
      match breaks with
      | [] => sections' = [] ∧ text = section ∧ unbroken r section []
      | b :: breaks' =>
          ∃ rest,
            text = section ++ b ++ rest ∧
            unbroken r section (b ++ rest) ∧
            lang r b ∧ longest r b rest ∧
            cut_at r sections' breaks' rest
      end
  end.

End Lang.

(** ** The pass over the sections *)

Module Pass.
Import Scraper Props.

(** The conversion of a count raises in the section: it qualifies, and the
    body of the loop has no record for it. *)
Definition raises (url section : str) : Prop :=
  qualifies section = true ∧
  ∀ preco more,
    Re.findall price_pattern section = preco :: more →
    property_of url section preco = None.

(** What the specification says of [extract_properties_simple], word for
    word: every section of the text is examined, once and in order; every
    record comes from one section, which has at least 50 characters and a
    price. *)
Definition single_pass_as_specified (clean_content url : str) : Prop :=
  let sections := sections_of clean_content in
  visited url sections [] = sections ∧
  ∃ picked,
    Forall2 (derived url) (simple_properties clean_content url) picked ∧
    picked `sublist_of` sections ∧
    Forall (fun section => qualifies section = true) picked.

End Pass.

(** ** The clock of the rate limit *)

Module Clock.
Import Pipeline.

(** The events a run adds to the trace. *)
Definition added_events (st st' : state) : list event :=
  drop (length (trace st)) (trace st').

(** What [respect_rate_limit] needs of the outside: between its two readings
    the clock does not run backwards, and a sleep between them takes at
    least as long as asked. *)
Definition keeps_time (W : world) (st : state) : Prop :=
  let before := clock W (ticks st) in
  let after := clock W (S (ticks st)) in
  (before <= after)%Q ∧
  ∀ seconds,
    Sleep seconds ∈ added_events st (snd (respect_rate_limit W st)) →
    (before + seconds <= after)%Q.

(** A world whose clock runs two seconds from one reading to the next. *)
Definition steady_world : world :=
  {| clock := fun n => inject_Z (1700000000 + 2 * Z.of_nat n);
     calendar := calendar Samples.quiet_world;
     http := http Samples.quiet_world;
     ollama := ollama Samples.quiet_world;
     netloc := netloc Samples.quiet_world |}.

(** A scraper without API key after its first pass through the rate limit
    in that world. *)
Definition after_first : state :=
  snd (respect_rate_limit steady_world Samples.fresh).

End Clock.

Import Scraper Pipeline Props.

(** ** The section loop *)

Lemma qualifies_true section :
  qualifies section = true ↔
  (50 ≤ length section)%nat ∧ Re.findall price_pattern section ≠ [].
Proof.
  unfold qualifies, has_price. rewrite andb_true_iff, Nat.leb_le.
  destruct (Re.findall price_pattern section); split; intros [? ?]; split;
    auto; congruence.
Qed.

(** The loop, one section at a time. *)
Lemma scan_sections_cons url section rest acc :
  scan_sections url (section :: rest) acc =
  if (length section <? 50)%nat then scan_sections url rest acc
  else
    match Re.findall price_pattern section with
    | [] => scan_sections url rest acc
    | preco :: _ =>
        match property_of url section preco with
        | None => None
        | Some property_data =>
            if (20 <=? length (acc ++ [property_data]))%nat
            then Some (acc ++ [property_data])
            else scan_sections url rest (acc ++ [property_data])
        end
    end.
Proof. reflexivity. Qed.

(** The loop appends to what it was given one record for each section of a
    prefix of the qualifying sections. *)
Lemma scan_sections_spec url sections :
  ∀ acc res,
    scan_sections url sections acc = Some res →
    ∃ new picked,
      res = acc ++ new ∧
      Forall2 (derived url) new picked ∧
      picked `prefix_of` List.filter qualifies sections.
Proof.
  induction sections as [|section rest IH]; intros acc res Hscan.
  - inversion Hscan; subst. exists [], []. rewrite app_nil_r.
    repeat split; [constructor | apply prefix_nil].
  - rewrite scan_sections_cons in Hscan.
    cbn [List.filter]. unfold qualifies at 1, has_price.
    destruct (Nat.ltb_spec (length section) 50) as [Hshort|Hlong].
    + replace (50 <=? length section)%nat with false
        by (symmetry; apply Nat.leb_gt; lia).
      cbn [andb]. eauto.
    + replace (50 <=? length section)%nat with true
        by (symmetry; apply Nat.leb_le; lia).
      cbn [andb]. destruct (Re.findall price_pattern section) as [|preco more] eqn:Hprice.
      * eauto.
      * destruct (property_of url section preco) as [property_data|] eqn:Hprop;
          [|discriminate].
        assert (Hd : derived url property_data section) by (exists preco, more; auto).
        destruct (20 <=? length (acc ++ [property_data]))%nat.
        -- inversion Hscan; subst. exists [property_data], [section].
           repeat split; [repeat constructor; exact Hd|].
           apply prefix_cons, prefix_nil.
        -- destruct (IH _ _ Hscan) as (new & picked & -> & Hnew & Hpre).
           exists (property_data :: new), (section :: picked).
           rewrite <- app_assoc. repeat split; [constructor; auto|].
           apply prefix_cons, Hpre.
Qed.

(** The list is never longer than the limit, when the loop starts below it. *)
Lemma scan_sections_length url sections :
  ∀ acc res,
    scan_sections url sections acc = Some res →
    (length acc < 20)%nat → (length res ≤ 20)%nat.
Proof.
  induction sections as [|section rest IH]; intros acc res Hscan Hacc.
  - inversion Hscan; subst. lia.
  - rewrite scan_sections_cons in Hscan.
    destruct (length section <? 50)%nat; [eauto|].
    destruct (Re.findall price_pattern section) as [|preco more]; [eauto|].
    destruct (property_of url section preco) as [property_data|]; [|discriminate].
    destruct (Nat.leb_spec 20 (length (acc ++ [property_data]))) as [Hfull|Hroom].
    + inversion Hscan; subst. rewrite length_app in *. simpl in *. lia.
    + eapply IH; eauto.
Qed.

(** Once the list has reached the limit inside [pre], what follows [pre] is
    not looked at. *)
Lemma scan_sections_stops url pre post :
  ∀ acc res,
    scan_sections url pre acc = Some res →
    (length acc < 20)%nat → length res = 20%nat →
    scan_sections url (pre ++ post) acc = Some res.
Proof.
  induction pre as [|section rest IH]; intros acc res Hscan Hacc Hlen.
  - inversion Hscan; subst. lia.
  - rewrite scan_sections_cons in Hscan.
    change ((section :: rest) ++ post) with (section :: (rest ++ post)).
    rewrite scan_sections_cons.
    destruct (length section <? 50)%nat; [eauto|].
    destruct (Re.findall price_pattern section) as [|preco more]; [eauto|].
    destruct (property_of url section preco) as [property_data|]; [|discriminate].
    destruct (Nat.leb_spec 20 (length (acc ++ [property_data]))) as [Hfull|Hroom].
    + exact Hscan.
    + eapply IH; eauto.
Qed.

(** The method returns [simple_properties] and only adds a line to the log. *)
Lemma extract_properties_simple_value clean_content url st :
  fst (extract_properties_simple clean_content url st)
  = simple_properties clean_content url.
Proof.
  unfold extract_properties_simple, simple_properties.
  destruct (scan_sections url (sections_of clean_content) []); reflexivity.
Qed.

(** C8. The list [extract_properties_simple] returns has at most 20 records,
    and the scan stops at the twentieth: when a first part [pre] of the
    sections already gives 20 records, these are the result, whatever the
    sections [post] after it hold. *)
Theorem extract_properties_simple_at_most_20 clean_content url st :
  (length (fst (extract_properties_simple clean_content url st)) ≤ 20)%nat ∧
  ∀ pre post records,
    sections_of clean_content = pre ++ post →
    scan_sections url pre [] = Some records →
    length records = 20%nat →
    fst (extract_properties_simple clean_content url st) = records.
Proof.
  rewrite extract_properties_simple_value. unfold simple_properties. split.
  - destruct (scan_sections url (sections_of clean_content) []) as [res|] eqn:Hscan.
    + eapply scan_sections_length; [exact Hscan|simpl; lia].
    + simpl. lia.
  - intros pre post records Hsplit Hpre Hlen. rewrite Hsplit.
    rewrite (scan_sections_stops url pre post [] records Hpre); [reflexivity| |exact Hlen].
    simpl. lia.
Qed.


(** A page of 22 listings: the first 20 sections fill the list, the last two
    have prices too and are left out. *)
Lemma extract_properties_simple_at_most_20_witness :
  let sections := sections_of (Samples.page 21) in
  length sections = 22%nat ∧
  forallb qualifies (drop 20 sections) = true ∧
  ∃ records,
    scan_sections Samples.url (take 20 sections) [] = Some records ∧
    fst (extract_properties_simple (Samples.page 21) Samples.url Samples.fresh)
    = records.
Proof.
  intros sections.
  assert (Hlen : length <$> scan_sections Samples.url (take 20 sections) []
                 = Some 20%nat) by (vm_compute; reflexivity).
  destruct (scan_sections Samples.url (take 20 sections) [])
    as [records|] eqn:Hpre; [|discriminate].
  split; [vm_compute; reflexivity|].
  split; [vm_compute; reflexivity|].
  exists records. split; [reflexivity|].
  apply (proj2 (extract_properties_simple_at_most_20
                  (Samples.page 21) Samples.url Samples.fresh)
               (take 20 sections) (drop 20 sections)).
  - symmetry. apply take_drop.
  - exact Hpre.
  - simpl in Hlen. congruence.
Defined.

(** ** Addresses *)

Lemma split_not_nil c s : Str.split c s ≠ [].
Proof.
  destruct s as [|x s]; simpl; [discriminate|].
  destruct (x =? c); [discriminate|]. destruct (Str.split c s); discriminate.
Qed.

(** A text has more than one part exactly when it has the separator. *)
Lemma split_more_than_one c s :
  (1 <? length (Str.split c s))%nat = contains c s.
Proof.
  induction s as [|x s IH]; [reflexivity|].
  unfold contains in *. cbn [Str.split existsb].
  rewrite (N.eqb_sym c x). destruct (x =? c) eqn:Hx; cbn [orb].
  - pose proof (split_not_nil c s) as Hne.
    destruct (Str.split c s); [congruence|reflexivity].
  - rewrite <- IH. pose proof (split_not_nil c s) as Hne.
    destruct (Str.split c s); [congruence|reflexivity].
Qed.

(** The record of an address, when the pattern is found. *)
Lemma extract_address_from_section_found section m rest :
  Re.findall address_pattern section = m :: rest →
  extract_address_from_section section =
  let full_address := strip m in
  let result : dict :=
    <["cidade" := VNone]> (<["bairro" := VNone]>
      (<["endereco" := VStr full_address]> ∅)) in
  let parts := map strip (Str.split COMMA full_address) in
  if contains COMMA full_address then
    let bairro := last_part parts in
    let result := <["bairro" := VStr bairro]> result in
    let result := <["endereco" := VStr (join COMMA (but_last parts))]> result in
    if contains HYPHEN bairro then
      let city_parts := Str.split HYPHEN bairro in
      let result := <["cidade" := VStr (strip (last_part city_parts))]> result in
      Some (<["bairro" := VStr (strip (hd [] city_parts))]> result)
    else Some result
  else Some result.
Proof.
  intros Hfound. unfold extract_address_from_section. rewrite Hfound.
  cbv zeta. rewrite length_map, split_more_than_one.
  destruct (contains COMMA (strip m)); [|reflexivity].
  destruct (contains HYPHEN _) eqn:Hhyphen; [|reflexivity].
  rewrite split_more_than_one, Hhyphen. reflexivity.
Qed.

(** C2, as amended. [extract_address_from_section] returns [None] exactly
    when the address pattern is not found.  Otherwise it returns a record
    built from the first match, stripped: when that has a comma, the parts
    before the last one, stripped and joined by commas, are the endereco; the
    last part is the bairro when it has no hyphen; when it has one, the
    bairro is its first hyphen-separated part and the cidade its last, both
    stripped. *)
Theorem extract_address_from_section_fields section :
  (extract_address_from_section section = None ↔
   Re.findall address_pattern section = []) ∧
  ∀ m rest,
    Re.findall address_pattern section = m :: rest →
    ∃ record : dict,
      extract_address_from_section section = Some record ∧
      let full_address := strip m in
      let parts := map strip (Str.split COMMA full_address) in
      let last := last_part parts in
      contains COMMA full_address = true →
      record !! "endereco" = Some (VStr (join COMMA (but_last parts))) ∧
      (contains HYPHEN last = false →
       record !! "bairro" = Some (VStr last)) ∧
      (contains HYPHEN last = true →
       record !! "bairro" = Some (VStr (strip (hd [] (Str.split HYPHEN last)))) ∧
       record !! "cidade" = Some (VStr (strip (last_part (Str.split HYPHEN last))))).
Proof.
  split.
  - destruct (Re.findall address_pattern section) as [|m rest] eqn:Hfound.
    + unfold extract_address_from_section. rewrite Hfound. tauto.
    + rewrite (extract_address_from_section_found _ _ _ Hfound). cbv zeta.
      split; [|discriminate].
      destruct (contains COMMA (strip m)); [|discriminate].
      destruct (contains HYPHEN _); discriminate.
  - intros m rest Hfound.
    rewrite (extract_address_from_section_found _ _ _ Hfound). cbv zeta.
    destruct (contains COMMA (strip m)) eqn:Hcomma.
    + destruct (contains HYPHEN _) eqn:Hhyphen; eexists; (split; [reflexivity|]);
        intros _; (split; [by simplify_map_eq|]);
        (split; [intros ?; try discriminate; by simplify_map_eq|]);
        intros ?; try discriminate; split; by simplify_map_eq.
    + eexists. split; [reflexivity|]. discriminate.
Qed.

(** The match of the sample street is the whole text. *)
Lemma street_found :
  Re.findall address_pattern Samples.street = [Samples.street].
Proof. vm_compute. reflexivity. Qed.

(** On [Rua A, Centro - SP] the last part after a comma is [Centro - SP], and
    the bairro of the record is [Centro]. *)
Lemma extract_address_from_section_fields_witness :
  ∃ record : dict,
    extract_address_from_section Samples.street = Some record ∧
    record !! "endereco" = Some (VStr (lit "Rua A")) ∧
    record !! "bairro" = Some (VStr (lit "Centro")) ∧
    record !! "cidade" = Some (VStr (lit "SP")).
Proof.
  destruct (proj2 (extract_address_from_section_fields Samples.street)
              Samples.street [] street_found)
    as (record & Hrecord & Hfields).
  exists record. split; [exact Hrecord|].
  destruct Hfields as (Hendereco & _ & Hhyphen); [vm_compute; reflexivity|].
  destruct Hhyphen as [Hbairro Hcidade]; [vm_compute; reflexivity|].
  rewrite Hendereco, Hbairro, Hcidade. vm_compute. auto.
Defined.

(** C2, as the specification has it, fails on [Rua A, Centro - SP]: the last
    part after a comma is [Centro - SP], the bairro of the record is
    [Centro]. *)
Lemma address_as_specified_fails : ¬ address_as_specified Samples.street.
Proof.
  intros [_ Hspec].
  destruct (Hspec _ _ street_found) as (record & Hrecord & Hfields).
  assert (Hcode : extract_address_from_section Samples.street ≫= (.!! "bairro")
                  = Some (VStr (lit "Centro"))) by (vm_compute; reflexivity).
  rewrite Hrecord in Hcode. cbn in Hcode.
  destruct Hfields as [Hbairro _]; [vm_compute; reflexivity|].
  rewrite Hcode in Hbairro. vm_compute in Hbairro. discriminate.
Qed.

(** ** Fetching *)

(** Unfolds the monad of the methods. *)
Ltac run :=
  unfold extract_clean_content, respect_rate_limit, extract_properties_simple,
    extract_property_data_with_llm, stamp,
    session_get, set_last_request_time, datetime_now, time_time, get_self,
    log, emit, bind, ret;
  cbn [fst snd self ticks stamps gets llm_runs trace
       base_url api_key session_headers session_served requests_per_minute
       min_delay last_request_time].

(** The state after [respect_rate_limit]: two readings of the clock, the
    second one kept, and perhaps a sleep. *)
Lemma respect_rate_limit_effect W st :
  ∃ added,
    respect_rate_limit W st =
    (tt, {| self := {| base_url := base_url (self st);
                       api_key := api_key (self st);
                       session_headers := session_headers (self st);
                       session_served := session_served (self st);
                       requests_per_minute := requests_per_minute (self st);
                       min_delay := min_delay (self st);
                       last_request_time := clock W (S (ticks st)) |};
            ticks := S (S (ticks st)); stamps := stamps st; gets := gets st;
            llm_runs := llm_runs st; trace := trace st ++ added |}) ∧
    Forall fetch_event added.
Proof.
  run. destruct (Qlt_bool _ _).
  - eexists. split; [rewrite <- app_assoc; reflexivity|].
    repeat constructor.
  - exists []. rewrite app_nil_r. split; [reflexivity|constructor].
Qed.

(** The state after [extract_clean_content]: the result is read off the
    answer to the one GET, the object has a new [last_request_time], and the
    events added are those of fetching, the GET among them. *)
Lemma extract_clean_content_effect W url st :
  ∃ added,
    extract_clean_content W url st =
    (fetched W st url,
     {| self := {| base_url := base_url (self st);
                   api_key := api_key (self st);
                   session_headers := session_headers (self st);
                   session_served :=
                     session_served (self st)
                     ++ [(base_url (self st) ++ url,
                          http W (gets st) (base_url (self st) ++ url))];
                   requests_per_minute := requests_per_minute (self st);
                   min_delay := min_delay (self st);
                   last_request_time := clock W (S (ticks st)) |};
        ticks := S (S (ticks st)); stamps := stamps st; gets := S (gets st);
        llm_runs := llm_runs st; trace := trace st ++ added |}) ∧
    Forall fetch_event added ∧
    Get (base_url (self st) ++ url) ∈ added.
Proof.
  destruct (respect_rate_limit_effect W st) as (waited & Hwait & Hwaited).
  unfold extract_clean_content, bind at 1. rewrite Hwait. unfold fetched.
  run.
  assert (Hin : ∀ e, Forall fetch_event (waited ++ [Log INFO (Extracting url);
                       Get (base_url (self st) ++ url); e]) ↔ fetch_event e).
  { intros e. rewrite Forall_app. split.
    - intros [_ H]. inversion H as [|? ? _ H']. inversion H' as [|? ? _ H''].
      inversion H''. assumption.
    - intros He. split; [assumption|]. repeat constructor. assumption. }
  assert (Hget : ∀ e, Get (base_url (self st) ++ url)
                      ∈ waited ++ [Log INFO (Extracting url);
                                   Get (base_url (self st) ++ url); e]).
  { intros e. apply elem_of_app. right. apply list_elem_of_In. simpl. auto. }
  assert (Hdone : ∀ (r : option str) e tr,
            fetch_event e →
            tr = (((trace st ++ waited) ++ [Log INFO (Extracting url)])
                  ++ [Get (base_url (self st) ++ url)]) ++ [e] →
            ∃ added,
              (r, {| self := {| base_url := base_url (self st);
                                api_key := api_key (self st);
                                session_headers := session_headers (self st);
                                session_served :=
                                  session_served (self st)
                                  ++ [(base_url (self st) ++ url,
                                       http W (gets st) (base_url (self st) ++ url))];
                                requests_per_minute := requests_per_minute (self st);
                                min_delay := min_delay (self st);
                                last_request_time := clock W (S (ticks st)) |};
                     ticks := S (S (ticks st)); stamps := stamps st;
                     gets := S (gets st); llm_runs := llm_runs st; trace := tr |})
              = (r, {| self := {| base_url := base_url (self st);
                                  api_key := api_key (self st);
                                  session_headers := session_headers (self st);
                                  session_served :=
                                    session_served (self st)
                                    ++ [(base_url (self st) ++ url,
                                         http W (gets st) (base_url (self st) ++ url))];
                                  requests_per_minute := requests_per_minute (self st);
                                  min_delay := min_delay (self st);
                                  last_request_time := clock W (S (ticks st)) |};
                       ticks := S (S (ticks st)); stamps := stamps st;
                       gets := S (gets st); llm_runs := llm_runs st;
                       trace := trace st ++ added |}) ∧
              Forall fetch_event added ∧
              Get (base_url (self st) ++ url) ∈ added).
  { intros r e tr He ->.
    exists (waited ++ [Log INFO (Extracting url);
                       Get (base_url (self st) ++ url); e]).
    split; [rewrite <- !app_assoc; reflexivity|].
    split; [apply Hin, He|apply Hget]. }
  destruct (http W (gets st) (base_url (self st) ++ url)) as [status text| |].
  - destruct (raises_for_status status);
      [|destruct (100 <? length text)%nat]; run;
      eapply Hdone; try reflexivity; exact I.
  - eapply Hdone; try reflexivity; exact I.
  - eapply Hdone; try reflexivity; exact I.
Qed.

(** C9. [extract_clean_content] returns [None] or a text of more than 100
    characters: [None] when the GET raises, when the status is one that
    [raise_for_status] rejects, and when the text has at most 100
    characters; otherwise the text of the response itself. *)
Theorem extract_clean_content_result W url st :
  let result := fst (extract_clean_content W url st) in
  match result with
  | Some text => (100 < length text)%nat
  | None => True
  end ∧
  match http W (gets st) (base_url (self st) ++ url) with
  | RequestException | OtherException => result = None
  | Response status text =>
      if raises_for_status status then result = None
      else if (length text <=? 100)%nat then result = None
      else result = Some text
  end.
Proof.
  destruct (extract_clean_content_effect W url st) as (added & -> & _).
  cbn [fst]. unfold fetched.
  destruct (http W (gets st) (base_url (self st) ++ url)) as [status text| |];
    [|split; reflexivity..].
  destruct (raises_for_status status); [split; reflexivity|].
  destruct (Nat.ltb_spec 100 (length text)) as [Hlong|Hshort].
  - split; [exact Hlong|].
    replace (length text <=? 100)%nat with false
      by (symmetry; apply Nat.leb_gt; lia).
    reflexivity.
  - split; [exact I|].
    replace (length text <=? 100)%nat with true
      by (symmetry; apply Nat.leb_le; lia).
    reflexivity.
Qed.

(** C6, as amended. A call of [extract_clean_content] leaves [base_url],
    [api_key], [requests_per_minute] and [min_delay] of the object and the
    headers of its session as they were.  It changes the two other things the
    object holds: [last_request_time] becomes the second reading of the clock
    that [respect_rate_limit] takes, and the session has served one more
    exchange, the GET of [base_url + url] with its outcome. *)
Theorem extract_clean_content_frame W url st :
  let s := self st in
  let s' := self (snd (extract_clean_content W url st)) in
  base_url s' = base_url s ∧
  api_key s' = api_key s ∧
  session_headers s' = session_headers s ∧
  requests_per_minute s' = requests_per_minute s ∧
  min_delay s' = min_delay s ∧
  last_request_time s' = clock W (S (ticks st)) ∧
  session_served s'
  = session_served s
    ++ [(base_url s ++ url, http W (gets st) (base_url s ++ url))].
Proof.
  destruct (extract_clean_content_effect W url st) as (added & -> & _).
  cbn. repeat split.
Qed.

(** C6, as the specification has it, fails for a fresh scraper: its
    [last_request_time] is 0 before the call and the reading of the clock
    after it. *)
Lemma extract_clean_content_changes_self :
  self (snd (extract_clean_content Samples.quiet_world Samples.url Samples.fresh))
  ≠ self Samples.fresh.
Proof.
  intros Hsame. apply (f_equal last_request_time) in Hsame.
  vm_compute in Hsame. discriminate.
Qed.

(** ** The pipeline *)

(** [process_url], one step further. *)
Lemma process_url_unfold W url use_llm st :
  process_url W url use_llm st =
  let (clean_content, st1) :=
    extract_clean_content W url (snd (log INFO (ProcessingUrl url) st)) in
  match clean_content with
  | None | Some [] => ([], snd (log ERROR NoContent st1))
  | Some clean_content =>
      let (properties, st2) := structure W clean_content url use_llm st1 in
      add_metadata W url properties st2
  end.
Proof.
  unfold process_url, bind at 1 2. cbn [log emit snd].
  destruct (extract_clean_content W url _) as [[[|c content]|] st1]; reflexivity.
Qed.

(** The regex parser leaves one line in the log and nothing else. *)
Lemma extract_properties_simple_effect clean_content url st :
  ∃ e,
    extract_properties_simple clean_content url st =
    (simple_properties clean_content url,
     {| self := self st; ticks := ticks st; stamps := stamps st;
        gets := gets st; llm_runs := llm_runs st; trace := trace st ++ [e] |}) ∧
    structuring_event e.
Proof.
  unfold extract_properties_simple, simple_properties.
  destruct (scan_sections url (sections_of clean_content) []);
    eexists; (split; [reflexivity|exact I]).
Qed.

(** The structuring step adds events of structuring, at least one, and
    touches nothing else. *)
Lemma structure_effect W clean_content url use_llm st :
  ∃ properties st' added,
    structure W clean_content url use_llm st = (properties, st') ∧
    trace st' = trace st ++ added ∧
    Forall structuring_event added ∧ added ≠ [] ∧
    self st' = self st ∧ stamps st' = stamps st.
Proof.
  unfold structure. destruct use_llm.
  - unfold bind, extract_property_data_with_llm.
    destruct (ollama W (llm_runs st) clean_content url) as [|p ps] eqn:Hllm.
    + unfold log, emit. cbn [fst snd self ticks stamps gets llm_runs trace].
      match goal with
      | |- context [extract_properties_simple _ _ ?s] =>
          destruct (extract_properties_simple_effect clean_content url s)
            as (e & -> & He)
      end.
      do 2 eexists. exists [Llm clean_content url; Log INFO LlmFailed; e].
      split; [reflexivity|]. cbn [self ticks stamps gets llm_runs trace].
      split; [rewrite <- !app_assoc; reflexivity|].
      split; [repeat constructor; exact He|]. split; [discriminate|].
      split; reflexivity.
    + do 2 eexists. exists [Llm clean_content url].
      split; [reflexivity|]. cbn [self ticks stamps gets llm_runs trace].
      repeat split; [repeat constructor | discriminate].
  - destruct (extract_properties_simple_effect clean_content url st)
      as (e & -> & He).
    do 2 eexists. exists [e]. split; [reflexivity|].
    cbn [self ticks stamps gets llm_runs trace].
    repeat split; [repeat constructor; exact He | discriminate].
Qed.

(** The metadata loop gives back the records it was given, one for one, each
    with the three keys set and its other keys as they were; it logs
    nothing. *)
Lemma add_metadata_effect W url properties :
  ∀ st, ∃ result st',
    add_metadata W url properties st = (result, st') ∧
    trace st' = trace st ∧ self st' = self st ∧ llm_runs st' = llm_runs st ∧
    Forall (has_metadata W url) result ∧
    Forall2 (fun record prop : dict =>
               ∀ k, k ∉ metadata_keys → record !! k = prop !! k)
            result properties.
Proof.
  induction properties as [|prop rest IH]; intros st.
  - exists [], st. cbn. repeat split; constructor.
  - cbn [add_metadata]. unfold stamp, datetime_now, ret, bind. cbn beta iota.
    match goal with
    | |- context [add_metadata W url rest ?s] =>
        destruct (IH s) as (result & st' & Hrun & Htrace & Hself & Hllm & Hmeta & Hkeys)
    end.
    rewrite Hrun. do 2 eexists. split; [reflexivity|].
    cbn [self ticks stamps gets llm_runs trace] in *.
    repeat split; try assumption.
    + constructor; [|exact Hmeta].
      repeat split; [by simplify_map_eq..|].
      exists (stamps st). by simplify_map_eq.
    + constructor; [|exact Hkeys].
      intros k Hk. unfold metadata_keys in Hk.
      rewrite !lookup_insert_ne; [reflexivity|set_solver..].
Qed.

(** A fetch that returns a text returns more than 100 characters. *)
Lemma extract_clean_content_some W url st clean_content st1 :
  extract_clean_content W url st = (Some clean_content, st1) →
  (100 < length clean_content)%nat.
Proof.
  intros Hrun.
  destruct (extract_clean_content_effect W url st) as (added & Heffect & _).
  rewrite Hrun in Heffect. injection Heffect as Hvalue _.
  unfold fetched in Hvalue.
  destruct (http W (gets st) (base_url (self st) ++ url)) as [status text| |];
    try discriminate.
  destruct (raises_for_status status); [discriminate|].
  destruct (Nat.ltb_spec 100 (length text)) as [Hlong|Hshort]; [|discriminate].
  injection Hvalue as ->. exact Hlong.
Qed.

(** C3. When the fetch gives a text and the language-model step, asked with
    [use_llm] true, returns the empty list, [process_url] falls back on the
    regex parser: the structuring step is [extract_properties_simple] on the
    same text, run after the failed attempt was logged, and the result of
    [process_url] is the metadata loop over what it returns. *)
Theorem process_url_falls_back W url st clean_content st1 :
  extract_clean_content W url (snd (log INFO (ProcessingUrl url) st))
  = (Some clean_content, st1) →
  ollama W (llm_runs st1) clean_content url = [] →
  let st2 :=
    snd (log INFO LlmFailed
           (snd (extract_property_data_with_llm W clean_content url st1))) in
  structure W clean_content url true st1
  = extract_properties_simple clean_content url st2 ∧
  process_url W url true st
  = add_metadata W url
      (fst (extract_properties_simple clean_content url st2))
      (snd (extract_properties_simple clean_content url st2)).
Proof.
  intros Hfetch Hllm st2.
  assert (Hstructure : structure W clean_content url true st1
                       = extract_properties_simple clean_content url st2).
  { unfold structure, bind, extract_property_data_with_llm at 1.
    rewrite Hllm. reflexivity. }
  split; [exact Hstructure|].
  rewrite process_url_unfold, Hfetch.
  pose proof (extract_clean_content_some _ _ _ _ _ Hfetch) as Hlen.
  destruct clean_content as [|c content]; [simpl in Hlen; lia|].
  rewrite Hstructure.
  destruct (extract_properties_simple (c :: content) url st2); reflexivity.
Qed.

(** With a model server that finds nothing, the page of 22 listings goes
    through the regex parser. *)
Lemma process_url_falls_back_witness :
  ∃ st2,
    process_url Samples.quiet_world Samples.url true Samples.fresh
    = add_metadata Samples.quiet_world Samples.url
        (simple_properties (Samples.page 21) Samples.url) st2.
Proof.
  assert (Hfetch :
    extract_clean_content Samples.quiet_world Samples.url
      (snd (log INFO (ProcessingUrl Samples.url) Samples.fresh))
    = (Some (Samples.page 21),
       snd (extract_clean_content Samples.quiet_world Samples.url
              (snd (log INFO (ProcessingUrl Samples.url) Samples.fresh))))).
  { rewrite (surjective_pairing (extract_clean_content _ _ _)) at 1.
    apply f_equal2; [vm_compute; reflexivity|reflexivity]. }
  destruct (process_url_falls_back Samples.quiet_world Samples.url
              Samples.fresh (Samples.page 21) _ Hfetch eq_refl) as [_ Hrun].
  rewrite extract_properties_simple_value in Hrun. eexists. exact Hrun.
Defined.

(** No event of fetching is one of structuring. *)
Lemma fetch_not_structuring e : fetch_event e → ¬ structuring_event e.
Proof. destruct e as [lvl []| | |]; simpl; tauto. Qed.

(** C4. [process_url] scrapes, then structures.  It first fetches the text:
    the events after its opening line are those of fetching, with the GET
    among them.  When the fetch gives [None] it returns the empty list, and
    nothing of the language-model step or of the regex parser has happened.
    When the fetch gives a text, the structuring step runs on it, after the
    fetch, and every record returned is a record of that step with the site,
    the time and the source URL added. *)
Theorem process_url_pipeline W url use_llm st :
  ∃ clean_content st1 fetching,
    extract_clean_content W url (snd (log INFO (ProcessingUrl url) st))
    = (clean_content, st1) ∧
    trace st1 = trace st ++ Log INFO (ProcessingUrl url) :: fetching ∧
    Forall fetch_event fetching ∧
    Get (base_url (self st) ++ url) ∈ fetching ∧
    match clean_content with
    | None =>
        process_url W url use_llm st = ([], snd (log ERROR NoContent st1)) ∧
        llm_runs (snd (process_url W url use_llm st)) = llm_runs st ∧
        Forall (fun e => ¬ structuring_event e)
               (Log INFO (ProcessingUrl url) :: fetching ++ [Log ERROR NoContent])
    | Some text =>
        ∃ properties st2 structuring result st3,
          structure W text url use_llm st1 = (properties, st2) ∧
          trace st2 = trace st1 ++ structuring ∧
          Forall structuring_event structuring ∧ structuring ≠ [] ∧
          add_metadata W url properties st2 = (result, st3) ∧
          process_url W url use_llm st = (result, st3) ∧
          trace st3 = trace st2 ∧
          Forall (has_metadata W url) result ∧
          Forall2 (fun record prop : dict =>
                     ∀ k, k ∉ metadata_keys → record !! k = prop !! k)
                  result properties
    end.
Proof.
  rewrite process_url_unfold.
  destruct (extract_clean_content_effect W url
              (snd (log INFO (ProcessingUrl url) st)))
    as (fetching & Hfetch & Hevents & Hget).
  cbn [log emit snd self ticks stamps gets llm_runs trace] in Hfetch, Hget.
  unfold log at 1 2, emit at 1 2. cbn [snd].
  destruct (extract_clean_content W url _) as [clean_content st1] eqn:Hrun.
  injection Hfetch as Hvalue Hstate.
  exists clean_content, st1, fetching. split; [reflexivity|].
  split; [rewrite Hstate; cbn [trace]; rewrite <- app_assoc; reflexivity|].
  split; [exact Hevents|]. split; [exact Hget|].
  destruct clean_content as [text|].
  - pose proof (extract_clean_content_some _ _ _ _ _ Hrun) as Hlen.
    destruct text as [|c text]; [simpl in Hlen; lia|].
    destruct (structure_effect W (c :: text) url use_llm st1)
      as (properties & st2 & structuring & Hstructure & Htrace & Hstruct & Hne & _).
    destruct (add_metadata_effect W url properties st2)
      as (result & st3 & Hmeta & Htrace3 & _ & _ & Hhas & Hkeys).
    exists properties, st2, structuring, result, st3.
    rewrite Hstructure, Hmeta. repeat split; assumption.
  - split; [reflexivity|]. split; [rewrite Hstate; reflexivity|].
    constructor; [simpl; tauto|].
    apply Forall_app. split.
    + eapply Forall_impl; [exact Hevents|]. apply fetch_not_structuring.
    + repeat constructor. simpl. tauto.
Qed.

(** ** The orchestrator *)

(** C5. The orchestrator starts its children in the order of the plan,
    [inserir_dados_mysql.py], [eliminar_duplicatas.py],
    [inserir_dados_mysql.py], each one checked: all three when the first two
    end with status 0, and no child after the first that does not. *)
Theorem script_principal_follows_plan child :
  let started := Orchestrator.invocations (fst (Orchestrator.script_principal child)) in
  started `prefix_of` Orchestrator.plan ∧
  started =
    if Orchestrator.succeeded (child 0%nat Orchestrator.inserir) then
      if Orchestrator.succeeded (child 1%nat Orchestrator.eliminar) then
        [Orchestrator.inserir; Orchestrator.eliminar; Orchestrator.inserir]
      else [Orchestrator.inserir; Orchestrator.eliminar]
    else [Orchestrator.inserir].
Proof.
  unfold Orchestrator.script_principal, Orchestrator.try_block,
    Orchestrator.bind, Orchestrator.print, Orchestrator.subprocess_run,
    Orchestrator.plan.
  cbn [fst snd app].
  destruct (child 0%nat Orchestrator.inserir) as [[|p|p]|]; cbn;
    try (split; [by eexists|reflexivity]).
  destruct (child 1%nat Orchestrator.eliminar) as [[|p|p]|]; cbn;
    try (split; [by eexists|reflexivity]).
  destruct (child 2%nat Orchestrator.inserir) as [[|p|p]|]; cbn;
    (split; [by exists []|reflexivity]).
Qed.

(** ** The dataframe scripts *)

Section Dedup.
Context {cell K : Type} `{EqDecision K}.
Variable key : list cell → K.

  (** The rows kept have keys that were not seen, all different. *)
Lemma keep_first_fresh rs :
    ∀ seen,
      NoDup (map key (Frames.keep_first key seen rs)) ∧
      ∀ r, r ∈ Frames.keep_first key seen rs → key r ∉ seen.
  Proof.
    induction rs as [|r rs IH]; intros seen; cbn [Frames.keep_first].
    - split; [constructor|]. intros r Hr. inversion Hr.
    - destruct (decide (key r ∈ seen)) as [Hseen|Hnew]; [apply IH|].
      destruct (IH (key r :: seen)) as [Hnodup Hfresh]. split.
      + cbn [map]. constructor; [|exact Hnodup].
        intros Hin. apply list_elem_of_fmap in Hin as (r' & Heq & Hr').
        apply Hfresh in Hr'. apply Hr'. rewrite Heq. left.
      + intros r' Hr'. apply elem_of_cons in Hr' as [->|Hr']; [exact Hnew|].
        apply Hfresh in Hr'. intros Hin. apply Hr'. right. exact Hin.
  Qed.

  (** Rows with fresh, different keys are all kept. *)
Lemma keep_first_id rs :
    ∀ seen,
      NoDup (map key rs) → (∀ r, r ∈ rs → key r ∉ seen) →
      Frames.keep_first key seen rs = rs.
  Proof.
    induction rs as [|r rs IH]; intros seen Hnodup Hfresh; [reflexivity|].
    cbn [Frames.keep_first]. cbn [map] in Hnodup.
    apply NoDup_cons in Hnodup as [Hr Hnodup].
    destruct (decide (key r ∈ seen)) as [Hseen|_].
    - exfalso. apply (Hfresh r); [left|exact Hseen].
    - f_equal. apply IH; [exact Hnodup|].
      intros r' Hr' Hin. apply elem_of_cons in Hin as [Heq|Hin].
      + apply Hr. rewrite <- Heq. apply list_elem_of_fmap. eauto.
      + apply (Hfresh r'); [right; exact Hr'|exact Hin].
  Qed.

Lemma keep_first_idempotent rs :
    Frames.keep_first key [] (Frames.keep_first key [] rs)
    = Frames.keep_first key [] rs.
  Proof.
    destruct (keep_first_fresh rs []) as [Hnodup _].
    apply keep_first_id; [exact Hnodup|]. intros r _ Hin. inversion Hin.
  Qed.
End Dedup.

(** C10. Dropping the duplicates on the six key columns, first occurrence
    kept, gives a table in which no two rows agree on all six, and dropping
    them again gives the same table. *)
Theorem drop_duplicates_idempotent {cell : Type} `{EqDecision cell}
    (df df' : Frames.frame cell) :
  Frames.drop_duplicates Frames.key_columns df = Some df' →
  NoDup (map (Frames.row_key (Frames.columns df') Frames.key_columns)
             (Frames.rows df')) ∧
  Frames.drop_duplicates Frames.key_columns df' = Some df'.
Proof.
  unfold Frames.drop_duplicates.
  destruct (forallb _ Frames.key_columns) eqn:Hcols; [|discriminate].
  intros Hdf. injection Hdf as <-. cbn [Frames.columns Frames.rows].
  rewrite Hcols. split.
  - apply keep_first_fresh.
  - rewrite keep_first_idempotent. reflexivity.
Qed.

(** The sample table has a duplicate; without it three rows are left, and
    they stay. *)
Lemma drop_duplicates_idempotent_witness :
  ∃ df' : Frames.frame Z,
    Frames.drop_duplicates Frames.key_columns Samples.apartamentos = Some df' ∧
    length (Frames.rows df') = 3%nat ∧
    Frames.drop_duplicates Frames.key_columns df' = Some df'.
Proof.
  eexists. split; [vm_compute; reflexivity|]. split; [reflexivity|].
  apply (drop_duplicates_idempotent Samples.apartamentos).
  vm_compute. reflexivity.
Defined.

(** C7. The upload writes to the MySQL table [apartamentos] the very frame
    it read from the SQLite table [apartamentos], whatever that table held
    before, and leaves the SQLite database and the other MySQL tables as
    they were. *)
Theorem inserir_dados_mysql_copies {cell : Type}
    (st : Frames.stores cell) (df : Frames.frame cell) :
  Frames.sqlite_db st !! "apartamentos"%string = Some df →
  ∃ printed st',
    Frames.inserir_dados_mysql st = Some (printed, st') ∧
    Frames.mysql_db st' !! "apartamentos"%string = Some df ∧
    Frames.sqlite_db st' = Frames.sqlite_db st ∧
    ∀ name, name ≠ "apartamentos"%string →
            Frames.mysql_db st' !! name = Frames.mysql_db st !! name.
Proof.
  intros Hread. unfold Frames.inserir_dados_mysql, Frames.read_sql.
  rewrite Hread. cbn. do 2 eexists. split; [reflexivity|].
  cbn [Frames.mysql_db Frames.sqlite_db]. unfold Frames.to_sql, Frames.database.
  split; [apply (lookup_insert_eq (M := gmap string))|]. split; [reflexivity|].
  intros name Hname. apply (lookup_insert_ne (M := gmap string)). congruence.
Qed.

(** The stale MySQL copy is replaced by the SQLite table. *)
Lemma inserir_dados_mysql_copies_witness :
  ∃ printed st',
    Frames.inserir_dados_mysql Samples.both_stores = Some (printed, st') ∧
    Frames.mysql_db st' !! "apartamentos"%string = Some Samples.apartamentos ∧
    Frames.sqlite_db st' = Frames.sqlite_db Samples.both_stores.
Proof.
  destruct (inserir_dados_mysql_copies Samples.both_stores Samples.apartamentos)
    as (printed & st' & Hrun & Hmysql & Hsqlite & _).
  - vm_compute. reflexivity.
  - exists printed, st'. auto.
Defined.

(** ** The model at work *)

(** The record of the sample listing. *)
Example listing_record :
  (λ record : dict,
     (get record "titulo", get record "preco", get record "quartos",
      get record "banheiros", get record "area_m2", get record "endereco"))
    <$> property_of Samples.url Samples.listing (lit "R$ 350.000")
  = Some (VStr Samples.listing, VStr (lit "R$ 350.000"), VInt 3, VInt 2,
          VFloat (lit "70.5"), VNone).
Proof. vm_compute. reflexivity. Qed.

(** [int] refuses a numeral of more than 4300 digits. *)
Example py_int_limit :
  py_int (repeat 57 4300) = Some (10 ^ 4300 - 1)%Z ∧
  py_int (repeat 57 4301) = None.
Proof. split; vm_compute; reflexivity. Qed.

(** State carries over from one request to the next: a second request right
    after the first finds the time of the first in the object and waits. *)
Example second_request_waits :
  let st1 := snd (extract_clean_content Samples.quiet_world Samples.url Samples.fresh) in
  let st2 := snd (extract_clean_content Samples.quiet_world Samples.url st1) in
  existsb (λ e, match e with Sleep _ => true | _ => false end) (trace st1) = false ∧
  existsb (λ e, match e with Sleep _ => true | _ => false end) (trace st2) = true.
Proof. split; vm_compute; reflexivity. Qed.

(** A server that answers 404 ends [process_url] at once. *)
Example not_found_gives_nothing :
  fst (process_url Samples.broken_world Samples.url true Samples.fresh) = [] ∧
  llm_runs (snd (process_url Samples.broken_world Samples.url true Samples.fresh))
  = 0%nat.
Proof. split; vm_compute; reflexivity. Qed.

(** The three runs of the orchestrator. *)
Example orchestrator_runs :
  Orchestrator.invocations
    (fst (Orchestrator.script_principal (λ _ _, Orchestrator.Exited 0)))
  = Orchestrator.plan ∧
  Orchestrator.invocations
    (fst (Orchestrator.script_principal
            (λ n _, Orchestrator.Exited (Z.of_nat n))))
  = [Orchestrator.inserir; Orchestrator.eliminar] ∧
  Orchestrator.invocations
    (fst (Orchestrator.script_principal (λ _ _, Orchestrator.Exited 1)))
  = [Orchestrator.inserir].
Proof. repeat split. Qed.

(** ** More on the dataframe scripts *)

Section KeepFirst.
Context {cell K : Type} `{EqDecision K}.
Variable key : list cell → K.

(** The rows kept are rows of the table, in their order. *)
Lemma keep_first_sublist rs :
  ∀ seen, Frames.keep_first key seen rs `sublist_of` rs.
Proof.
  induction rs as [|r rs IH]; intros seen; cbn [Frames.keep_first].
  - constructor.
  - destruct (decide (key r ∈ seen)).
    + apply sublist_cons, IH.
    + apply sublist_skip, IH.
Qed.

(** No key is lost: a row whose key was not seen has a row of its key among
    those kept. *)
Lemma keep_first_covers rs :
  ∀ seen r,
    r ∈ rs → key r ∉ seen →
    ∃ r', r' ∈ Frames.keep_first key seen rs ∧ key r' = key r.
Proof.
  induction rs as [|r0 rs IH]; intros seen r Hr Hnew; [inversion Hr|].
  cbn [Frames.keep_first].
  apply elem_of_cons in Hr as [->|Hr].
  - destruct (decide (key r0 ∈ seen)); [contradiction|].
    exists r0. split; [left|reflexivity].
  - destruct (decide (key r0 ∈ seen)) as [Hseen|Hfresh].
    + apply IH; assumption.
    + destruct (decide (key r = key r0)) as [Heq|Hne].
      * exists r0. split; [left|congruence].
      * destruct (IH (key r0 :: seen) r Hr) as (r' & Hr' & Hkey).
        { intros Hin. apply elem_of_cons in Hin as [?|?]; contradiction. }
        exists r'. split; [right; exact Hr'|exact Hkey].
Qed.

(** The row kept for a key is the first one that has it. *)
Lemma keep_first_first pre r post :
  ∀ seen,
    key r ∉ seen → (∀ r0, r0 ∈ pre → key r0 ≠ key r) →
    r ∈ Frames.keep_first key seen (pre ++ r :: post).
Proof.
  induction pre as [|r0 pre IH]; intros seen Hnew Hpre.
  - cbn [app Frames.keep_first].
    destruct (decide (key r ∈ seen)); [contradiction|left].
  - cbn [app Frames.keep_first].
    assert (Hne : key r0 ≠ key r) by (apply Hpre; left).
    assert (Hrest : ∀ r1, r1 ∈ pre → key r1 ≠ key r)
      by (intros r1 Hr1; apply Hpre; right; exact Hr1).
    destruct (decide (key r0 ∈ seen)).
    + apply IH; assumption.
    + right. apply IH; [|exact Hrest].
      intros Hin. apply elem_of_cons in Hin as [?|?]; [congruence|contradiction].
Qed.

(** A filter that no element passes gives the empty list. *)
Lemma filter_none {A} (P : A → Prop) `{∀ x, Decision (P x)} (l : list A) :
  (∀ x, ¬ P x) → filter P l = [].
Proof.
  intros Hnone. induction l as [|x l IH]; [reflexivity|].
  rewrite filter_cons_False; [exact IH|apply Hnone].
Qed.

(** How often a key occurs. *)
Lemma count_key_cons k r rs :
  length (filter (λ r', key r' = k) (r :: rs))
  = ((if decide (key r = k) then 1 else 0)
     + length (filter (λ r', key r' = k) rs))%nat.
Proof. rewrite filter_cons. destruct (decide (key r = k)); reflexivity. Qed.

Lemma count_key_zero k rs :
  k ∉ map key rs → length (filter (λ r', key r' = k) rs) = 0%nat.
Proof.
  induction rs as [|r rs IH]; intros Hk; [reflexivity|].
  rewrite count_key_cons. cbn [map] in Hk.
  apply not_elem_of_cons in Hk as [Hne Hk].
  destruct (decide (key r = k)); [congruence|]. rewrite IH; auto.
Qed.

Lemma count_key_pos k rs :
  k ∈ map key rs → (1 ≤ length (filter (λ r', key r' = k) rs))%nat.
Proof.
  induction rs as [|r rs IH]; intros Hk; [inversion Hk|].
  rewrite count_key_cons. cbn [map] in Hk.
  destruct (decide (key r = k)); [lia|].
  apply elem_of_cons in Hk as [?|Hk]; [congruence|]. apply IH in Hk. lia.
Qed.

(** The keys are all different exactly when no row is reported as a
    duplicate. *)
Lemma NoDup_keys_no_duplicated rs :
  NoDup (map key rs) ↔
  filter (λ r, 1 < length (filter (λ r', key r' = key r) rs))%nat rs = [].
Proof.
  split.
  - intros Hnodup.
    assert (Hall : ∀ k, (length (filter (λ r', key r' = k) rs) ≤ 1)%nat).
    { induction rs as [|r rs IH]; intros k; [cbn; lia|].
      cbn [map] in Hnodup. apply NoDup_cons in Hnodup as [Hr Hnodup].
      rewrite count_key_cons. destruct (decide (key r = k)) as [<-|].
      - rewrite count_key_zero; [lia|exact Hr].
      - specialize (IH Hnodup k). lia. }
    apply filter_none. intros r. specialize (Hall (key r)). lia.
  - intros Hnone.
    assert (Hall : ∀ r, r ∈ rs →
              (length (filter (λ r', key r' = key r) rs) ≤ 1)%nat).
    { intros r Hr.
      destruct (le_lt_dec (length (filter (λ r', key r' = key r) rs)) 1)
        as [Hle|Hgt]; [exact Hle|].
      exfalso. eapply (filter_nil_not_elem_of _ _ r Hnone); [exact Hgt|exact Hr]. }
    clear Hnone. induction rs as [|r rs IH]; [constructor|].
    cbn [map]. apply NoDup_cons. split.
    + intros Hin. apply count_key_pos in Hin.
      specialize (Hall r ltac:(left)). rewrite count_key_cons in Hall.
      destruct (decide (key r = key r)); [lia|congruence].
    + apply IH. intros r' Hr'. specialize (Hall r' ltac:(right; exact Hr')).
      rewrite count_key_cons in Hall. lia.
Qed.
End KeepFirst.

(** X1. [drop_duplicates] keeps the columns, keeps rows of the table in their
    order, loses no key, and keeps for each key the first row that has it. *)
Theorem drop_duplicates_keeps_first {cell : Type} `{EqDecision cell}
    (subset : list string) (df df' : Frames.frame cell) :
  Frames.drop_duplicates subset df = Some df' →
  let key := Frames.row_key (Frames.columns df) subset in
  Frames.columns df' = Frames.columns df ∧
  Frames.rows df' `sublist_of` Frames.rows df ∧
  (∀ r, r ∈ Frames.rows df → ∃ r', r' ∈ Frames.rows df' ∧ key r' = key r) ∧
  (∀ pre r post,
     Frames.rows df = pre ++ r :: post →
     (∀ r0, r0 ∈ pre → key r0 ≠ key r) →
     r ∈ Frames.rows df').
Proof.
  unfold Frames.drop_duplicates.
  destruct (forallb _ subset); [|discriminate].
  intros Hdf. injection Hdf as <-. cbn [Frames.columns Frames.rows].
  split; [reflexivity|]. split; [apply keep_first_sublist|]. split.
  - intros r Hr. apply keep_first_covers; [exact Hr|]. intros Hin. inversion Hin.
  - intros pre r post -> Hpre. apply keep_first_first; [|exact Hpre].
    intros Hin. inversion Hin.
Qed.

(** In the sample table the third row repeats the key of the first: the
    first, second and fourth rows are kept. *)
Lemma drop_duplicates_keeps_first_witness :
  ∃ df' : Frames.frame Z,
    Frames.drop_duplicates Frames.key_columns Samples.apartamentos = Some df' ∧
    Frames.rows df' =
      [[70; 350000; 3; 2; 1; 11; 1001]; [45; 200000; 1; 1; 0; 12; 1002];
       [90; 500000; 4; 3; 2; 13; 1004]]%Z ∧
    Frames.rows df' `sublist_of` Frames.rows Samples.apartamentos.
Proof.
  eexists. split; [vm_compute; reflexivity|]. split; [reflexivity|].
  eapply (drop_duplicates_keeps_first Frames.key_columns Samples.apartamentos).
  vm_compute. reflexivity.
Defined.

(** X2. The report of duplicates and the deduplication agree: no row is
    reported exactly when the deduplication leaves the rows as they are. *)
Theorem duplicated_rows_agrees_with_drop {cell : Type} `{EqDecision cell}
    (subset : list string) (df dups dedup : Frames.frame cell) :
  Frames.duplicated_rows subset df = Some dups →
  Frames.drop_duplicates subset df = Some dedup →
  (Frames.rows dups = [] ↔ Frames.rows dedup = Frames.rows df).
Proof.
  unfold Frames.duplicated_rows, Frames.drop_duplicates.
  destruct (forallb _ subset); [|discriminate].
  intros Hdups Hdedup. injection Hdups as <-. injection Hdedup as <-.
  cbn [Frames.rows].
  rewrite <- (NoDup_keys_no_duplicated
                (Frames.row_key (Frames.columns df) subset) (Frames.rows df)).
  split.
  - intros Hnodup. apply keep_first_id; [exact Hnodup|].
    intros r _ Hin. inversion Hin.
  - intros Hsame. rewrite <- Hsame. apply keep_first_fresh.
Qed.

(** In the sample table the first and the third row are reported, and the
    deduplication drops the third. *)
Lemma duplicated_rows_agrees_with_drop_witness :
  let dups : Frames.frame Z :=
    {| Frames.columns := Frames.columns Samples.apartamentos;
       Frames.rows := [[70; 350000; 3; 2; 1; 11; 1001];
                       [70; 350000; 3; 2; 1; 11; 1003]]%Z |} in
  let dedup : Frames.frame Z :=
    {| Frames.columns := Frames.columns Samples.apartamentos;
       Frames.rows := [[70; 350000; 3; 2; 1; 11; 1001];
                       [45; 200000; 1; 1; 0; 12; 1002];
                       [90; 500000; 4; 3; 2; 13; 1004]]%Z |} in
  Frames.duplicated_rows Frames.key_columns Samples.apartamentos = Some dups ∧
  Frames.drop_duplicates Frames.key_columns Samples.apartamentos = Some dedup ∧
  Frames.rows dedup ≠ Frames.rows Samples.apartamentos.
Proof.
  intros dups dedup.
  assert (Hdups : Frames.duplicated_rows Frames.key_columns Samples.apartamentos
                  = Some dups) by (vm_compute; reflexivity).
  assert (Hdedup : Frames.drop_duplicates Frames.key_columns Samples.apartamentos
                   = Some dedup) by (vm_compute; reflexivity).
  split; [exact Hdups|]. split; [exact Hdedup|].
  intros Hsame.
  apply (duplicated_rows_agrees_with_drop _ _ _ _ Hdups Hdedup) in Hsame.
  discriminate Hsame.
Defined.

(** What [to_sql] writes, [read_sql] reads back; the other tables stay. *)
Lemma read_sql_to_sql {cell : Type} (df : Frames.frame cell) name con :
  Frames.read_sql name (Frames.to_sql df name con) = Some df.
Proof. apply (lookup_insert_eq (M := gmap string)). Qed.

Lemma read_sql_to_sql_other {cell : Type} (df : Frames.frame cell) name name' con :
  name ≠ name' →
  Frames.read_sql name' (Frames.to_sql df name con) = Frames.read_sql name' con.
Proof. intros Hne. apply (lookup_insert_ne (M := gmap string)). exact Hne. Qed.

Lemma to_sql_to_sql {cell : Type} (df df0 : Frames.frame cell) name con :
  Frames.to_sql df name (Frames.to_sql df0 name con) = Frames.to_sql df name con.
Proof. apply (insert_insert_eq (M := gmap string)). Qed.

(** When the deduplication script raises. *)
Lemma eliminar_duplicatas_none {cell : Type} `{EqDecision cell}
    (sqlite : Frames.database cell) :
  Frames.eliminar_duplicatas sqlite = None ↔
  match Frames.read_sql "apartamentos" sqlite with
  | None => True
  | Some df => Plan.has_key_columns df = false
  end.
Proof.
  unfold Frames.eliminar_duplicatas.
  destruct (Frames.read_sql "apartamentos" sqlite) as [df|];
    [|simpl; split; [tauto|reflexivity]].
  cbn [mbind option_bind].
  unfold Frames.duplicated_rows, Frames.drop_duplicates, Plan.has_key_columns.
  destruct (forallb _ Frames.key_columns); simpl; split; congruence.
Qed.

(** X3. [eliminar_duplicatas.py] ends in an exception exactly when the
    database has no table [apartamentos] or the table lacks one of the six
    key columns. *)
Theorem eliminar_duplicatas_raises {cell : Type} `{EqDecision cell}
    (sqlite : Frames.database cell) :
  Frames.eliminar_duplicatas sqlite = None ↔
  match Frames.read_sql "apartamentos" sqlite with
  | None => True
  | Some df => Plan.has_key_columns df = false
  end.
Proof. apply eliminar_duplicatas_none. Qed.

(** The deduplicated table has different keys and is its own deduplication. *)
Lemma drop_duplicates_fixpoint {cell : Type} `{EqDecision cell}
    (subset : list string) (df df' : Frames.frame cell) :
  Frames.drop_duplicates subset df = Some df' →
  NoDup (map (Frames.row_key (Frames.columns df') subset) (Frames.rows df')) ∧
  Frames.drop_duplicates subset df' = Some df'.
Proof.
  unfold Frames.drop_duplicates.
  destruct (forallb _ subset) eqn:Hcols; [|discriminate].
  intros Hdf. injection Hdf as <-. cbn [Frames.columns Frames.rows].
  rewrite Hcols. split; [apply keep_first_fresh|].
  rewrite keep_first_idempotent. reflexivity.
Qed.

(** One run of the deduplication script, and the run after it. *)
Lemma eliminar_duplicatas_again {cell : Type} `{EqDecision cell}
    (sqlite sqlite' : Frames.database cell) printed :
  Frames.eliminar_duplicatas sqlite = Some (printed, sqlite') →
  (∃ df df',
     Frames.read_sql "apartamentos" sqlite = Some df ∧
     Frames.drop_duplicates Frames.key_columns df = Some df' ∧
     Frames.read_sql "apartamentos" sqlite' = Some df') ∧
  (∀ name, name ≠ "apartamentos"%string →
     Frames.read_sql name sqlite' = Frames.read_sql name sqlite) ∧
  Frames.eliminar_duplicatas sqlite' =
    Some ([Frames.Text "Não há duplicatas no conjunto de dados.";
           Frames.Text "Duplicatas eliminadas e dados atualizados com sucesso!"],
          sqlite').
Proof.
  unfold Frames.eliminar_duplicatas at 1.
  destruct (Frames.read_sql "apartamentos" sqlite) as [df|] eqn:Hdf; [|discriminate].
  cbn [mbind option_bind].
  destruct (Frames.duplicated_rows Frames.key_columns df) as [dups|] eqn:Hdups;
    [|discriminate].
  cbn [mbind option_bind].
  destruct (Frames.drop_duplicates Frames.key_columns df) as [df'|] eqn:Hdedup;
    [|discriminate].
  cbn [mbind option_bind]. intros Hrun. injection Hrun as _ <-.
  split; [exists df, df'; split; [reflexivity|]; split; [exact Hdedup|];
          apply read_sql_to_sql|].
  split; [intros name Hname; apply read_sql_to_sql_other; congruence|].
  destruct (drop_duplicates_fixpoint _ df df' Hdedup) as [Hnodup Hagain].
  unfold Frames.eliminar_duplicatas. rewrite read_sql_to_sql.
  cbn [mbind option_bind].
  assert (Hnone : ∃ dups', Frames.duplicated_rows Frames.key_columns df' = Some dups'
                           ∧ Frames.rows dups' = []).
  { unfold Frames.duplicated_rows. unfold Frames.drop_duplicates in Hagain.
    destruct (forallb _ Frames.key_columns); [|discriminate].
    eexists. split; [reflexivity|]. cbn [Frames.rows].
    apply NoDup_keys_no_duplicated. exact Hnodup. }
  destruct Hnone as (dups' & -> & Hrows). cbn [mbind option_bind].
  rewrite Hrows, Hagain. cbn [mbind option_bind app].
  rewrite to_sql_to_sql. reflexivity.
Qed.

(** X4. When [eliminar_duplicatas.py] ends well, it has replaced the table
    [apartamentos] by its deduplication and touched no other table; a second
    run reports no duplicates and leaves the database as it is. *)
Theorem eliminar_duplicatas_twice {cell : Type} `{EqDecision cell}
    (sqlite sqlite' : Frames.database cell) printed :
  Frames.eliminar_duplicatas sqlite = Some (printed, sqlite') →
  (∃ df df',
     Frames.read_sql "apartamentos" sqlite = Some df ∧
     Frames.drop_duplicates Frames.key_columns df = Some df' ∧
     Frames.read_sql "apartamentos" sqlite' = Some df') ∧
  (∀ name, name ≠ "apartamentos"%string →
     Frames.read_sql name sqlite' = Frames.read_sql name sqlite) ∧
  Frames.eliminar_duplicatas sqlite' =
    Some ([Frames.Text "Não há duplicatas no conjunto de dados.";
           Frames.Text "Duplicatas eliminadas e dados atualizados com sucesso!"],
          sqlite').
Proof. apply eliminar_duplicatas_again. Qed.

(** On the sample database the first run reports the duplicates and the
    second one none. *)
Lemma eliminar_duplicatas_twice_witness :
  ∃ printed sqlite',
    Frames.eliminar_duplicatas (Frames.sqlite_db Samples.both_stores)
    = Some (printed, sqlite') ∧
    length printed = 3%nat ∧
    fst <$> Frames.eliminar_duplicatas sqlite' =
      Some [Frames.Text "Não há duplicatas no conjunto de dados.";
            Frames.Text "Duplicatas eliminadas e dados atualizados com sucesso!"].
Proof.
  assert (Hlen : (length ∘ fst)
                   <$> Frames.eliminar_duplicatas (Frames.sqlite_db Samples.both_stores)
                 = Some 3%nat) by (vm_compute; reflexivity).
  destruct (Frames.eliminar_duplicatas (Frames.sqlite_db Samples.both_stores))
    as [[printed sqlite']|] eqn:Hrun; [|discriminate].
  exists printed, sqlite'. split; [reflexivity|].
  split; [injection Hlen as Hlen; exact Hlen|].
  destruct (eliminar_duplicatas_twice _ _ _ Hrun) as (_ & _ & ->). reflexivity.
Defined.

(** One run of the upload, when the table is there. *)
Lemma inserir_dados_mysql_run {cell : Type}
    (st : Frames.stores cell) (df : Frames.frame cell) :
  Frames.read_sql "apartamentos" (Frames.sqlite_db st) = Some df →
  Frames.inserir_dados_mysql st =
  Some ([Frames.Text "Dados a serem enviados para o MySQL:"; Frames.Table df;
         Frames.Text "Dados enviados com sucesso para o banco de dados MySQL!"],
        {| Frames.sqlite_db := Frames.sqlite_db st;
           Frames.mysql_db := Frames.to_sql df "apartamentos" (Frames.mysql_db st) |}).
Proof. intros Hdf. unfold Frames.inserir_dados_mysql. rewrite Hdf. reflexivity. Qed.

(** X5. The three steps in the order of the orchestrator, on a SQLite table
    that has the key columns: both databases end with the same table
    [apartamentos], the deduplication of the SQLite table, whatever MySQL
    held before; the other tables are as they were. *)
Theorem run_plan_result {cell : Type} `{EqDecision cell}
    (st : Frames.stores cell) (df : Frames.frame cell) :
  Frames.read_sql "apartamentos" (Frames.sqlite_db st) = Some df →
  Plan.has_key_columns df = true →
  ∃ st' df',
    Plan.run_plan st = Some st' ∧
    Frames.drop_duplicates Frames.key_columns df = Some df' ∧
    Frames.read_sql "apartamentos" (Frames.sqlite_db st') = Some df' ∧
    Frames.read_sql "apartamentos" (Frames.mysql_db st') = Some df' ∧
    (∀ name, name ≠ "apartamentos"%string →
       Frames.read_sql name (Frames.sqlite_db st')
       = Frames.read_sql name (Frames.sqlite_db st) ∧
       Frames.read_sql name (Frames.mysql_db st')
       = Frames.read_sql name (Frames.mysql_db st)).
Proof.
  intros Hdf Hcols. unfold Plan.run_plan, Plan.eliminar_step.
  rewrite (inserir_dados_mysql_run st df Hdf).
  cbn [mbind option_bind Frames.sqlite_db Frames.mysql_db].
  destruct (Frames.eliminar_duplicatas (Frames.sqlite_db st))
    as [[printed sqlite']|] eqn:Hrun.
  2:{ apply eliminar_duplicatas_none in Hrun. rewrite Hdf in Hrun. congruence. }
  destruct (eliminar_duplicatas_again _ _ _ Hrun)
    as ((df0 & df' & Hdf0 & Hdedup & Hnew) & Hother & _).
  rewrite Hdf in Hdf0. injection Hdf0 as <-.
  cbn [mbind option_bind].
  rewrite (inserir_dados_mysql_run
             {| Frames.sqlite_db := sqlite';
                Frames.mysql_db :=
                  Frames.to_sql df "apartamentos" (Frames.mysql_db st) |}
             df' Hnew).
  cbn [mbind option_bind]. do 2 eexists. split; [reflexivity|].
  split; [exact Hdedup|]. cbn [Frames.sqlite_db Frames.mysql_db].
  split; [exact Hnew|]. split; [apply read_sql_to_sql|].
  intros name Hname. split; [apply Hother, Hname|].
  rewrite !read_sql_to_sql_other by congruence. reflexivity.
Qed.

(** On the sample databases the stale MySQL table is replaced by the three
    rows that are left. *)
Lemma run_plan_result_witness :
  ∃ st',
    Plan.run_plan Samples.both_stores = Some st' ∧
    Frames.read_sql "apartamentos" (Frames.mysql_db st')
    = Frames.read_sql "apartamentos" (Frames.sqlite_db st') ∧
    (length ∘ Frames.rows) <$> Frames.read_sql "apartamentos" (Frames.mysql_db st')
    = Some 3%nat.
Proof.
  destruct (run_plan_result Samples.both_stores Samples.apartamentos)
    as (st' & df' & Hrun & Hdedup & Hsqlite & Hmysql & _).
  - vm_compute. reflexivity.
  - vm_compute. reflexivity.
  - exists st'. split; [exact Hrun|]. rewrite Hsqlite, Hmysql.
    split; [reflexivity|].
    assert (Hrows : (length ∘ Frames.rows)
                      <$> Frames.drop_duplicates Frames.key_columns Samples.apartamentos
                    = Some 3%nat) by (vm_compute; reflexivity).
    rewrite Hdedup in Hrows. exact Hrows.
Defined.

(** ** More on the orchestrator *)

(** An event is not in a short list of other events. *)
Ltac not_among :=
  let H := fresh in
  intros H;
  repeat (apply elem_of_cons in H as [H|H]; [discriminate H|]);
  inversion H.

(** X6. What the orchestrator reports.  When the three children pass, its
    last line is the line of success and it ends normally.  When a child
    ends with a status other than 0, its last line names that command line
    and status, there is no line of success, and it ends normally.  When a
    child cannot be started, nothing is caught: no closing line at all, and a
    traceback. *)
Theorem script_principal_report child :
  let out := fst (Orchestrator.script_principal child) in
  let ending := snd (Orchestrator.script_principal child) in
  match Report.first_failure child with
  | None =>
      ending = Orchestrator.Finished ∧
      last out = Some (Orchestrator.Printed Orchestrator.AllDone) ∧
      (∀ argv rc, Orchestrator.Printed (Orchestrator.Failed argv rc) ∉ out)
  | Some (argv, Orchestrator.Exited rc) =>
      ending = Orchestrator.Finished ∧
      last out = Some (Orchestrator.Printed (Orchestrator.Failed argv rc)) ∧
      Orchestrator.Printed Orchestrator.AllDone ∉ out
  | Some (argv, Orchestrator.NotStarted) =>
      ending = Orchestrator.Traceback ∧
      last out = Some (Orchestrator.Run argv) ∧
      (Orchestrator.Printed Orchestrator.AllDone ∉ out) ∧
      (∀ argv' rc, Orchestrator.Printed (Orchestrator.Failed argv' rc) ∉ out)
  end.
Proof.
  unfold Report.first_failure, Orchestrator.script_principal,
    Orchestrator.try_block, Orchestrator.bind, Orchestrator.print,
    Orchestrator.subprocess_run, Orchestrator.succeeded.
  cbn [fst snd app].
  destruct (child 0%nat Orchestrator.inserir) as [[|p|p]|]; cbn;
    try (repeat split; try reflexivity; try intros ? ?; not_among).
  destruct (child 1%nat Orchestrator.eliminar) as [[|p|p]|]; cbn;
    try (repeat split; try reflexivity; try intros ? ?; not_among).
  destruct (child 2%nat Orchestrator.inserir) as [[|p|p]|]; cbn;
    repeat split; try reflexivity; try intros ? ?; not_among.
Qed.

(** ** More on the pipeline *)

Lemma Qlt_bool_true x y : Qlt_bool x y = true → (x < y)%Q.
Proof.
  unfold Qlt_bool. intros Hlt. apply negb_true_iff in Hlt.
  apply Qnot_le_lt. intros Hle. apply Qle_bool_iff in Hle. congruence.
Qed.

Lemma Qlt_bool_false x y : Qlt_bool x y = false → (y <= x)%Q.
Proof.
  unfold Qlt_bool. intros Hlt. apply negb_false_iff in Hlt.
  apply Qle_bool_iff. exact Hlt.
Qed.

(** The two ways through the rate limit. *)
Lemma respect_rate_limit_cases W st :
  let elapsed := (clock W (ticks st) - last_request_time (self st))%Q in
  let remaining := (min_delay (self st) - elapsed)%Q in
  let st' := snd (respect_rate_limit W st) in
  (trace st' = trace st ∧ (min_delay (self st) <= elapsed)%Q) ∨
  (trace st' = trace st ++ [Log INFO (RateLimitWait remaining); Sleep remaining]
   ∧ (0 < remaining)%Q).
Proof.
  run. destruct (Qlt_bool _ _) eqn:Hlt; cbn [snd trace].
  - right. split; [rewrite <- app_assoc; reflexivity|].
    apply Qlt_bool_true in Hlt. apply Qlt_minus_iff in Hlt. exact Hlt.
  - left. split; [reflexivity|]. apply Qlt_bool_false in Hlt. exact Hlt.
Qed.

(** X7. [respect_rate_limit] sleeps at most once, and only for a positive
    time: when less than [min_delay] has passed since the last request it
    logs and sleeps for what is left of it, otherwise it adds nothing. *)
Theorem respect_rate_limit_sleeps W st :
  let elapsed := (clock W (ticks st) - last_request_time (self st))%Q in
  let remaining := (min_delay (self st) - elapsed)%Q in
  let st' := snd (respect_rate_limit W st) in
  (trace st' = trace st ∧ (min_delay (self st) <= elapsed)%Q) ∨
  (trace st' = trace st ++ [Log INFO (RateLimitWait remaining); Sleep remaining]
   ∧ (0 < remaining)%Q).
Proof. apply respect_rate_limit_cases. Qed.

(** The events [respect_rate_limit] adds have no GET and no run of the
    language-model step among them. *)
Lemma respect_rate_limit_quiet W st :
  ∃ waited,
    trace (snd (respect_rate_limit W st)) = trace st ++ waited ∧
    List.filter Trace.is_get waited = [] ∧
    List.filter Trace.is_llm waited = [].
Proof.
  destruct (respect_rate_limit_cases W st) as [[-> _]|[-> _]].
  - exists []. rewrite app_nil_r. repeat split.
  - eexists. repeat split.
Qed.

(** The events of a fetch: those of the rate limit, the opening line, the
    GET and the closing line. *)
Lemma extract_clean_content_trace W url st :
  ∃ waited closing,
    trace (snd (extract_clean_content W url st))
    = trace st ++ waited
      ++ [Log INFO (Extracting url); Get (base_url (self st) ++ url); closing] ∧
    List.filter Trace.is_get waited = [] ∧
    List.filter Trace.is_llm waited = [] ∧
    Trace.is_get closing = false ∧ Trace.is_llm closing = false.
Proof.
  destruct (respect_rate_limit_quiet W st) as (waited & Hwait & Hget & Hllm).
  destruct (respect_rate_limit_effect W st) as (waited' & Hrun & _).
  rewrite Hrun in Hwait. cbn [snd trace] in Hwait.
  apply app_inv_head in Hwait. subst waited'.
  exists waited.
  unfold extract_clean_content, bind at 1. rewrite Hrun. run.
  destruct (http W (gets st) (base_url (self st) ++ url)) as [status text| |];
    [destruct (raises_for_status status);
       [|destruct (100 <? length text)%nat]| |];
    run; cbn [snd trace];
    (eexists; split; [rewrite <- !app_assoc; reflexivity|auto]).
Qed.

(** The structuring step and the metadata loop make no request and read no
    clock. *)
Lemma structure_counters W clean_content url use_llm st :
  gets (snd (structure W clean_content url use_llm st)) = gets st ∧
  ticks (snd (structure W clean_content url use_llm st)) = ticks st.
Proof.
  unfold structure, bind, extract_property_data_with_llm,
    extract_properties_simple, log, emit, ret.
  destruct use_llm; [destruct (ollama W _ _ _)|];
    cbn [fst snd self ticks stamps gets llm_runs trace];
    try destruct (scan_sections _ _ _); split; reflexivity.
Qed.

Lemma add_metadata_counters W url properties :
  ∀ st,
    gets (snd (add_metadata W url properties st)) = gets st ∧
    ticks (snd (add_metadata W url properties st)) = ticks st ∧
    stamps (snd (add_metadata W url properties st))
    = (stamps st + length properties)%nat.
Proof.
  induction properties as [|prop rest IH]; intros st.
  - cbn. repeat split. lia.
  - cbn [add_metadata]. unfold stamp, datetime_now, ret, bind. cbn beta iota.
    match goal with
    | |- context [add_metadata W url rest ?s] =>
        destruct (IH s) as (Hgets & Hticks & Hstamps);
        destruct (add_metadata W url rest s) as [rest' st']
    end.
    cbn [fst snd self ticks stamps gets llm_runs trace length] in *.
    repeat split; try assumption. lia.
Qed.

Lemma structuring_event_quiet e :
  structuring_event e → Trace.is_get e = false.
Proof. destruct e as [lvl []| | |]; simpl; tauto. Qed.

Lemma filter_quiet (f : event → bool) (P : event → Prop) added :
  (∀ e, P e → f e = false) → Forall P added → List.filter f added = [].
Proof.
  intros Hquiet Hall. induction Hall as [|e added He _ IH]; [reflexivity|].
  cbn [List.filter]. rewrite (Hquiet e He). exact IH.
Qed.

(** The requests of one call of [process_url]. *)
Lemma process_url_network W url use_llm st :
  let st' := snd (process_url W url use_llm st) in
  gets st' = S (gets st) ∧
  List.filter Trace.is_get (trace st')
  = List.filter Trace.is_get (trace st) ++ [Get (base_url (self st) ++ url)].
Proof.
  cbv zeta. rewrite process_url_unfold.
  pose proof (extract_clean_content_trace W url
                (snd (log INFO (ProcessingUrl url) st)))
    as (waited & closing & Htrace & Hwaited & _ & Hclosing & _).
  destruct (extract_clean_content_effect W url
              (snd (log INFO (ProcessingUrl url) st)))
    as (added & Hrun & _).
  rewrite Hrun in Htrace. cbn [log emit snd self gets trace] in Htrace.
  assert (Hgets : List.filter Trace.is_get
                    ((trace st ++ [Log INFO (ProcessingUrl url)]) ++ added)
                  = List.filter Trace.is_get (trace st)
                    ++ [Get (base_url (self st) ++ url)]).
  { rewrite Htrace, !List.filter_app, Hwaited. cbn [List.filter Trace.is_get].
    rewrite Hclosing, !app_nil_r. reflexivity. }
  rewrite Hrun. cbn [log emit snd self ticks stamps gets llm_runs trace] in *.
  destruct (fetched W _ url) as [[|c text]|].
  - cbn [snd gets trace]. split; [reflexivity|].
    rewrite List.filter_app, Hgets. cbn. rewrite app_nil_r. reflexivity.
  - match goal with
    | |- context [structure W (c :: text) url use_llm ?s] =>
        destruct (structure_effect W (c :: text) url use_llm s)
          as (properties & st2 & structuring & Hstructure & Htr & Hstruct & _);
        destruct (structure_counters W (c :: text) url use_llm s) as [Hg _]
    end.
    rewrite Hstructure in *. cbn [snd gets trace] in Hg, Htr.
    destruct (add_metadata_effect W url properties st2)
      as (result & st3 & Hmeta & Htr3 & _).
    destruct (add_metadata_counters W url properties st2) as [Hg3 _].
    rewrite Hmeta in *. cbn [snd] in *. split; [congruence|].
    rewrite Htr3, Htr, List.filter_app, Hgets.
    rewrite (filter_quiet _ _ _ structuring_event_quiet Hstruct).
    rewrite app_nil_r. reflexivity.
  - cbn [snd gets trace]. split; [reflexivity|].
    rewrite List.filter_app, Hgets. cbn. rewrite app_nil_r. reflexivity.
Qed.

(** ** The runs of the language-model step *)

Lemma count_app f events more :
  Trace.count f (events ++ more) = (Trace.count f events + Trace.count f more)%nat.
Proof. unfold Trace.count. rewrite List.filter_app, length_app. reflexivity. Qed.

(** The closing line of a fetch is the line of success exactly when the
    fetch returns a text; nothing before it is such a line, nor a run of the
    language-model step. *)
Lemma extract_clean_content_closing W url st :
  ∃ waited closing,
    trace (snd (extract_clean_content W url st))
    = trace st ++ waited
      ++ [Log INFO (Extracting url); Get (base_url (self st) ++ url); closing] ∧
    List.filter Trace.is_llm waited = [] ∧
    List.filter Trace.is_content_line waited = [] ∧
    Trace.is_llm closing = false ∧
    Trace.is_content_line closing
    = match fetched W st url with Some _ => true | None => false end.
Proof.
  assert (∃ waited,
            trace (snd (respect_rate_limit W st)) = trace st ++ waited ∧
            List.filter Trace.is_llm waited = [] ∧
            List.filter Trace.is_content_line waited = [])
    as (waited & Hwait & Hllm & Hline).
  { destruct (respect_rate_limit_cases W st) as [[-> _]|[-> _]].
    - exists []. rewrite app_nil_r. repeat split.
    - eexists. repeat split. }
  destruct (respect_rate_limit_effect W st) as (waited' & Hrun & _).
  rewrite Hrun in Hwait. cbn [snd trace] in Hwait.
  apply app_inv_head in Hwait. subst waited'.
  exists waited.
  unfold extract_clean_content, bind at 1. rewrite Hrun. unfold fetched. run.
  destruct (http W (gets st) (base_url (self st) ++ url)) as [status text| |];
    [destruct (raises_for_status status);
       [|destruct (100 <? length text)%nat]| |];
    run; cbn [snd trace];
    (eexists; split; [rewrite <- !app_assoc; reflexivity|auto]).
Qed.

(** The structuring step runs the language-model step once when [use_llm]
    is true, and not otherwise; it logs no line of a fetch. *)
Lemma structure_runs W clean_content url use_llm st :
  let st' := snd (structure W clean_content url use_llm st) in
  llm_runs st' = (llm_runs st + if use_llm then 1 else 0)%nat ∧
  List.filter Trace.is_llm (trace st')
  = List.filter Trace.is_llm (trace st)
    ++ (if use_llm then [Llm clean_content url] else []) ∧
  List.filter Trace.is_content_line (trace st')
  = List.filter Trace.is_content_line (trace st).
Proof.
  cbv zeta. unfold structure.
  destruct use_llm; [run; destruct (ollama W _ _ _); run|run];
    try destruct (scan_sections _ _ _); run;
    rewrite ?List.filter_app; cbn [List.filter Trace.is_llm Trace.is_content_line];
    rewrite ?app_nil_r, <- ?app_assoc; repeat split; try lia; reflexivity.
Qed.

Lemma fetched_long W st url text :
  fetched W st url = Some text → (100 < length text)%nat.
Proof.
  unfold fetched.
  destruct (http W (gets st) (base_url (self st) ++ url)) as [status t| |];
    try discriminate.
  destruct (raises_for_status status); [discriminate|].
  destruct (Nat.ltb_spec 100 (length t)); [|discriminate].
  intros Ht. injection Ht as <-. assumption.
Qed.

(** The runs of the language-model step in one call of [process_url]. *)
Lemma process_url_runs W url use_llm st :
  let st' := snd (process_url W url use_llm st) in
  let run :=
    match fetched W st url with
    | Some text => if use_llm then [Llm text url] else []
    | None => []
    end in
  llm_runs st' = (llm_runs st + length run)%nat ∧
  List.filter Trace.is_llm (trace st') = List.filter Trace.is_llm (trace st) ++ run ∧
  Trace.count Trace.is_content_line (trace st')
  = (Trace.count Trace.is_content_line (trace st)
     + match fetched W st url with Some _ => 1 | None => 0 end)%nat.
Proof.
  cbv zeta. rewrite process_url_unfold.
  pose proof (extract_clean_content_closing W url
                (snd (log INFO (ProcessingUrl url) st)))
    as (waited & closing & Htrace & Hwaited & Hlines & Hclosing & Hline).
  destruct (extract_clean_content_effect W url
              (snd (log INFO (ProcessingUrl url) st)))
    as (added & Hrun & _).
  change (fetched W (snd (log INFO (ProcessingUrl url) st)) url)
    with (fetched W st url) in *.
  rewrite Hrun in Htrace. cbn [log emit snd self gets trace] in Htrace.
  assert (Hllm : List.filter Trace.is_llm
                   ((trace st ++ [Log INFO (ProcessingUrl url)]) ++ added)
                 = List.filter Trace.is_llm (trace st)).
  { rewrite Htrace, !List.filter_app, Hwaited. cbn [List.filter Trace.is_llm].
    rewrite Hclosing, !app_nil_r. reflexivity. }
  assert (Hcount : Trace.count Trace.is_content_line
                     ((trace st ++ [Log INFO (ProcessingUrl url)]) ++ added)
                   = (Trace.count Trace.is_content_line (trace st)
                      + if Trace.is_content_line closing then 1 else 0)%nat).
  { rewrite Htrace. unfold Trace.count.
    rewrite !List.filter_app, Hlines. cbn [List.filter Trace.is_content_line].
    destruct (Trace.is_content_line closing);
      rewrite !length_app; cbn [length app]; lia. }
  rewrite Hline in Hcount.
  rewrite Hrun. cbn [log emit snd self ticks stamps gets llm_runs trace] in *.
  destruct (fetched W st url) as [[|c text]|] eqn:Hfetched.
  - exfalso. apply fetched_long in Hfetched. cbn in Hfetched. lia.
  - clear Hfetched.
    match goal with
    | |- context [structure W (c :: text) url use_llm ?s] =>
        destruct (structure_runs W (c :: text) url use_llm s) as (Hr & Hl & Hc);
        destruct (structure W (c :: text) url use_llm s) as [properties st2]
    end.
    cbn [snd llm_runs trace] in Hr, Hl, Hc.
    destruct (add_metadata_effect W url properties st2)
      as (result & st3 & Hmeta & Htr3 & _ & Hruns3 & _).
    rewrite Hmeta. cbn [snd]. rewrite Htr3, Hruns3, Hr, Hl, Hllm.
    unfold Trace.count in *. rewrite Hc, Hcount.
    destruct use_llm; repeat split; cbn [length]; lia.
  - cbn [snd llm_runs trace length]. split; [lia|].
    split; [rewrite List.filter_app, Hllm; cbn; rewrite !app_nil_r; reflexivity|].
    rewrite count_app, Hcount. cbn. lia.
Qed.

(** X8. A call of [process_url] makes exactly one GET, that of
    [base_url + url], whatever the fetch returns.  The language-model step,
    which posts to the model server, runs once, on the text fetched, when
    [use_llm] is true and the fetch gives a text, and not at all otherwise. *)
Theorem process_url_one_request W url use_llm st :
  let st' := snd (process_url W url use_llm st) in
  let run :=
    match fetched W st url with
    | Some text => if use_llm then [Llm text url] else []
    | None => []
    end in
  gets st' = S (gets st) ∧
  List.filter Trace.is_get (trace st')
  = List.filter Trace.is_get (trace st) ++ [Get (base_url (self st) ++ url)] ∧
  llm_runs st' = (llm_runs st + length run)%nat ∧
  List.filter Trace.is_llm (trace st') = List.filter Trace.is_llm (trace st) ++ run.
Proof.
  cbv zeta.
  destruct (process_url_network W url use_llm st) as [Hgets Hget].
  destruct (process_url_runs W url use_llm st) as (Hruns & Hllm & _).
  auto.
Qed.

(** The line the regex parser leaves is one of its two. *)
Lemma extract_properties_simple_line clean_content url st :
  ∃ e,
    trace (snd (extract_properties_simple clean_content url st)) = trace st ++ [e] ∧
    llm_runs (snd (extract_properties_simple clean_content url st)) = llm_runs st ∧
    Trace.is_regex_line e = true ∧ Trace.is_llm e = false.
Proof.
  unfold extract_properties_simple.
  destruct (scan_sections url (sections_of clean_content) []);
    eexists; repeat split.
Qed.

(** X9. With [use_llm] false, [process_url] never runs the language-model
    step. *)
Theorem process_url_without_llm W url st :
  let st' := snd (process_url W url false st) in
  llm_runs st' = llm_runs st ∧
  List.filter Trace.is_llm (trace st') = List.filter Trace.is_llm (trace st).
Proof.
  cbv zeta. rewrite process_url_unfold.
  pose proof (extract_clean_content_trace W url
                (snd (log INFO (ProcessingUrl url) st)))
    as (waited & closing & Htrace & _ & Hwaited & _ & Hclosing).
  destruct (extract_clean_content_effect W url
              (snd (log INFO (ProcessingUrl url) st)))
    as (added & Hrun & _).
  rewrite Hrun in Htrace. cbn [log emit snd self gets trace] in Htrace.
  assert (Hllm : List.filter Trace.is_llm
                   ((trace st ++ [Log INFO (ProcessingUrl url)]) ++ added)
                 = List.filter Trace.is_llm (trace st)).
  { rewrite Htrace, !List.filter_app, Hwaited. cbn [List.filter Trace.is_llm].
    rewrite Hclosing, !app_nil_r. reflexivity. }
  rewrite Hrun. cbn [log emit snd self ticks stamps gets llm_runs trace] in *.
  destruct (fetched W _ url) as [[|c text]|].
  - cbn [snd llm_runs trace]. split; [reflexivity|].
    rewrite List.filter_app, Hllm. cbn. rewrite app_nil_r. reflexivity.
  - unfold structure.
    match goal with
    | |- context [extract_properties_simple (c :: text) url ?s] =>
        destruct (extract_properties_simple_line (c :: text) url s)
          as (e & Htr & Hruns & _ & He);
        destruct (extract_properties_simple (c :: text) url s)
          as [properties st2]
    end.
    cbn [snd llm_runs trace] in Htr, Hruns.
    destruct (add_metadata_effect W url properties st2)
      as (result & st3 & Hmeta & Htr3 & _ & Hruns3 & _).
    rewrite Hmeta. cbn [snd]. split; [congruence|].
    rewrite Htr3, Htr, List.filter_app, Hllm. cbn [List.filter].
    rewrite He, app_nil_r. reflexivity.
  - cbn [snd llm_runs trace]. split; [reflexivity|].
    rewrite List.filter_app, Hllm. cbn. rewrite app_nil_r. reflexivity.
Qed.

(** X10. When the language-model step returns records, [process_url] returns
    them with the metadata added, and the regex parser is not run. *)
Theorem process_url_uses_llm_result W url st clean_content st1 p ps :
  extract_clean_content W url (snd (log INFO (ProcessingUrl url) st))
  = (Some clean_content, st1) →
  ollama W (llm_runs st1) clean_content url = p :: ps →
  let st2 := snd (extract_property_data_with_llm W clean_content url st1) in
  process_url W url true st = add_metadata W url (p :: ps) st2 ∧
  List.filter Trace.is_regex_line (trace (snd (process_url W url true st)))
  = List.filter Trace.is_regex_line (trace st1).
Proof.
  intros Hfetch Hllm st2.
  assert (Hrun : process_url W url true st = add_metadata W url (p :: ps) st2).
  { rewrite process_url_unfold, Hfetch.
    pose proof (extract_clean_content_some _ _ _ _ _ Hfetch) as Hlen.
    destruct clean_content as [|c content]; [simpl in Hlen; lia|].
    unfold structure, bind, extract_property_data_with_llm at 1.
    rewrite Hllm. reflexivity. }
  split; [exact Hrun|]. rewrite Hrun.
  destruct (add_metadata_effect W url (p :: ps) st2)
    as (result & st3 & -> & Htr & _).
  cbn [snd]. rewrite Htr. subst st2. unfold extract_property_data_with_llm.
  cbn [snd trace]. rewrite List.filter_app. cbn. rewrite app_nil_r. reflexivity.
Qed.

(** With a model server that finds one record, that record is the result. *)
Lemma process_url_uses_llm_result_witness :
  ∃ st2,
    process_url MoreSamples.helpful_world Samples.url true Samples.fresh
    = add_metadata MoreSamples.helpful_world Samples.url
        [MoreSamples.llm_record] st2.
Proof.
  assert (Hfetch :
    extract_clean_content MoreSamples.helpful_world Samples.url
      (snd (log INFO (ProcessingUrl Samples.url) Samples.fresh))
    = (Some (Samples.page 2),
       snd (extract_clean_content MoreSamples.helpful_world Samples.url
              (snd (log INFO (ProcessingUrl Samples.url) Samples.fresh))))).
  { rewrite (surjective_pairing (extract_clean_content _ _ _)) at 1.
    apply f_equal2; [vm_compute; reflexivity|reflexivity]. }
  destruct (process_url_uses_llm_result MoreSamples.helpful_world Samples.url
              Samples.fresh (Samples.page 2) _ MoreSamples.llm_record []
              Hfetch eq_refl) as [Hrun _].
  eexists. exact Hrun.
Defined.

(** ** More on the regex parser *)

Lemma contains_elem c s : contains c s = true ↔ c ∈ s.
Proof.
  unfold contains. rewrite existsb_exists. split.
  - intros (x & Hin & Heq). apply N.eqb_eq in Heq. subst x.
    apply list_elem_of_In. exact Hin.
  - intros Hin. exists c. split; [apply list_elem_of_In; exact Hin|].
    apply N.eqb_refl.
Qed.

Lemma lstrip_elem x s : x ∈ lstrip s → x ∈ s.
Proof.
  induction s as [|c s IH]; [auto|]. cbn [lstrip].
  destruct (is_space c); [intros Hx; right; auto|auto].
Qed.

Lemma strip_elem x s : x ∈ strip s → x ∈ s.
Proof.
  unfold strip. intros Hx.
  apply list_elem_of_In, in_rev, list_elem_of_In, lstrip_elem in Hx.
  apply list_elem_of_In, in_rev, list_elem_of_In, lstrip_elem in Hx.
  exact Hx.
Qed.

Lemma lstrip_length s : (length (lstrip s) ≤ length s)%nat.
Proof.
  induction s as [|c s IH]; [reflexivity|]. cbn [lstrip].
  destruct (is_space c); cbn [length]; lia.
Qed.

Lemma strip_length s : (length (strip s) ≤ length s)%nat.
Proof.
  unfold strip. rewrite length_rev.
  etransitivity; [apply lstrip_length|]. rewrite length_rev. apply lstrip_length.
Qed.

(** No part of a split has the separator. *)
Lemma split_parts_clean c s p : p ∈ Str.split c s → c ∉ p.
Proof.
  revert p. induction s as [|x s IH]; intros p Hp.
  - cbn in Hp. apply list_elem_of_singleton in Hp. subst p. apply not_elem_of_nil.
  - cbn [Str.split] in Hp. destruct (x =? c) eqn:Hx.
    + apply elem_of_cons in Hp as [->|Hp]; [apply not_elem_of_nil|auto].
    + destruct (Str.split c s) as [|q qs] eqn:Hsplit.
      * apply list_elem_of_singleton in Hp. subst p.
        intros Hin. apply list_elem_of_singleton in Hin. subst x.
        rewrite N.eqb_refl in Hx. discriminate.
      * apply elem_of_cons in Hp as [->|Hp].
        -- intros Hin. apply elem_of_cons in Hin as [->|Hin].
           ++ rewrite N.eqb_refl in Hx. discriminate.
           ++ apply (IH q); [left|exact Hin].
        -- apply IH. right. exact Hp.
Qed.

(** The title: its length, and that it is one line. *)
Lemma title_line section :
  let titulo := extract_title_from_section section in
  (6 ≤ length titulo ≤ 99)%nat ∧ NL ∉ titulo.
Proof.
  cbv zeta. unfold extract_title_from_section.
  assert (Hline : ∀ line, line ∈ map strip (Str.split NL section) → NL ∉ line).
  { intros line Hin. apply list_elem_of_fmap in Hin as (p & -> & Hp).
    intros Hnl. apply strip_elem in Hnl. exact (split_parts_clean _ _ _ Hp Hnl). }
  destruct (List.find looks_like_title _) as [line|] eqn:Hfirst.
  - apply find_some in Hfirst as [Hin Htitle]. unfold looks_like_title in Htitle.
    apply andb_true_iff in Htitle as [Hlen _].
    apply andb_true_iff in Hlen as [Hlo Hhi].
    apply Nat.ltb_lt in Hlo. apply Nat.ltb_lt in Hhi. split; [lia|].
    apply Hline, list_elem_of_In, Hin.
  - destruct (List.find (λ line, (5 <? length line)%nat) _) as [line|] eqn:Hsecond.
    + apply find_some in Hsecond as [Hin Hlen]. apply Nat.ltb_lt in Hlen.
      rewrite length_take. split; [lia|].
      intros Hnl. apply (Hline line); [apply list_elem_of_In, Hin|].
      exact (sublist_subseteq _ _ (sublist_take line 80) _ Hnl).
    + split; [vm_compute; split; lia|]. intros Hnl.
      apply contains_elem in Hnl. vm_compute in Hnl. discriminate.
Qed.

(** X11. The title of a section is one line of 6 to 99 characters. *)
Theorem extract_title_from_section_line section :
  let titulo := extract_title_from_section section in
  (6 ≤ length titulo ≤ 99)%nat ∧ NL ∉ titulo.
Proof. apply title_line. Qed.

(** The keys and the types of an address record. *)
Lemma address_shape section (record : dict) :
  extract_address_from_section section = Some record →
  dom record = Shape.address_keys ∧
  (∃ s, record !! "endereco" = Some (VStr s)) ∧
  Shape.none_or_str (record !! "bairro") ∧
  Shape.none_or_str (record !! "cidade") ∧
  (record !! "bairro" = Some VNone → record !! "cidade" = Some VNone).
Proof.
  destruct (Re.findall address_pattern section) as [|m rest] eqn:Hfound.
  { unfold extract_address_from_section. rewrite Hfound. discriminate. }
  rewrite (extract_address_from_section_found _ _ _ Hfound). cbv zeta.
  unfold Shape.address_keys, Shape.none_or_str.
  destruct (contains COMMA (strip m));
    [destruct (contains HYPHEN _)|];
    intros Hrecord; injection Hrecord as <-;
    (split; [rewrite !dom_insert_L, dom_empty_L; set_solver|]);
    (split; [eexists; by simplify_map_eq|]);
    (split; [first [left; by simplify_map_eq | right; eexists; by simplify_map_eq]|]);
    (split; [first [left; by simplify_map_eq | right; eexists; by simplify_map_eq]|]);
    by simplify_map_eq.
Qed.

(** X12. A record of [extract_address_from_section] has the three keys
    endereco, bairro and cidade and no other; its endereco is a string, its
    bairro and cidade are strings or [None], and there is no cidade without
    a bairro. *)
Theorem extract_address_from_section_shape section (record : dict) :
  extract_address_from_section section = Some record →
  dom record = Shape.address_keys ∧
  (∃ s, record !! "endereco" = Some (VStr s)) ∧
  Shape.none_or_str (record !! "bairro") ∧
  Shape.none_or_str (record !! "cidade") ∧
  (record !! "bairro" = Some VNone → record !! "cidade" = Some VNone).
Proof. apply address_shape. Qed.

(** For the sample street the three fields are strings. *)
Lemma extract_address_from_section_shape_witness :
  ∃ record : dict,
    extract_address_from_section Samples.street = Some record ∧
    dom record = Shape.address_keys.
Proof.
  destruct (extract_address_from_section Samples.street) as [record|] eqn:Hrecord.
  - exists record. split; [reflexivity|].
    apply (extract_address_from_section_shape Samples.street record Hrecord).
  - vm_compute in Hrecord. discriminate.
Defined.

(** The steps of the loop body. *)
Lemma property_of_steps url section preco (record : dict) :
  property_of url section preco = Some record →
  ∃ d1 d2 : dict,
    with_int "quartos" (Re.findall room_pattern section)
      (with_address (extract_address_from_section section)
         (blank_property (extract_title_from_section section) preco url))
    = Some d1 ∧
    with_int "banheiros" (Re.findall bath_pattern section) d1 = Some d2 ∧
    record = with_area (Re.findall area_pattern section) d2.
Proof.
  unfold property_of.
  destruct (with_int "quartos" _ _) as [d1|] eqn:Hrooms; [|discriminate].
  destruct (with_int "banheiros" _ _) as [d2|] eqn:Hbaths; [|discriminate].
  intros Hrecord. injection Hrecord as <-. exists d1, d2. auto.
Qed.

Lemma digits_value_nonneg s : ∀ acc z,
  (0 <= acc)%Z → digits_value acc s = Some z → (0 <= z)%Z.
Proof.
  induction s as [|c s IH]; intros acc z Hacc Hvalue; cbn [digits_value] in Hvalue.
  - congruence.
  - destruct (decimal_value c) as [d|]; [|discriminate].
    eapply IH; [|exact Hvalue]. lia.
Qed.

Lemma py_int_nonneg s z : py_int s = Some z → (0 <= z)%Z.
Proof.
  unfold py_int. destruct s as [|c s]; [discriminate|].
  destruct (max_str_digits <? _)%nat; [discriminate|].
  apply digits_value_nonneg. lia.
Qed.

Lemma replace_comma_clean s : contains COMMA (replace_comma s) = false.
Proof.
  unfold contains, replace_comma, COMMA. induction s as [|c s IH]; [reflexivity|].
  cbn [map existsb]. rewrite IH, orb_false_r.
  destruct (c =? 44) eqn:Hc; [reflexivity|].
  rewrite N.eqb_sym. exact Hc.
Qed.

Section Fields.
Variable url : str.

Lemma blank_property_fields titulo preco :
  Shape.fixed_fields url titulo preco (blank_property titulo preco url) ∧
  Shape.typed_fields (blank_property titulo preco url).
Proof.
  unfold Shape.fixed_fields, Shape.typed_fields, blank_property, Shape.property_keys.
  split.
  - split; [rewrite !dom_insert_L, dom_empty_L; set_solver|].
    repeat split; by simplify_map_eq.
  - repeat split; left; by simplify_map_eq.
Qed.

Lemma with_address_fields titulo preco info (d : dict) :
  (∀ record, info = Some record →
     Shape.none_or_str (record !! "endereco") ∧
     Shape.none_or_str (record !! "bairro") ∧
     Shape.none_or_str (record !! "cidade")) →
  Shape.fixed_fields url titulo preco d ∧ Shape.typed_fields d →
  Shape.fixed_fields url titulo preco (with_address info d) ∧
  Shape.typed_fields (with_address info d).
Proof.
  intros Hinfo [Hfixed Htyped]. unfold with_address.
  destruct (truthy info) eqn:Htruthy; [|auto].
  destruct info as [record|]; [|discriminate]. cbn [default].
  destruct (Hinfo record eq_refl) as (He & Hb & Hc).
  assert (Hget : ∀ k, Shape.none_or_str (record !! k) →
                      Shape.none_or_str (Some (get record k))).
  { intros k [Hk|[s Hk]]; unfold get; rewrite Hk; [left|right; eexists];
      reflexivity. }
  unfold Shape.fixed_fields, Shape.typed_fields in *.
  destruct Hfixed as (Hdom & ? & ? & ? & ? & ? & ? & ?).
  destruct Htyped as (? & ? & ? & ? & ? & ?). split.
  - split; [rewrite !dom_insert_L, Hdom; unfold Shape.property_keys; set_solver|].
    repeat split; by simplify_map_eq.
  - repeat split; simplify_map_eq; auto.
Qed.

Lemma with_int_fields titulo preco key found (d d' : dict) :
  key = "quartos"%string ∨ key = "banheiros"%string →
  with_int key found d = Some d' →
  Shape.fixed_fields url titulo preco d ∧ Shape.typed_fields d →
  Shape.fixed_fields url titulo preco d' ∧ Shape.typed_fields d'.
Proof.
  intros Hkey Hrun [Hfixed Htyped]. unfold with_int in Hrun.
  destruct found as [|n found]; [injection Hrun as <-; auto|].
  destruct (py_int n) as [z|] eqn:Hint; [|discriminate].
  injection Hrun as <-. apply py_int_nonneg in Hint.
  unfold Shape.fixed_fields, Shape.typed_fields in *.
  destruct Hfixed as (Hdom & ? & ? & ? & ? & ? & ? & ?).
  destruct Htyped as (? & ? & ? & ? & ? & ?).
  assert (Hcount : Shape.none_or_count (Some (VInt z)))
    by (right; exists z; auto).
  destruct Hkey as [-> | ->]; (split;
    [split; [rewrite !dom_insert_L, Hdom; unfold Shape.property_keys; set_solver|];
     repeat split; by simplify_map_eq
    |repeat split; simplify_map_eq; auto]).
Qed.

Lemma with_area_fields titulo preco found (d : dict) :
  Shape.fixed_fields url titulo preco d ∧ Shape.typed_fields d →
  Shape.fixed_fields url titulo preco (with_area found d) ∧
  Shape.typed_fields (with_area found d).
Proof.
  intros [Hfixed Htyped]. unfold with_area.
  destruct found as [|a found]; [auto|].
  unfold Shape.fixed_fields, Shape.typed_fields in *.
  destruct Hfixed as (Hdom & ? & ? & ? & ? & ? & ? & ?).
  destruct Htyped as (? & ? & ? & ? & ? & ?).
  assert (Hfloat : Shape.none_or_float (Some (VFloat (replace_comma a))))
    by (right; eexists; split; [apply replace_comma_clean|reflexivity]).
  split.
  - split; [rewrite !dom_insert_L, Hdom; unfold Shape.property_keys; set_solver|].
    repeat split; by simplify_map_eq.
  - repeat split; simplify_map_eq; auto.
Qed.

(** The record of a section. *)
Lemma property_of_fields section preco (record : dict) :
  property_of url section preco = Some record →
  Shape.fixed_fields url (extract_title_from_section section) preco record ∧
  Shape.typed_fields record.
Proof.
  intros Hrecord.
  apply property_of_steps in Hrecord as (d1 & d2 & Hrooms & Hbaths & ->).
  apply with_area_fields.
  eapply with_int_fields; [right; reflexivity|exact Hbaths|].
  eapply with_int_fields; [left; reflexivity|exact Hrooms|].
  apply with_address_fields; [|apply blank_property_fields].
  intros info Hinfo.
  destruct (address_shape _ _ Hinfo)
    as (_ & (s & Hs) & Hb & Hc & _).
  split; [right; eauto|auto].
Qed.
End Fields.

(** Every record of the regex parser is the record of a section. *)
Lemma simple_properties_derived clean_content url (record : dict) :
  record ∈ simple_properties clean_content url →
  ∃ section, derived url record section.
Proof.
  unfold simple_properties.
  destruct (scan_sections url (sections_of clean_content) []) as [res|] eqn:Hscan;
    [|intros Hin; inversion Hin].
  destruct (scan_sections_spec _ _ _ _ Hscan) as (new & picked & -> & Hnew & _).
  cbn [app]. intros Hin.
  apply list_elem_of_lookup in Hin as [i Hi].
  destruct (Forall2_lookup_l _ _ _ _ _ Hnew Hi) as (section & _ & Hderived).
  eauto.
Qed.


(** X14. In every record that [extract_properties_simple] returns, endereco,
    bairro and cidade are strings or [None], quartos and banheiros are
    [None] or integers that are not negative, and area_m2 is [None] or a
    float read from a numeral in which the comma has given way to a point. *)
Theorem extract_properties_simple_typed_fields clean_content url st (record : dict) :
  record ∈ fst (extract_properties_simple clean_content url st) →
  Shape.none_or_str (record !! "endereco") ∧
  Shape.none_or_str (record !! "bairro") ∧
  Shape.none_or_str (record !! "cidade") ∧
  Shape.none_or_count (record !! "quartos") ∧
  Shape.none_or_count (record !! "banheiros") ∧
  Shape.none_or_float (record !! "area_m2").
Proof.
  rewrite extract_properties_simple_value. intros Hin.
  apply simple_properties_derived in Hin as (section & preco & more & Hprice & Hrecord).
  apply property_of_fields in Hrecord as [_ Htyped]. exact Htyped.
Qed.

(** The one record of the sample listing. *)
Lemma listing_has_one_record :
  ∃ record : dict,
    fst (extract_properties_simple Samples.listing Samples.url Samples.fresh)
    = [record].
Proof.
  assert (Hlen : length (fst (extract_properties_simple Samples.listing
                                Samples.url Samples.fresh)) = 1%nat)
    by (vm_compute; reflexivity).
  destruct (fst (extract_properties_simple _ _ _)) as [|record [|]];
    try discriminate.
  exists record. reflexivity.
Defined.


Lemma extract_properties_simple_typed_fields_witness :
  ∃ record : dict,
    record ∈ fst (extract_properties_simple Samples.listing Samples.url Samples.fresh) ∧
    Shape.none_or_count (record !! "quartos") ∧
    Shape.none_or_float (record !! "area_m2").
Proof.
  destruct listing_has_one_record as [record Hrecord].
  assert (Hin : record ∈ fst (extract_properties_simple Samples.listing
                                Samples.url Samples.fresh))
    by (rewrite Hrecord; left).
  exists record. split; [exact Hin|].
  destruct (extract_properties_simple_typed_fields _ _ _ _ Hin)
    as (_ & _ & _ & Hq & _ & Ha).
  auto.
Defined.

(** ** Several URLs *)

(** [process_url] leaves the base URL of the object as it is. *)
Lemma process_url_base_url W url use_llm st :
  base_url (self (snd (process_url W url use_llm st))) = base_url (self st).
Proof.
  rewrite process_url_unfold.
  destruct (extract_clean_content_effect W url
              (snd (log INFO (ProcessingUrl url) st)))
    as (added & Hrun & _).
  rewrite Hrun. cbn [log emit snd self base_url].
  destruct (fetched W _ url) as [[|c text]|]; try reflexivity.
  match goal with
  | |- context [structure W (c :: text) url use_llm ?s] =>
      destruct (structure_effect W (c :: text) url use_llm s)
        as (properties & st2 & structuring & Hstructure & _ & _ & _ & Hself & _)
  end.
  rewrite Hstructure.
  destruct (add_metadata_effect W url properties st2)
    as (result & st3 & Hmeta & _ & Hself3 & _).
  rewrite Hmeta. cbn [snd]. rewrite Hself3, Hself. reflexivity.
Qed.

Lemma pauses_app j1 j2 : Batch.pauses (j1 ++ j2) = Batch.pauses j1 ++ Batch.pauses j2.
Proof.
  induction j1 as [|[e|l|q] j1 IH]; cbn [app Batch.pauses]; [reflexivity|..];
    rewrite IH; reflexivity.
Qed.

Lemma pauses_inner events : Batch.pauses (map Batch.Inner events) = [].
Proof. induction events; [reflexivity|assumption]. Qed.

Lemma found_counts_app j1 j2 :
  Batch.found_counts (j1 ++ j2) = Batch.found_counts j1 ++ Batch.found_counts j2.
Proof.
  induction j1 as [|[e|[]|q] j1 IH]; cbn [app Batch.found_counts]; [reflexivity|..];
    rewrite IH; reflexivity.
Qed.

Lemma found_counts_inner events : Batch.found_counts (map Batch.Inner events) = [].
Proof. induction events; [reflexivity|assumption]. Qed.

Section Visits.
Variable W : world.
Variable uniform : nat → Q.

(** The loop, from any URL of the list on: one GET for each URL left, in
    order; a pause after each URL but the last; the records of the calls
    appended, as many as the lines [Found] say. *)
Lemma visit_accounts n use_llm urls :
  ∀ i all_properties b,
    (i + length urls = S n)%nat →
    ∃ added,
      let result := Batch.visit W uniform n i urls use_llm all_properties b in
      let b' := snd result in
      Batch.journal b' = Batch.journal b ++ added ∧
      Batch.pauses added = map uniform (seq (Batch.draws b) (length urls - 1)) ∧
      Batch.draws b' = (Batch.draws b + (length urls - 1))%nat ∧
      (length (fst result)
       = length all_properties + list_sum (Batch.found_counts added))%nat ∧
      gets (Batch.inner b') = (gets (Batch.inner b) + length urls)%nat ∧
      base_url (self (Batch.inner b')) = base_url (self (Batch.inner b)) ∧
      List.filter Trace.is_get (trace (Batch.inner b'))
      = List.filter Trace.is_get (trace (Batch.inner b))
        ++ map (λ url, Get (base_url (self (Batch.inner b)) ++ url)) urls.
Proof.
  induction urls as [|url rest IH]; intros i all_properties b Hi.
  - exists []. cbn. rewrite !app_nil_r. repeat split; lia.
  - cbn [Batch.visit]. unfold Batch.call_process_url.
    cbn [Batch.say Batch.inner Batch.draws Batch.journal].
    pose proof (process_url_network W url use_llm (Batch.inner b)) as [Hgets Hget].
    pose proof (process_url_base_url W url use_llm (Batch.inner b)) as Hbase.
    destruct (process_url W url use_llm (Batch.inner b)) as [properties st'].
    cbn [snd] in Hgets, Hget, Hbase. cbn [length] in Hi.
    destruct (Nat.ltb_spec i n) as [Hmore|Hlast];
      match goal with
      | |- context [Batch.visit W uniform n (S i) rest use_llm ?a ?s] =>
          remember s as b1 eqn:Hb1;
          destruct (IH (S i) a b1 ltac:(lia))
            as (added & Hjournal & Hpauses & Hdraws & Hlen & Hg & Hb & Hf)
      end;
      assert (Hinner : Batch.inner b1 = st') by (subst b1; reflexivity);
      rewrite Hinner in Hg, Hb, Hf;
      cbv zeta; rewrite Hjournal, Hdraws, Hlen, Hg, Hb, Hf, Hgets, Hbase, Hget.
    + exists ([Batch.Line (Batch.Visiting i n url)]
              ++ map Batch.Inner (drop (length (trace (Batch.inner b))) (trace st'))
              ++ [Batch.Line (Batch.Found (length properties))]
              ++ [Batch.Pause (uniform (Batch.draws b))] ++ added).
      assert (Hd1 : Batch.draws b1 = S (Batch.draws b)) by (subst b1; reflexivity).
      rewrite Hd1 in *.
      split; [subst b1; cbn [Batch.pause Batch.say Batch.journal];
              rewrite <- !app_assoc; reflexivity|].
      rewrite !pauses_app, pauses_inner, !found_counts_app, found_counts_inner.
      cbn [Batch.pauses Batch.found_counts app list_sum]. rewrite Hpauses.
      destruct rest as [|url' rest]; [cbn [length] in Hi; lia|].
      cbn [length seq map Nat.sub]. rewrite !Nat.sub_0_r, length_app.
      repeat split; try lia; try (simpl; lia); rewrite <- app_assoc; reflexivity.
    + assert (rest = []) as ->
        by (destruct rest; [reflexivity|cbn [length] in Hi; lia]).
      exists ([Batch.Line (Batch.Visiting i n url)]
              ++ map Batch.Inner (drop (length (trace (Batch.inner b))) (trace st'))
              ++ [Batch.Line (Batch.Found (length properties))] ++ added).
      assert (Hd1 : Batch.draws b1 = Batch.draws b) by (subst b1; reflexivity).
      rewrite Hd1 in *.
      split; [subst b1; cbn [Batch.pause Batch.say Batch.journal];
              rewrite <- !app_assoc; reflexivity|].
      rewrite !pauses_app, pauses_inner, !found_counts_app, found_counts_inner.
      cbn [Batch.pauses Batch.found_counts app list_sum]. rewrite Hpauses.
      cbn [length seq map Nat.sub]. rewrite length_app.
      repeat split; try lia; try (simpl; lia); rewrite <- app_assoc; reflexivity.
Qed.
End Visits.

Section Runs.
Variable W : world.
Variable uniform : nat → Q.

(** The loop, from any URL of the list on: the language-model step runs
    once for each URL whose fetch gives a text when [use_llm] is true, and
    not otherwise. *)
Lemma visit_runs n use_llm urls :
  ∀ i all_properties b,
    ∃ texts : nat,
      let b' := snd (Batch.visit W uniform n i urls use_llm all_properties b) in
      let runs := if use_llm then texts else 0%nat in
      (texts ≤ length urls)%nat ∧
      Trace.count Trace.is_content_line (trace (Batch.inner b'))
      = (Trace.count Trace.is_content_line (trace (Batch.inner b)) + texts)%nat ∧
      llm_runs (Batch.inner b') = (llm_runs (Batch.inner b) + runs)%nat ∧
      Trace.count Trace.is_llm (trace (Batch.inner b'))
      = (Trace.count Trace.is_llm (trace (Batch.inner b)) + runs)%nat.
Proof.
  induction urls as [|url rest IH]; intros i all_properties b.
  - exists 0%nat. cbn. destruct use_llm; repeat split; lia.
  - cbn [Batch.visit]. unfold Batch.call_process_url.
    cbn [Batch.say Batch.inner Batch.draws Batch.journal].
    pose proof (process_url_runs W url use_llm (Batch.inner b))
      as (Hruns & Hllm & Hlines).
    cbv zeta in Hruns, Hllm, Hlines.
    apply (f_equal (@length _)) in Hllm. rewrite length_app in Hllm.
    fold (Trace.count Trace.is_llm (trace (process_url W url use_llm (Batch.inner b)).2))
      in Hllm.
    fold (Trace.count Trace.is_llm (trace (Batch.inner b))) in Hllm.
    destruct (process_url W url use_llm (Batch.inner b)) as [properties st'].
    cbn [snd] in Hruns, Hllm, Hlines.
    match goal with
    | |- context [Batch.visit W uniform n (S i) rest use_llm ?a ?s] =>
        remember s as b1 eqn:Hb1;
        destruct (IH (S i) a b1) as (texts & Hle & Hc & Hr & Hl)
    end.
    assert (Hinner : Batch.inner b1 = st')
      by (subst b1; destruct (i <? n)%nat; reflexivity).
    cbv zeta in Hc, Hr, Hl. rewrite Hinner in Hc, Hr, Hl.
    exists (match fetched W (Batch.inner b) url with Some _ => 1 | None => 0 end
            + texts)%nat.
    cbv zeta. rewrite Hc, Hr, Hl, Hruns, Hllm, Hlines. cbn [length].
    destruct (fetched W (Batch.inner b) url), use_llm; cbn [length];
      repeat split; lia.
Qed.
End Runs.

(** X15. [process_multiple_urls] makes exactly one GET for each URL, that of
    [base_url + url], in the order of the list, and none for the empty list.
    The language-model step, which posts to the model server, runs as many
    times as fetches give a text when [use_llm] is true, at most once for
    each URL, and not at all when [use_llm] is false. *)
Theorem process_multiple_urls_requests W uniform urls use_llm b :
  let b' := snd (Batch.process_multiple_urls W uniform urls use_llm b) in
  gets (Batch.inner b') = (gets (Batch.inner b) + length urls)%nat ∧
  List.filter Trace.is_get (trace (Batch.inner b'))
  = List.filter Trace.is_get (trace (Batch.inner b))
    ++ map (λ url, Get (base_url (self (Batch.inner b)) ++ url)) urls ∧
  ∃ texts : nat,
    let runs := if use_llm then texts else 0%nat in
    (texts ≤ length urls)%nat ∧
    Trace.count Trace.is_content_line (trace (Batch.inner b'))
    = (Trace.count Trace.is_content_line (trace (Batch.inner b)) + texts)%nat ∧
    llm_runs (Batch.inner b') = (llm_runs (Batch.inner b) + runs)%nat ∧
    Trace.count Trace.is_llm (trace (Batch.inner b'))
    = (Trace.count Trace.is_llm (trace (Batch.inner b)) + runs)%nat.
Proof.
  cbv zeta. unfold Batch.process_multiple_urls.
  destruct (visit_accounts W uniform (length urls) use_llm urls 1 []
              (Batch.say (Batch.Starting (length urls)) b) eq_refl)
    as (added & _ & _ & _ & _ & Hgets & _ & Hget).
  destruct (visit_runs W uniform (length urls) use_llm urls 1 []
              (Batch.say (Batch.Starting (length urls)) b))
    as (texts & Hruns).
  cbv zeta in Hgets, Hget, Hruns.
  destruct (Batch.visit _ _ _ _ _ _ _ _) as [all_properties b'].
  cbn [snd Batch.say Batch.inner] in *.
  split; [exact Hgets|]. split; [exact Hget|]. exists texts. exact Hruns.
Qed.

(** X16. [process_multiple_urls] pauses after every URL but the last, each
    time for a fresh random draw, and not at all for fewer than two URLs. *)
Theorem process_multiple_urls_pauses W uniform urls use_llm b :
  let b' := snd (Batch.process_multiple_urls W uniform urls use_llm b) in
  Batch.pauses (Batch.journal b')
  = Batch.pauses (Batch.journal b)
    ++ map uniform (seq (Batch.draws b) (length urls - 1)) ∧
  Batch.draws b' = (Batch.draws b + (length urls - 1))%nat.
Proof.
  cbv zeta. unfold Batch.process_multiple_urls.
  destruct (visit_accounts W uniform (length urls) use_llm urls 1 []
              (Batch.say (Batch.Starting (length urls)) b) eq_refl)
    as (added & Hjournal & Hpauses & Hdraws & _).
  cbv zeta in Hjournal, Hdraws.
  destruct (Batch.visit _ _ _ _ _ _ _ _) as [all_properties b'].
  cbn [snd Batch.say Batch.inner Batch.draws Batch.journal] in *.
  rewrite Hjournal, !pauses_app, Hpauses. cbn [Batch.pauses].
  rewrite !app_nil_r. auto.
Qed.

(** X17. The number of records [process_multiple_urls] returns is the sum of
    the numbers it reports URL by URL, and the number of its closing line. *)
Theorem process_multiple_urls_total W uniform urls use_llm b :
  let result := fst (Batch.process_multiple_urls W uniform urls use_llm b) in
  let b' := snd (Batch.process_multiple_urls W uniform urls use_llm b) in
  ∃ added,
    Batch.journal b' = Batch.journal b ++ added ∧
    length result = list_sum (Batch.found_counts added) ∧
    last added = Some (Batch.Line (Batch.Total (length result))).
Proof.
  cbv zeta. unfold Batch.process_multiple_urls.
  destruct (visit_accounts W uniform (length urls) use_llm urls 1 []
              (Batch.say (Batch.Starting (length urls)) b) eq_refl)
    as (added & Hjournal & _ & _ & Hlen & _).
  cbv zeta in Hjournal, Hlen.
  destruct (Batch.visit _ _ _ _ _ _ _ _) as [all_properties b'].
  cbn [fst snd Batch.say Batch.inner Batch.draws Batch.journal length] in *.
  exists ([Batch.Line (Batch.Starting (length urls))] ++ added
          ++ [Batch.Line (Batch.Total (length all_properties))]).
  split; [rewrite Hjournal, <- !app_assoc; reflexivity|].
  split.
  - rewrite !found_counts_app. cbn [Batch.found_counts]. rewrite app_nil_r.
    exact Hlen.
  - rewrite app_assoc. apply last_snoc.
Qed.

(** ** Cleaning the address fields *)

Section Cleaned.
Variable float_truthy : str → bool.


(** What one of the two steps does. *)
Lemma fill_cases field c k address (d d' : dict) :
  Cleaning.fill float_truthy field c k address d = Some d' →
  d' = d ∨
  ∃ last others, d' = <["endereco" := VStr others]> (<[field := VStr last]> d).
Proof.
  unfold Cleaning.fill.
  destruct (Cleaning.truth float_truthy (get d field)); [left; congruence|].
  destruct (Cleaning.split_off c k address) as [[[last others]|]|];
    [|left; congruence|discriminate].
  intros Hd. injection Hd as <-. right. eauto.
Qed.

(** On a string, a step does not raise and splits at the separator. *)
Lemma split_off_str c k a :
  Cleaning.split_off c k (VStr a) =
  Some (if contains c a
        then Some (last_part (Cleaning.parts c a),
                   join c (but_last (Cleaning.parts c a)))
        else None).
Proof.
  unfold Cleaning.split_off, Cleaning.has, Cleaning.parts.
  rewrite length_map, split_more_than_one.
  destruct (contains c a); reflexivity.
Qed.

(** X18. [clean_address_fields] changes no key other than endereco, bairro
    and cidade, and takes no key away. *)
Theorem clean_address_fields_frame (d d' : dict) :
  Cleaning.clean_address_fields float_truthy d = Some d' →
  (∀ k, k ≠ "endereco"%string → k ≠ "bairro"%string → k ≠ "cidade"%string →
        d' !! k = d !! k) ∧
  dom d ⊆ dom d'.
Proof.
  unfold Cleaning.clean_address_fields.
  destruct (d !! "endereco") as [address|]; [|intros Hd; injection Hd as <-; auto].
  destruct (Cleaning.truth float_truthy address);
    [|intros Hd; injection Hd as <-; auto].
  destruct (Cleaning.fill float_truthy "bairro" _ _ address d) as [d1|] eqn:Hfirst;
    [|discriminate].
  intros Hsecond.
  apply fill_cases in Hfirst as [->|(b & e & ->)];
    apply fill_cases in Hsecond as [->|(c & e' & ->)];
    (split; [intros k ? ? ?; by simplify_map_eq
            |rewrite ?dom_insert_L; set_solver]).
Qed.

(** X19. [clean_address_fields] leaves the record as it is when it has no
    endereco or an empty one, and when its bairro and cidade are both
    filled. *)
Theorem clean_address_fields_idle (d : dict) :
  Cleaning.truth float_truthy (get d "endereco") = false ∨
  (Cleaning.truth float_truthy (get d "bairro") = true ∧
   Cleaning.truth float_truthy (get d "cidade") = true) →
  Cleaning.clean_address_fields float_truthy d = Some d.
Proof.
  intros Hidle. unfold Cleaning.clean_address_fields.
  destruct (d !! "endereco") as [address|] eqn:Haddress; [|reflexivity].
  assert (get d "endereco" = address) as Hget
    by (unfold get; rewrite Haddress; reflexivity).
  rewrite Hget in Hidle. destruct Hidle as [->|[Hbairro Hcidade]]; [reflexivity|].
  destruct (Cleaning.truth float_truthy address); [|reflexivity].
  unfold Cleaning.fill. rewrite Hbairro, Hcidade. reflexivity.
Qed.

(** X20. On a record whose endereco is a string, [clean_address_fields] does
    not raise.  An empty bairro is filled with the last comma-separated part
    of the address when there is a comma, an empty cidade with its last
    hyphen-separated part when there is a hyphen; the endereco becomes the
    address without its last hyphen-separated part when the cidade was
    filled, and otherwise the address without its last comma-separated part
    when the bairro was filled. *)
Theorem clean_address_fields_str (d : dict) (address : str) :
  d !! "endereco" = Some (VStr address) →
  let by_comma :=
    negb (Cleaning.truth float_truthy (get d "bairro")) && contains COMMA address in
  let by_hyphen :=
    negb (Cleaning.truth float_truthy (get d "cidade")) && contains HYPHEN address in
  ∃ d' : dict,
    Cleaning.clean_address_fields float_truthy d = Some d' ∧
    d' !! "bairro" =
      (if by_comma
       then Some (VStr (last_part (Cleaning.parts COMMA address)))
       else d !! "bairro") ∧
    d' !! "cidade" =
      (if by_hyphen
       then Some (VStr (last_part (Cleaning.parts HYPHEN address)))
       else d !! "cidade") ∧
    d' !! "endereco" =
      Some (VStr (if by_hyphen
                  then join HYPHEN (but_last (Cleaning.parts HYPHEN address))
                  else if by_comma
                       then join COMMA (but_last (Cleaning.parts COMMA address))
                       else address)).
Proof.
  intros Haddress. cbv zeta. unfold Cleaning.clean_address_fields.
  rewrite Haddress. cbn [Cleaning.truth].
  destruct address as [|x address].
  { cbn [contains existsb]. rewrite !andb_false_r. eauto. }
  set (a := x :: address) in *.
  unfold Cleaning.fill. rewrite !split_off_str.
  destruct (Cleaning.truth float_truthy (get d "bairro")) eqn:Hbairro; cbn [negb andb].
  - destruct (Cleaning.truth float_truthy (get d "cidade")) eqn:Hcidade;
      cbn [negb andb]; [eauto|].
    destruct (contains HYPHEN a); [|eauto].
    eexists. split; [reflexivity|]. repeat split; by simplify_map_eq.
  - destruct (contains COMMA a).
    + match goal with
      | |- context [get ?m "cidade"] =>
          lazymatch m with
          | d => fail
          | _ => replace (get m "cidade") with (get d "cidade")
                   by (unfold get; by simplify_map_eq)
          end
      end.
      destruct (Cleaning.truth float_truthy (get d "cidade")) eqn:Hcidade; cbn [negb andb].
      * eexists. split; [reflexivity|]. repeat split; by simplify_map_eq.
      * destruct (contains HYPHEN a);
          (eexists; split; [reflexivity|]; repeat split; by simplify_map_eq).
    + destruct (Cleaning.truth float_truthy (get d "cidade")) eqn:Hcidade;
        cbn [negb andb]; [eauto|].
      destruct (contains HYPHEN a); [|eauto].
      eexists. split; [reflexivity|]. repeat split; by simplify_map_eq.
Qed.
End Cleaned.

Lemma clean_address_fields_frame_witness :
  ∃ d' : dict,
    Cleaning.clean_address_fields CleaningSamples.nonzero CleaningSamples.raw
    = Some d' ∧
    d' !! "preco" = CleaningSamples.raw !! "preco" ∧
    dom CleaningSamples.raw ⊆ dom d'.
Proof.
  destruct (Cleaning.clean_address_fields CleaningSamples.nonzero
              CleaningSamples.raw) as [d'|] eqn:Hclean;
    [|vm_compute in Hclean; discriminate].
  exists d'. split; [reflexivity|].
  destruct (clean_address_fields_frame _ _ _ Hclean) as [Hframe Hdom].
  split; [apply Hframe; discriminate|exact Hdom].
Defined.

Lemma clean_address_fields_idle_witness :
  Cleaning.truth CleaningSamples.nonzero (get CleaningSamples.filled "bairro") = true ∧
  Cleaning.truth CleaningSamples.nonzero (get CleaningSamples.filled "cidade") = true ∧
  Cleaning.clean_address_fields CleaningSamples.nonzero CleaningSamples.filled
  = Some CleaningSamples.filled.
Proof.
  assert (Cleaning.truth CleaningSamples.nonzero
            (get CleaningSamples.filled "bairro") = true) as Hbairro
    by (vm_compute; reflexivity).
  assert (Cleaning.truth CleaningSamples.nonzero
            (get CleaningSamples.filled "cidade") = true) as Hcidade
    by (vm_compute; reflexivity).
  split; [exact Hbairro|]. split; [exact Hcidade|].
  apply clean_address_fields_idle. right. split; assumption.
Defined.

Lemma clean_address_fields_str_witness :
  CleaningSamples.raw !! "endereco"
  = Some (VStr (lit "Rua das Flores, 120, Centro - Curitiba")) ∧
  ∃ d' : dict,
    Cleaning.clean_address_fields CleaningSamples.nonzero CleaningSamples.raw
    = Some d' ∧
    d' !! "bairro" = Some (VStr (lit "Centro - Curitiba")) ∧
    d' !! "cidade" = Some (VStr (lit "Curitiba")) ∧
    d' !! "endereco" = Some (VStr (lit "Rua das Flores, 120, Centro")).
Proof.
  assert (CleaningSamples.raw !! "endereco"
          = Some (VStr (lit "Rua das Flores, 120, Centro - Curitiba"))) as Haddress
    by (vm_compute; reflexivity).
  split; [exact Haddress|].
  destruct (clean_address_fields_str CleaningSamples.nonzero _ _ Haddress)
    as (d' & Hclean & Hbairro & Hcidade & Hendereco).
  exists d'. split; [exact Hclean|].
  split; [rewrite Hbairro; vm_compute; reflexivity|].
  split; [rewrite Hcidade; vm_compute; reflexivity|].
  rewrite Hendereco; vm_compute; reflexivity.
Defined.

(** ** The columns of the CSV file *)

Lemma priority_cols_NoDup : NoDup Csv.priority_cols.
Proof. apply (bool_decide_unpack _). vm_compute. exact I. Qed.

Lemma descricao_no_priority : "descricao"%string ∉ Csv.priority_cols.
Proof. apply (bool_decide_unpack _). vm_compute. exact I. Qed.

Lemma existing_priority_elem col columns :
  col ∈ Csv.existing_priority columns ↔ (col ∈ Csv.priority_cols) ∧ (col ∈ columns).
Proof.
  unfold Csv.existing_priority. rewrite list_elem_of_filter. tauto.
Qed.

Lemma other_cols_elem col columns :
  col ∈ Csv.other_cols columns ↔
  (col ∈ columns) ∧ (col ∉ Csv.priority_cols) ∧ (col ≠ "descricao"%string).
Proof.
  unfold Csv.other_cols. rewrite list_elem_of_filter, existing_priority_elem.
  split.
  - intros [[Hno Hd] Hin]. split; [exact Hin|]. split; [|exact Hd].
    intros Hp. apply Hno. auto.
  - intros (Hin & Hno & Hd). split; [|exact Hin]. split; [|exact Hd].
    intros [Hp _]. auto.
Qed.

(** X21. The columns of the CSV file are the columns of the frame without
    descricao, each one once: no other column is lost and none is added. *)
Theorem csv_columns_complete (columns : list string) :
  NoDup columns →
  Csv.csv_columns columns ≡ₚ filter (fun col => col ≠ "descricao"%string) columns.
Proof.
  intros Hnodup. apply NoDup_Permutation.
  - unfold Csv.csv_columns. apply NoDup_app. split; [|split].
    + apply NoDup_filter, priority_cols_NoDup.
    + intros col Hfirst Hother.
      apply existing_priority_elem in Hfirst as [Hp _].
      apply other_cols_elem in Hother as (_ & Hno & _). auto.
    + apply NoDup_filter, Hnodup.
  - apply NoDup_filter, Hnodup.
  - intros col. unfold Csv.csv_columns.
    rewrite elem_of_app, existing_priority_elem, other_cols_elem,
      list_elem_of_filter.
    split.
    + intros [[Hp Hin]|(Hin & _ & Hd)]; [|auto].
      split; [|exact Hin]. intros ->. exact (descricao_no_priority Hp).
    + intros [Hd Hin]. destruct (decide (col ∈ Csv.priority_cols)); auto.
Qed.

Lemma csv_columns_complete_witness :
  NoDup ["url"; "descricao"; "preco"; "titulo"]%string ∧
  Csv.csv_columns ["url"; "descricao"; "preco"; "titulo"]%string
  ≡ₚ filter (fun col => col ≠ "descricao"%string)
            ["url"; "descricao"; "preco"; "titulo"]%string.
Proof.
  assert (NoDup ["url"; "descricao"; "preco"; "titulo"]%string) as Hnodup
    by (apply (bool_decide_unpack _); vm_compute; exact I).
  split; [exact Hnodup|]. apply csv_columns_complete. exact Hnodup.
Defined.


(** ** The URLs typed by the user *)

Section Typed.
Variable urlparse_netloc : str → option str.

Lemma startswith_prefix w s : startswith w s = true → ∃ s', s = w ++ s'.
Proof.
  revert s. induction w as [|a w IH]; intros s; [eauto|].
  destruct s as [|b s]; [discriminate|]. cbn [startswith].
  intros [Hab Hrest]%andb_true_iff. apply N.eqb_eq in Hab as ->.
  destruct (IH _ Hrest) as [s' ->]. eauto.
Qed.

Lemma typed_urls_clean urls_input url :
  url ∈ Main.typed_urls urls_input → url ≠ [] ∧ (COMMA ∉ url).
Proof.
  unfold Main.typed_urls. intros Hurl.
  apply list_elem_of_fmap in Hurl as (part & -> & Hpart).
  apply list_elem_of_In, filter_In in Hpart as [Hpart Hfull].
  apply list_elem_of_In in Hpart. split.
  - intros Hempty. rewrite Hempty in Hfull. discriminate.
  - intros Hcomma. apply strip_elem in Hcomma.
    exact (split_parts_clean _ _ _ Hpart Hcomma).
Qed.

Lemma with_scheme_starts url :
  startswith (lit "http://") (Main.with_scheme url) = true ∨
  startswith (lit "https://") (Main.with_scheme url) = true.
Proof.
  unfold Main.with_scheme.
  destruct (startswith (lit "http://") url) eqn:Hhttp; [auto|].
  destruct (startswith (lit "https://") url) eqn:Hhttps; [auto|].
  right. reflexivity.
Qed.

Lemma with_scheme_comma url : COMMA ∉ url → COMMA ∉ Main.with_scheme url.
Proof.
  unfold Main.with_scheme. intros Hurl.
  destruct (_ || _); [exact Hurl|].
  rewrite elem_of_app. intros [Hprefix|Hrest]; [|auto].
  revert Hprefix. apply (bool_decide_unpack _). vm_compute. exact I.
Qed.

Lemma validate_elem urls url :
  url ∈ (Main.validate urlparse_netloc urls).1 →
  ∃ typed c netloc, (typed ∈ urls) ∧ url = Main.with_scheme typed ∧
                    urlparse_netloc url = Some (c :: netloc).
Proof.
  induction urls as [|u urls IH]; cbn [Main.validate].
  - intros Hurl. apply elem_of_nil in Hurl. contradiction.
  - destruct (Main.validate urlparse_netloc urls) as [valid printed].
    unfold Main.check.
    destruct (urlparse_netloc (Main.with_scheme u)) as [[|c netloc]|] eqn:Hnet;
      cbn [fst] in *.
    + intros Hurl. destruct (IH Hurl) as (t & c & n & Ht & Hrest).
      exists t, c, n. split; [right; exact Ht|exact Hrest].
    + intros Hurl. apply elem_of_cons in Hurl as [->|Hurl].
      * exists u, c, netloc. split; [left|]. split; [reflexivity|exact Hnet].
      * destruct (IH Hurl) as (t & c' & n & Ht & Hrest).
        exists t, c', n. split; [right; exact Ht|exact Hrest].
    + intros Hurl. destruct (IH Hurl) as (t & c & n & Ht & Hrest).
      exists t, c, n. split; [right; exact Ht|exact Hrest].
Qed.

Lemma validate_length urls :
  (length (Main.validate urlparse_netloc urls).1 +
   length (Main.validate urlparse_netloc urls).2 = length urls)%nat.
Proof.
  induction urls as [|u urls IH]; [reflexivity|]. cbn [Main.validate].
  destruct (Main.validate urlparse_netloc urls) as [valid printed].
  cbn [fst snd] in IH. destruct (Main.check urlparse_netloc u);
    cbn [fst snd length]; lia.
Qed.

(** X23. Every URL that the validation passes on starts with http:// or
    https://, has no comma, and has a non-empty network location. *)
Theorem valid_urls_wellformed (urls_input url : str) :
  url ∈ Main.valid_urls urlparse_netloc urls_input →
  (startswith (lit "http://") url = true ∨
   startswith (lit "https://") url = true) ∧
  (COMMA ∉ url) ∧
  (∃ c netloc, urlparse_netloc url = Some (c :: netloc)).
Proof.
  unfold Main.valid_urls. intros Hurl.
  apply validate_elem in Hurl as (typed & c & netloc & Htyped & -> & Hnet).
  apply typed_urls_clean in Htyped as [_ Hcomma].
  split; [apply with_scheme_starts|]. split; [apply with_scheme_comma, Hcomma|].
  eauto.
Qed.

(** X24. Every non-blank part of the line typed by the user is either passed
    on or printed as invalid: the two lists together are as long as the
    list of the parts. *)
Theorem validate_accounts (urls_input : str) :
  (length (Main.valid_urls urlparse_netloc urls_input) +
   length (Main.invalid_urls urlparse_netloc urls_input) =
   length (Main.typed_urls urls_input))%nat.
Proof. apply validate_length. Qed.
End Typed.

Lemma valid_urls_wellformed_witness :
  (lit "https://casa.com.br/venda"
   ∈ Main.valid_urls (fun url => Some (drop 8 url)) (lit "casa.com.br/venda, ")) ∧
  (COMMA ∉ lit "https://casa.com.br/venda").
Proof.
  assert (lit "https://casa.com.br/venda"
          ∈ Main.valid_urls (fun url => Some (drop 8 url))
              (lit "casa.com.br/venda, ")) as Hin.
  { replace (Main.valid_urls _ _) with [lit "https://casa.com.br/venda"]
      by (vm_compute; reflexivity).
    left. }
  split; [exact Hin|].
  exact (proj1 (proj2 (valid_urls_wellformed _ _ _ Hin))).
Defined.

(** ** The matcher returns texts of the pattern *)

Lemma star_sound {R} p s (k : str → option R) res :
  Re.star p s k = Some res →
  ∃ t s', s = t ++ s' ∧ forallb p t = true ∧ k s' = Some res.
Proof.
  induction s as [|x s IH]; cbn [Re.star].
  - intros Hk. exists [], []. auto.
  - destruct (p x) eqn:Hx.
    + destruct (Re.star p s k) as [r|] eqn:Hstar.
      * intros Hres. injection Hres as ->.
        destruct (IH eq_refl) as (t & s' & -> & Ht & Hk).
        exists (x :: t), s'. cbn [forallb]. rewrite Hx, Ht. auto.
      * intros Hk. exists [], (x :: s). auto.
    + intros Hk. exists [], (x :: s). auto.
Qed.

Lemma rmatch_sound {R} r : ∀ s g (k : str → option str → option R) res,
  Re.rmatch r s g k = Some res →
  ∃ t s' g', s = t ++ s' ∧ Lang.lang r t ∧ k s' g' = Some res ∧
             (Lang.groupless r = true → g' = g).
Proof.
  induction r as [|p|r1 IH1 r2 IH2|r1 IH1 r2 IH2|r1 IH1|p|r1 IH1];
    intros s g k res; cbn [Re.rmatch Lang.lang Lang.groupless].
  - intros Hk. exists [], s, g. auto.
  - destruct s as [|x s]; [discriminate|].
    destruct (p x) eqn:Hx; [|discriminate].
    intros Hk. exists [x], s, g. eauto 10.
  - intros Hm. apply IH1 in Hm as (t1 & s1 & g1 & -> & Ht1 & Hm & Hg1).
    apply IH2 in Hm as (t2 & s2 & g2 & -> & Ht2 & Hk & Hg2).
    exists (t1 ++ t2), s2, g2. rewrite app_assoc.
    split; [reflexivity|]. split; [eauto|]. split; [exact Hk|].
    intros [H1 H2]%andb_true_iff. rewrite Hg2, Hg1; auto.
  - destruct (Re.rmatch r1 s g k) as [r|] eqn:Hfirst.
    + intros Hres. injection Hres as ->.
      apply IH1 in Hfirst as (t & s' & g' & -> & Ht & Hk & Hg).
      exists t, s', g'. split; [reflexivity|]. split; [auto|]. split; [exact Hk|].
      intros [H1 _]%andb_true_iff. auto.
    + intros Hsecond.
      apply IH2 in Hsecond as (t & s' & g' & -> & Ht & Hk & Hg).
      exists t, s', g'. split; [reflexivity|]. split; [auto|]. split; [exact Hk|].
      intros [_ H2]%andb_true_iff. auto.
  - destruct (Re.rmatch r1 s g k) as [r|] eqn:Hfirst.
    + intros Hres. injection Hres as ->.
      apply IH1 in Hfirst as (t & s' & g' & -> & Ht & Hk & Hg).
      exists t, s', g'. auto.
    + intros Hk. exists [], s, g. auto.
  - intros Hm. apply star_sound in Hm as (t & s' & -> & Ht & Hk).
    exists t, s', g. auto.
  - intros Hm. apply IH1 in Hm as (t & s' & g' & -> & Ht & Hk & _).
    eexists t, s', _. split; [reflexivity|]. split; [exact Ht|].
    split; [exact Hk|discriminate].
Qed.

Lemma match_at_sound r s len g :
  Re.match_at r s = Some (len, g) →
  ∃ s', s = take len s ++ s' ∧ Lang.lang r (take len s) ∧
        (Lang.groupless r = true → g = None).
Proof.
  unfold Re.match_at. intros Hm.
  apply rmatch_sound in Hm as (t & s' & g' & -> & Ht & Hk & Hg).
  injection Hk as <- <-. rewrite length_app.
  replace (length t + length s' - length s')%nat with (length t) by lia.
  rewrite take_app_length. eauto.
Qed.

Lemma finditer_sound r : ∀ s skip m,
  m ∈ Re.finditer r s skip →
  Lang.lang r m.1 ∧ (∃ before after, s = before ++ m.1 ++ after) ∧
  (Lang.groupless r = true → m.2 = None).
Proof.
  induction s as [|x s IH]; intros skip m; cbn [Re.finditer].
  - intros Hm. apply elem_of_nil in Hm. contradiction.
  - assert (∀ n, m ∈ Re.finditer r s n →
                 Lang.lang r m.1 ∧
                 (∃ before after, x :: s = before ++ m.1 ++ after) ∧
                 (Lang.groupless r = true → m.2 = None)) as Hlater.
    { intros n Hm. apply IH in Hm as (Hl & (before & after & ->) & Hg).
      split; [exact Hl|]. split; [|exact Hg].
      exists (x :: before), after. reflexivity. }
    destruct skip as [|n]; [|apply Hlater].
    destruct (Re.match_at r (x :: s)) as [[len g]|] eqn:Hmatch; [|apply Hlater].
    intros Hm. apply elem_of_cons in Hm as [->|Hm]; [|eapply Hlater, Hm].
    apply match_at_sound in Hmatch as (s' & Hs & Hl & Hg). cbn [fst snd].
    split; [exact Hl|]. split; [|exact Hg].
    exists [], s'. exact Hs.
Qed.

Lemma findall_sound r s t :
  Lang.groupless r = true → t ∈ Re.findall r s →
  Lang.lang r t ∧ ∃ before after, s = before ++ t ++ after.
Proof.
  unfold Re.findall. intros Hr Ht.
  apply list_elem_of_fmap in Ht as (m & -> & Hm).
  apply finditer_sound in Hm as (Hl & Hin & Hg).
  rewrite (Hg Hr). auto.
Qed.

(** The characters that match a letter whatever its case. *)
Lemma sre_lower_cases x y :
  Re.sre_lower x = y →
  x = y ∨ (x + 32 = y ∧ 65 ≤ x ≤ 90) ∨ (x + 32 = y ∧ 192 ≤ x ≤ 222) ∨
  (x = 304 ∧ y = 105) ∨ (x = 376 ∧ y = 255) ∨ (x = 7838 ∧ y = 223) ∨
  (x = 8490 ∧ y = 107) ∨ (x = 8491 ∧ y = 229).
Proof.
  unfold Re.sre_lower. intros Hy. repeat case_match; subst;
    repeat match goal with
           | H : _ && _ = true |- _ => apply andb_true_iff in H as [? ?]
           | H : (_ <=? _) = true |- _ => apply N.leb_le in H
           | H : (_ =? _) = true |- _ => apply N.eqb_eq in H
           | H : negb _ = true |- _ => clear H
           | H : _ = false |- _ => clear H
           end; lia.
Qed.

Lemma ci_cases c x :
  Re.ci c x = true →
  Re.sre_lower x = Re.sre_lower c ∨
  (Re.sre_lower c = 105 ∧ x = 305) ∨ (Re.sre_lower c = 115 ∧ x = 383).
Proof.
  unfold Re.ci. cbv zeta.
  rewrite !orb_true_iff, !andb_true_iff, !N.eqb_eq. tauto.
Qed.

Lemma ci_R x : Re.ci 82 x = true → x = 82 ∨ x = 114.
Proof.
  intros Hx. apply ci_cases in Hx as [Hx|[[Hx _]|[Hx _]]];
    [|vm_compute in Hx; discriminate..].
  change (Re.sre_lower 82) with 114 in Hx.
  apply sre_lower_cases in Hx. lia.
Qed.

Lemma ci_m x : Re.ci 109 x = true → x = 77 ∨ x = 109.
Proof.
  intros Hx. apply ci_cases in Hx as [Hx|[[Hx _]|[Hx _]]];
    [|vm_compute in Hx; discriminate..].
  change (Re.sre_lower 109) with 109 in Hx.
  apply sre_lower_cases in Hx. lia.
Qed.

Lemma ci_i x : Re.ci 105 x = true → x = 73 ∨ x = 105 ∨ x = 304 ∨ x = 305.
Proof.
  intros Hx. apply ci_cases in Hx as [Hx|[[_ Hx]|[Hx _]]];
    [|lia|vm_compute in Hx; discriminate].
  change (Re.sre_lower 105) with 105 in Hx.
  apply sre_lower_cases in Hx. lia.
Qed.

Lemma ci_l x : Re.ci 108 x = true → x = 76 ∨ x = 108.
Proof.
  intros Hx. apply ci_cases in Hx as [Hx|[[Hx _]|[Hx _]]];
    [|vm_compute in Hx; discriminate..].
  change (Re.sre_lower 108) with 108 in Hx.
  apply sre_lower_cases in Hx. lia.
Qed.

Lemma price_pattern_text preco :
  Lang.lang price_pattern preco → Lang.price_text preco.
Proof.
  change price_pattern with
    (Re.Seq (Re.Chr (Re.ci 82))
       (Re.Seq (Re.Chr (Re.one DOLLAR))
          (Re.Seq (Re.Star is_space)
             (Re.Seq (Re.Seq (Re.Chr (Re.any_of [is_decimal; Re.one DOT; Re.one COMMA]))
                       (Re.Star (Re.any_of [is_decimal; Re.one DOT; Re.one COMMA])))
                (Re.Opt (Re.Seq (Re.Star is_space)
                        (Re.Seq (Re.Chr (Re.ci 109))
                           (Re.Seq (Re.Chr (Re.ci 105)) (Re.Chr (Re.ci 108)))))))))).
  cbn [Lang.lang].
  intros (t1 & r1 & -> & (c & -> & Hc) & t2 & r2 & -> & (d & -> & Hd) &
          blanks & r3 & -> & Hblanks & number & unit & -> &
          (n1 & n2 & -> & (n & -> & Hn) & Hn2) & Hunit).
  apply N.eqb_eq in Hd. subst d.
  exists c, blanks, ([n] ++ n2), unit. cbn [app].
  split; [reflexivity|]. split; [apply ci_R, Hc|]. split; [exact Hblanks|].
  split; [discriminate|]. split; [cbn [forallb]; rewrite Hn, Hn2; reflexivity|].
  destruct Hunit as [(blanks' & word & -> & Hblanks' & m' & il & -> &
                      (m & -> & Hm) & i' & l' & -> & (i & -> & Hi) &
                      (l & -> & Hl))| ->]; [right|left; reflexivity].
  exists blanks', m, i, l. split; [reflexivity|]. split; [exact Hblanks'|].
  split; [apply ci_m, Hm|]. split; [apply ci_i, Hi|apply ci_l, Hl].
Qed.

(** The pieces of a split are pieces of the text. *)
Lemma split_scan_piece r : ∀ s skip cur p,
  skip = 0%nat ∨ cur = [] →
  p ∈ Re.split_scan r s skip cur →
  (skip = 0%nat ∧ ∃ pre post, s = pre ++ post ∧ p = rev cur ++ pre) ∨
  (∃ before after, s = before ++ p ++ after).
Proof.
  induction s as [|x s IH]; intros skip cur p Hstart; cbn [Re.split_scan].
  - intros Hp. apply list_elem_of_singleton in Hp as ->.
    destruct Hstart as [->| ->].
    + left. split; [reflexivity|]. exists [], []. split; [reflexivity|symmetry; apply app_nil_r].
    + right. exists [], []. reflexivity.
  - assert (∀ n, p ∈ Re.split_scan r s n [] →
                 ∃ before after, x :: s = before ++ p ++ after) as Hfresh.
    { intros n Hp. apply IH in Hp as [(_ & pre & post & -> & ->)|(before & after & ->)];
        [| |auto].
      - exists [x], post. reflexivity.
      - exists (x :: before), after. reflexivity. }
    destruct skip as [|n].
    + assert (p ∈ Re.split_scan r s 0 (x :: cur) →
              (0%nat = 0%nat ∧ ∃ pre post, x :: s = pre ++ post ∧ p = rev cur ++ pre) ∨
              (∃ before after, x :: s = before ++ p ++ after)) as Hgrow.
      { intros Hp. apply IH in Hp as [(_ & pre & post & -> & ->)|(before & after & ->)];
          [| |auto].
        - left. split; [reflexivity|]. exists (x :: pre), post.
          cbn [rev]. rewrite <- app_assoc. auto.
        - right. exists (x :: before), after. reflexivity. }
      destruct (Re.match_at r (x :: s)) as [[[|len] g]|]; [exact Hgrow| |exact Hgrow].
      intros Hp. apply elem_of_cons in Hp as [->|Hp]; [|right; eapply Hfresh, Hp].
      left. split; [reflexivity|]. exists [], (x :: s). split; [reflexivity|symmetry; apply app_nil_r].
    + destruct Hstart as [Hn| ->]; [discriminate|].
      intros Hp. right. eapply Hfresh, Hp.
Qed.

Lemma split_piece r s p :
  p ∈ Re.split r s → ∃ before after, s = before ++ p ++ after.
Proof.
  unfold Re.split. intros Hp.
  apply split_scan_piece in Hp as [(_ & pre & post & -> & ->)|Hp]; [|exact Hp|auto].
  exists [], post. reflexivity.
Qed.

(** Every record of the regex parser is the record of a section of the
    text. *)
Lemma simple_properties_section clean_content url (record : dict) :
  record ∈ simple_properties clean_content url →
  ∃ section, section ∈ sections_of clean_content ∧ derived url record section.
Proof.
  unfold simple_properties.
  destruct (scan_sections url (sections_of clean_content) []) as [res|] eqn:Hscan;
    [|intros Hin; inversion Hin].
  destruct (scan_sections_spec _ _ _ _ Hscan) as (new & picked & -> & Hnew & Hpicked).
  cbn [app]. intros Hin.
  apply list_elem_of_lookup in Hin as [i Hi].
  destruct (Forall2_lookup_l _ _ _ _ _ Hnew Hi) as (section & Hsection & Hderived).
  exists section. split; [|exact Hderived].
  apply list_elem_of_lookup_2 in Hsection.
  destruct Hpicked as [later Hfilter].
  assert (section ∈ List.filter qualifies (sections_of clean_content)) as Hq
    by (rewrite Hfilter; apply elem_of_app; auto).
  apply list_elem_of_In, filter_In in Hq as [Hq _].
  apply list_elem_of_In. exact Hq.
Qed.

(** X25. The preco of every record that [extract_properties_simple] returns
    is a piece of the page, and it reads R$ (in either case), blanks if
    any, a run of digits, points and commas, and perhaps the word mil. *)
Theorem extract_properties_simple_price clean_content url st (record : dict) :
  record ∈ fst (extract_properties_simple clean_content url st) →
  ∃ preco,
    record !! "preco" = Some (VStr preco) ∧
    Lang.price_text preco ∧
    ∃ before after, clean_content = before ++ preco ++ after.
Proof.
  rewrite extract_properties_simple_value. intros Hin.
  apply simple_properties_section in Hin
    as (section & Hsection & preco & more & Hprice & Hrecord).
  apply property_of_fields in Hrecord as [(_ & _ & Hp & _) _].
  exists preco. split; [exact Hp|].
  destruct (findall_sound price_pattern section preco) as [Hlang (b1 & a1 & Hs)];
    [reflexivity|rewrite Hprice; left|].
  split; [apply price_pattern_text, Hlang|].
  apply split_piece in Hsection as (b2 & a2 & ->). subst section.
  exists (b2 ++ b1), (a1 ++ a2). rewrite <- !app_assoc. reflexivity.
Qed.

Lemma extract_properties_simple_price_witness :
  ∃ record : dict,
    record ∈ fst (extract_properties_simple Samples.listing Samples.url Samples.fresh) ∧
    ∃ preco, record !! "preco" = Some (VStr preco) ∧ Lang.price_text preco.
Proof.
  destruct listing_has_one_record as [record Hrecord].
  assert (Hin : record ∈ fst (extract_properties_simple Samples.listing
                                Samples.url Samples.fresh))
    by (rewrite Hrecord; left).
  exists record. split; [exact Hin|].
  destruct (extract_properties_simple_price _ _ _ _ Hin) as (preco & Hp & Ht & _).
  eauto.
Defined.

(** ** The spacing of the requests *)

Lemma respect_rate_limit_last W st :
  last_request_time (self (snd (respect_rate_limit W st)))
  = clock W (S (ticks st)).
Proof.
  destruct (respect_rate_limit_effect W st) as (added & -> & _). reflexivity.
Qed.

Lemma respect_rate_limit_min_delay W st :
  min_delay (self (snd (respect_rate_limit W st))) = min_delay (self st).
Proof.
  destruct (respect_rate_limit_effect W st) as (added & -> & _). reflexivity.
Qed.

(** X26. With a clock that keeps time, [respect_rate_limit] leaves at least
    [min_delay] between the time it stores and the time stored by the call
    before it. *)
Theorem respect_rate_limit_spacing W st :
  Clock.keeps_time W st →
  (last_request_time (self st) + min_delay (self st)
   <= last_request_time (self (snd (respect_rate_limit W st))))%Q.
Proof.
  intros [Hforward Hsleep]. rewrite respect_rate_limit_last.
  unfold Clock.added_events in Hsleep.
  destruct (respect_rate_limit_cases W st) as [[Htrace Hlate]|[Htrace Hearly]];
    cbv zeta in *.
  - apply Qle_trans with (clock W (ticks st)); [|exact Hforward].
    apply Qle_trans
      with (last_request_time (self st)
            + (clock W (ticks st) - last_request_time (self st)))%Q.
    + apply Qplus_le_r. exact Hlate.
    + assert (last_request_time (self st)
              + (clock W (ticks st) - last_request_time (self st))
              == clock W (ticks st))%Q as -> by ring.
      apply Qle_refl.
  - rewrite Htrace, drop_app_length in Hsleep.
    assert (last_request_time (self st) + min_delay (self st)
            == clock W (ticks st)
               + (min_delay (self st)
                  - (clock W (ticks st) - last_request_time (self st))))%Q
      as -> by ring.
    apply Hsleep. right. left.
Qed.

Lemma respect_rate_limit_spacing_witness :
  Clock.keeps_time Clock.steady_world Clock.after_first ∧
  (last_request_time (self Clock.after_first) + min_delay (self Clock.after_first)
   <= last_request_time
        (self (snd (respect_rate_limit Clock.steady_world Clock.after_first))))%Q.
Proof.
  assert (Clock.keeps_time Clock.steady_world Clock.after_first) as Hkeeps.
  { split.
    - vm_compute. discriminate.
    - intros seconds Hin.
      set (added := Clock.added_events _ _) in Hin.
      vm_compute in added. subst added.
      apply elem_of_cons in Hin as [Hin|Hin]; [discriminate|].
      apply list_elem_of_singleton in Hin. injection Hin as ->.
      vm_compute. discriminate. }
  split; [exact Hkeeps|]. apply respect_rate_limit_spacing. exact Hkeeps.
Defined.

(** ** The split at blank lines *)

(** The matcher finds a match wherever the pattern has one. *)
Lemma star_complete {R} p t s' (k : str → option R) :
  forallb p t = true → k s' ≠ None → Re.star p (t ++ s') k ≠ None.
Proof.
  intros Ht Hk. induction t as [|x t IH]; cbn [app].
  - destruct s' as [|x s'']; cbn [Re.star]; [exact Hk|].
    destruct (p x); [|exact Hk].
    destruct (Re.star p s'' k); [discriminate|exact Hk].
  - cbn [forallb] in Ht. apply andb_true_iff in Ht as [Hx Ht].
    cbn [Re.star]. rewrite Hx.
    destruct (Re.star p (t ++ s') k) eqn:Hstar; [discriminate|].
    exfalso. exact (IH Ht eq_refl).
Qed.

Lemma rmatch_complete {R} r : ∀ t s' g (k : str → option str → option R),
  Lang.lang r t → (∀ g', k s' g' ≠ None) → Re.rmatch r (t ++ s') g k ≠ None.
Proof.
  induction r as [|p|r1 IH1 r2 IH2|r1 IH1 r2 IH2|r1 IH1|p|r1 IH1];
    intros t s' g k; cbn [Re.rmatch Lang.lang].
  - intros -> Hk. apply Hk.
  - intros (x & -> & Hx) Hk. cbn [app]. rewrite Hx. apply Hk.
  - intros (t1 & t2 & -> & Ht1 & Ht2) Hk. rewrite <- app_assoc.
    apply IH1; [exact Ht1|]. intros g'. apply IH2; assumption.
  - intros Ht Hk. destruct (Re.rmatch r1 (t ++ s') g k) eqn:Hfirst; [discriminate|].
    destruct Ht as [Ht|Ht]; [|apply IH2; assumption].
    exfalso. exact (IH1 _ _ _ _ Ht Hk Hfirst).
  - intros Ht Hk. destruct (Re.rmatch r1 (t ++ s') g k) eqn:Hfirst; [discriminate|].
    destruct Ht as [Ht| ->]; [|apply Hk].
    exfalso. exact (IH1 _ _ _ _ Ht Hk Hfirst).
  - intros Ht Hk. apply star_complete; [exact Ht|apply Hk].
  - intros Ht Hk. apply IH1; [exact Ht|]. intros _. apply Hk.
Qed.

Lemma match_at_complete r t after :
  Lang.lang r t → Re.match_at r (t ++ after) ≠ None.
Proof.
  intros Ht. unfold Re.match_at. apply rmatch_complete; [exact Ht|discriminate].
Qed.

(** A match is a first part of the text, of the length the matcher gives. *)
Lemma match_at_parts r s len g :
  Re.match_at r s = Some (len, g) →
  ∃ t s', s = t ++ s' ∧ length t = len ∧ Lang.lang r t.
Proof.
  unfold Re.match_at. intros Hm.
  apply rmatch_sound in Hm as (t & s' & g' & -> & Ht & Hk & _).
  injection Hk as <- _. exists t, s'. split; [reflexivity|].
  split; [rewrite length_app; lia|exact Ht].
Qed.

(** The repetition takes the longest run after which the rest matches. *)
Lemma star_greedy {R} p s (k : str → option R) res :
  Re.star p s k = Some res →
  ∃ t1 s1,
    s = t1 ++ s1 ∧ forallb p t1 = true ∧ k s1 = Some res ∧
    ∀ t2 s2, s = t2 ++ s2 → forallb p t2 = true →
             (length t1 < length t2)%nat → k s2 = None.
Proof.
  revert res. induction s as [|x s IH]; intros res; cbn [Re.star].
  - intros Hk. exists [], []. repeat split; [exact Hk|].
    intros t2 s2 Hs _ Hlen. symmetry in Hs. apply app_eq_nil in Hs as [-> _].
    cbn in Hlen. lia.
  - assert (Hstop : k (x :: s) = Some res →
              (∀ t2 s2, s = t2 ++ s2 → forallb p t2 = true → p x = true →
                        k s2 = None) →
              ∃ t1 s1,
                x :: s = t1 ++ s1 ∧ forallb p t1 = true ∧ k s1 = Some res ∧
                ∀ t2 s2, x :: s = t2 ++ s2 → forallb p t2 = true →
                         (length t1 < length t2)%nat → k s2 = None).
    { intros Hk Hnone. exists [], (x :: s). repeat split; [exact Hk|].
      intros t2 s2 Hs Ht2 Hlen. destruct t2 as [|y t2]; [cbn in Hlen; lia|].
      injection Hs as <- ->. cbn [forallb] in Ht2.
      apply andb_true_iff in Ht2 as [Hx Ht2]. eapply Hnone; eauto. }
    destruct (p x) eqn:Hx.
    + destruct (Re.star p s k) as [r|] eqn:Hstar.
      * intros Hres. injection Hres as ->.
        destruct (IH _ eq_refl) as (t1 & s1 & -> & Ht1 & Hk & Hmax).
        exists (x :: t1), s1. cbn [forallb]. rewrite Hx, Ht1.
        repeat split; [exact Hk|].
        intros t2 s2 Hs Ht2 Hlen. destruct t2 as [|y t2]; [cbn in Hlen; lia|].
        injection Hs as <- Hs. cbn [forallb] in Ht2.
        apply andb_true_iff in Ht2 as [_ Ht2]. cbn [length] in Hlen.
        apply (Hmax t2 s2 Hs Ht2). lia.
      * intros Hk. apply Hstop; [exact Hk|].
        intros t2 s2 -> Ht2 _. destruct (k s2) eqn:Hk2; [|reflexivity].
        exfalso. apply (star_complete p t2 s2 k Ht2); [congruence|exact Hstar].
    + intros Hk. apply Hstop; [exact Hk|]. intros; discriminate.
Qed.

(** The parts of a blank-line break. *)
Lemma section_break_parts t :
  Lang.lang section_break t ↔
  ∃ w, t = NL :: w ++ [NL] ∧ forallb is_space w = true.
Proof.
  change section_break with
    (Re.Seq (Re.Chr (Re.one NL)) (Re.Seq (Re.Star is_space) (Re.Chr (Re.one NL)))).
  cbn [Lang.lang]. unfold Re.one. split.
  - intros (t1 & t2 & -> & (a & -> & Ha) & w & t3 & -> & Hw & b & -> & Hb).
    apply N.eqb_eq in Ha, Hb. subst a b. eauto.
  - intros (w & -> & Hw).
    exists [NL], (w ++ [NL]). split; [reflexivity|].
    split; [exists NL; split; [reflexivity|apply N.eqb_refl]|].
    exists w, [NL]. split; [reflexivity|]. split; [exact Hw|].
    exists NL. split; [reflexivity|apply N.eqb_refl].
Qed.

Lemma section_break_not_empty : ¬ Lang.lang section_break [].
Proof. intros (w & Hw & _)%section_break_parts. discriminate. Qed.

(** The match the matcher finds for a blank-line break is the longest. *)
Lemma section_break_longest s len g t after :
  Re.match_at section_break s = Some (len, g) →
  s = t ++ after → Lang.lang section_break t → (length t ≤ len)%nat.
Proof.
  intros Hm -> (w & -> & Hw)%section_break_parts.
  revert Hm. unfold Re.match_at.
  change section_break with
    (Re.Seq (Re.Chr (Re.one NL)) (Re.Seq (Re.Star is_space) (Re.Chr (Re.one NL)))).
  cbn [Re.rmatch app]. unfold Re.one at 1. rewrite N.eqb_refl.
  intros Hm. apply star_greedy in Hm as (t1 & s1 & Hs & Ht1 & Hk & Hmax).
  destruct (Nat.lt_ge_cases (length t1) (length w)) as [Hshort|Hlong].
  - exfalso. specialize (Hmax w ([NL] ++ after)).
    rewrite <- app_assoc in Hmax. specialize (Hmax eq_refl Hw Hshort).
    cbn [app] in Hmax. unfold Re.one in Hmax. rewrite N.eqb_refl in Hmax.
    discriminate.
  - destruct s1 as [|c s1]; [discriminate|].
    destruct (Re.one NL c); [|discriminate].
    injection Hk as <- _.
    apply (f_equal (@length _)) in Hs. rewrite !length_app in Hs.
    cbn [length] in *. rewrite !length_app. cbn [length]. lia.
Qed.

Section Cut.
Variable r : Re.regex.
Hypothesis not_empty : ¬ Lang.lang r [].
Hypothesis is_longest : ∀ s len g t after,
  Re.match_at r s = Some (len, g) → s = t ++ after → Lang.lang r t →
  (length t ≤ len)%nat.

Lemma unbroken_nil rest : Lang.unbroken r [] rest.
Proof. intros before t after _ Hlen. cbn in Hlen. lia. Qed.

Lemma unbroken_cons x section rest :
  Re.match_at r (x :: section ++ rest) = None →
  Lang.unbroken r section rest →
  Lang.unbroken r (x :: section) rest.
Proof.
  intros Hnone Hfree before t after Heq Hlen Ht.
  destruct before as [|y before].
  - cbn [app] in Heq. apply (match_at_complete r t after Ht).
    rewrite <- Heq. exact Hnone.
  - cbn [app] in Heq. injection Heq as _ Heq. cbn [length] in Hlen.
    apply (Hfree before t after Heq); [lia|exact Ht].
Qed.

(** The scan of [re.split], from any place on: the piece being read is
    closed at the next match, and what follows is cut in the same way. *)
Lemma split_scan_cut : ∀ s skip cur,
  ∃ first rest breaks,
    Re.split_scan r s skip cur = (rev cur ++ first) :: rest ∧
    Lang.cut_at r (first :: rest) breaks (drop skip s).
Proof.
  induction s as [|x s IH]; intros skip cur; cbn [Re.split_scan].
  - exists [], [], []. rewrite app_nil_r, drop_nil. cbn.
    repeat split. apply unbroken_nil.
  - destruct skip as [|n]; [|apply IH].
    cbn [drop].
    destruct (Re.match_at r (x :: s)) as [[[|len] g]|] eqn:Hmatch.
    + exfalso. apply match_at_parts in Hmatch as (t & s' & _ & Hlen & Ht).
      destruct t; [exact (not_empty Ht)|discriminate].
    + destruct (IH len []) as (first & rest & breaks & Hscan & Hcut).
      cbn [rev app] in Hscan. rewrite Hscan.
      pose proof Hmatch as Hparts.
      apply match_at_parts in Hparts as (b & s' & Hs & Hlen & Hb).
      assert (Hdrop : drop len s = s').
      { destruct b as [|y b]; [discriminate|]. cbn [app] in Hs.
        injection Hs as <- ->. cbn [length] in Hlen. injection Hlen as <-.
        apply drop_app_length. }
      exists [], (first :: rest), (b :: breaks).
      rewrite app_nil_r. split; [reflexivity|].
      cbn [Lang.cut_at]. exists s'. split; [exact Hs|].
      split; [apply unbroken_nil|]. split; [exact Hb|].
      split; [|rewrite <- Hdrop; exact Hcut].
      intros t after Heq Ht. rewrite Hlen.
      apply (is_longest (x :: s) (S len) g t after Hmatch); [|exact Ht].
      rewrite Hs. exact Heq.
    + destruct (IH 0%nat (x :: cur)) as (first & rest & breaks & Hscan & Hcut).
      change (drop 0 s) with s in Hcut. exists (x :: first), rest, breaks.
      split; [rewrite Hscan; cbn [rev]; rewrite <- app_assoc; reflexivity|].
      cbn [Lang.cut_at] in Hcut |- *.
      destruct breaks as [|b breaks].
      * destruct Hcut as (-> & -> & Hfree). split; [reflexivity|].
        split; [reflexivity|].
        apply unbroken_cons; [rewrite app_nil_r; exact Hmatch|exact Hfree].
      * destruct Hcut as (rest' & -> & Hfree & Hrest).
        exists rest'. split; [reflexivity|].
        split; [apply unbroken_cons; assumption|exact Hrest].
Qed.

Lemma split_cut s : ∃ breaks, Lang.cut_at r (Re.split r s) breaks s.
Proof.
  unfold Re.split.
  destruct (split_scan_cut s 0 []) as (first & rest & breaks & -> & Hcut).
  exists breaks. exact Hcut.
Qed.
End Cut.

(** The sections of a text are the text cut at its blank lines. *)
Lemma sections_of_cut clean_content :
  ∃ breaks, Lang.cut_at section_break (sections_of clean_content) breaks clean_content.
Proof.
  apply split_cut; [exact section_break_not_empty|].
  intros s len g t after. apply section_break_longest.
Qed.

(** ** The pass over the sections *)

Lemma qualifies_short section :
  (length section < 50)%nat → qualifies section = false.
Proof.
  intros Hshort. unfold qualifies.
  replace (50 <=? length section)%nat with false
    by (symmetry; apply Nat.leb_gt; exact Hshort).
  reflexivity.
Qed.

Lemma qualifies_no_price section :
  Re.findall price_pattern section = [] → qualifies section = false.
Proof.
  intros Hnone. unfold qualifies, has_price. rewrite Hnone.
  apply andb_false_r.
Qed.

Lemma qualifies_priced section preco more :
  (50 ≤ length section)%nat →
  Re.findall price_pattern section = preco :: more →
  qualifies section = true.
Proof.
  intros Hlong Hprice. unfold qualifies, has_price. rewrite Hprice.
  replace (50 <=? length section)%nat with true
    by (symmetry; apply Nat.leb_le; exact Hlong).
  reflexivity.
Qed.

(** The loop and what it looks at, from any section on and with fewer than
    20 records so far.  It looks at a first part of the sections.  When it
    ends without an exception, it has added one record for each qualifying
    section it looked at, in order, and it has either looked at all the
    sections and has fewer than 20 records, or stopped at the qualifying
    section that gave the twentieth.  When it ends in an exception, the last
    section it looked at is the one that raises. *)
Lemma scan_sections_visited url sections :
  ∀ acc,
    (length acc < 20)%nat →
    let examined := visited url sections acc in
    examined `prefix_of` sections ∧
    match scan_sections url sections acc with
    | Some res =>
        ∃ new,
          res = acc ++ new ∧
          Forall2 (derived url) new (List.filter qualifies examined) ∧
          (((length res < 20)%nat ∧ examined = sections) ∨
           (length res = 20%nat ∧
            ∃ before section,
              examined = before ++ [section] ∧ qualifies section = true))
    | None =>
        ∃ before section new,
          examined = before ++ [section] ∧
          Forall2 (derived url) new (List.filter qualifies before) ∧
          (length (acc ++ new) < 20)%nat ∧
          Pass.raises url section
    end.
Proof.
  induction sections as [|section rest IH]; intros acc Hacc; cbv zeta.
  - cbn [scan_sections visited]. split; [reflexivity|].
    exists []. rewrite app_nil_r. split; [reflexivity|].
    split; [constructor|]. left. auto.
  - rewrite scan_sections_cons. cbn [visited].
    assert (Hskip : qualifies section = false →
      (section :: visited url rest acc) `prefix_of` (section :: rest) ∧
      match scan_sections url rest acc with
      | Some res =>
          ∃ new,
            res = acc ++ new ∧
            Forall2 (derived url) new
              (List.filter qualifies (section :: visited url rest acc)) ∧
            (((length res < 20)%nat ∧ section :: visited url rest acc = section :: rest) ∨
             (length res = 20%nat ∧
              ∃ before section',
                section :: visited url rest acc = before ++ [section'] ∧
                qualifies section' = true))
      | None =>
          ∃ before section' new,
            section :: visited url rest acc = before ++ [section'] ∧
            Forall2 (derived url) new (List.filter qualifies before) ∧
            (length (acc ++ new) < 20)%nat ∧
            Pass.raises url section'
      end).
    { intros Hno. destruct (IH acc Hacc) as [Hprefix Hscan].
      split; [apply prefix_cons; exact Hprefix|].
      cbn [List.filter]. rewrite Hno.
      destruct (scan_sections url rest acc) as [res|].
      - destruct Hscan as (new & -> & Hnew & Hend).
        exists new. split; [reflexivity|]. split; [exact Hnew|].
        destruct Hend as [[Hlen ->]|(Hlen & before & last & -> & Hq)];
          [left; auto|].
        right. split; [exact Hlen|]. exists (section :: before), last. auto.
      - destruct Hscan as (before & last & new & -> & Hnew & Hlen & Hraises).
        exists (section :: before), last, new.
        split; [reflexivity|]. cbn [List.filter]. rewrite Hno. auto. }
    destruct (Nat.ltb_spec (length section) 50) as [Hshort|Hlong];
      [apply Hskip, qualifies_short, Hshort|].
    destruct (Re.findall price_pattern section) as [|preco more] eqn:Hprice;
      [apply Hskip, qualifies_no_price, Hprice|].
    pose proof (qualifies_priced _ _ _ Hlong Hprice) as Hq.
    destruct (property_of url section preco) as [property_data|] eqn:Hprop.
    + cbv zeta.
      assert (Hderived : derived url property_data section)
        by (exists preco, more; auto).
      destruct (Nat.leb_spec 20 (length (acc ++ [property_data]))) as [Hfull|Hroom].
      * split; [apply prefix_cons, prefix_nil|].
        exists [property_data]. split; [reflexivity|].
        cbn [List.filter]. rewrite Hq.
        split; [repeat constructor; exact Hderived|].
        right. rewrite length_app in *. cbn [length] in *.
        split; [lia|]. exists [], section. auto.
      * destruct (IH (acc ++ [property_data]) Hroom) as [Hprefix Hscan].
        split; [apply prefix_cons; exact Hprefix|].
        cbn [List.filter]. rewrite Hq.
        destruct (scan_sections url rest (acc ++ [property_data])) as [res|].
        -- destruct Hscan as (new & -> & Hnew & Hend).
           exists (property_data :: new).
           split; [rewrite <- app_assoc; reflexivity|].
           split; [constructor; assumption|].
           destruct Hend as [[Hlen ->]|(Hlen & before & last & -> & Hlast)];
             [left; auto|].
           right. split; [exact Hlen|]. exists (section :: before), last. auto.
        -- destruct Hscan as (before & last & new & -> & Hnew & Hlen & Hraises).
           exists (section :: before), last, (property_data :: new).
           split; [reflexivity|]. cbn [List.filter]. rewrite Hq.
           split; [constructor; assumption|].
           rewrite <- app_assoc in Hlen. auto.
    + split; [apply prefix_cons, prefix_nil|].
      exists [], section, []. split; [reflexivity|].
      split; [constructor|]. rewrite app_nil_r. split; [exact Hacc|].
      split; [exact Hq|].
      intros preco' more' Hprice'. rewrite Hprice in Hprice'.
      injection Hprice' as <- _. exact Hprop.
Qed.

(** C1, as amended. [extract_properties_simple] cuts the text at its blank
    lines into sections and passes over the sections once, in order, looking
    at a first part of them.  Unless a conversion raises, it returns one
    record for each section it looked at that qualifies (at least 50
    characters and a price), in order and each derived from that section,
    and nothing else; it has then looked at every section and returns fewer
    than 20 records, or it stopped at the section that gave the twentieth.
    When a conversion raises, in the last section it looked at, it returns
    the empty list. *)
Theorem extract_properties_simple_single_pass clean_content url st :
  let sections := sections_of clean_content in
  let examined := visited url sections [] in
  let result := fst (extract_properties_simple clean_content url st) in
  (∃ breaks, Lang.cut_at section_break sections breaks clean_content) ∧
  examined `prefix_of` sections ∧
  ((Forall2 (derived url) result (List.filter qualifies examined) ∧
    (((length result < 20)%nat ∧ examined = sections) ∨
     (length result = 20%nat ∧
      ∃ before section,
        examined = before ++ [section] ∧ qualifies section = true)))
   ∨
   (result = [] ∧
    ∃ before section records,
      examined = before ++ [section] ∧
      Forall2 (derived url) records (List.filter qualifies before) ∧
      (length records < 20)%nat ∧
      Pass.raises url section)).
Proof.
  cbv zeta. rewrite extract_properties_simple_value. unfold simple_properties.
  split; [apply sections_of_cut|].
  destruct (scan_sections_visited url (sections_of clean_content) [])
    as [Hprefix Hscan]; [cbn; lia|].
  split; [exact Hprefix|].
  destruct (scan_sections url (sections_of clean_content) []) as [res|].
  - left. destruct Hscan as (new & -> & Hnew & Hend). cbn [app] in *. auto.
  - right. split; [reflexivity|].
    destruct Hscan as (before & section & new & Hexamined & Hnew & Hlen & Hraises).
    exists before, section, new. cbn [app] in Hlen. auto.
Qed.

(** C1, as the specification has it, fails on a page of 22 listings: the
    loop looks at the first 20 sections and leaves the last two. *)
Lemma single_pass_as_specified_fails :
  ¬ Pass.single_pass_as_specified (Samples.page 21) Samples.url.
Proof.
  intros [Hall _]. apply (f_equal (@length _)) in Hall.
  vm_compute in Hall. discriminate.
Qed.
